(** * BookUdecate pipeline orchestrator: a shallow embedding

    The development follows the Python sources file by file:
    [chunker.py] (segmenter), [agents.py] and [graph.py] (the per-chunk
    plan / draft / critique loop), [main.py] (checkpoints, purge, phase
    gates, the phase-2 scheduler), [sse_manager.py] (event broker) and
    [dlq.py] (dead letter queue).

    Text is a list of characters.  Characters are code points below 256,
    which covers every character the sources test for; the one literal
    with a character beyond (a dash in a feedback message) is written in
    UTF-8.  Python integers are [Z]; lengths of lists are [nat]. *)

From Stdlib Require Import Ascii String.
From Stdlib Require Import ZArith.
From stdpp Require Import base option list strings gmap.

Local Open Scope nat_scope.
Local Open Scope list_scope.

(** ** Python [str] primitives *)

Module py.

Abbreviation str := (list ascii).

(** A literal: [s "abc"] is the text [abc]. *)
Definition s (x : string) : str := list_ascii_of_string x.

Definition code (c : ascii) : nat := nat_of_ascii c.

Definition chr_eqb (a b : ascii) : bool := Ascii.eqb a b.

(** [str.isspace] on one character: TAB..CR, FS..US, SPACE, NEL, NBSP. *)
Definition isspace (c : ascii) : bool :=
  let n := code c in
  ((9 <=? n) && (n <=? 13)) || ((28 <=? n) && (n <=? 32))
  || (n =? 133) || (n =? 160).

(** [\d] of the [re] module. *)
Definition isdigit (c : ascii) : bool :=
  let n := code c in (48 <=? n) && (n <=? 57).

(** The character class [[A-Za-z]]. *)
Definition isalpha_ascii (c : ascii) : bool :=
  let n := code c in
  ((65 <=? n) && (n <=? 90)) || ((97 <=? n) && (n <=? 122)).

Definition is_nl (c : ascii) : bool := code c =? 10.

Definition nl : ascii := ascii_of_nat 10.

Definition upper_chr (c : ascii) : ascii :=
  let n := code c in
  if (97 <=? n) && (n <=? 122) then ascii_of_nat (n - 32) else c.

Definition lower_chr (c : ascii) : ascii :=
  let n := code c in
  if (65 <=? n) && (n <=? 90) then ascii_of_nat (n + 32) else c.

Definition upper (x : str) : str := map upper_chr x.
Definition lower (x : str) : str := map lower_chr x.

Fixpoint lstrip (x : str) : str :=
  match x with
  | [] => []
  | c :: r => if isspace c then lstrip r else x
  end.

Definition rstrip (x : str) : str := reverse (lstrip (reverse x)).

Definition strip (x : str) : str := rstrip (lstrip x).

Fixpoint startswith (x p : str) : bool :=
  match p, x with
  | [], _ => true
  | _ :: _, [] => false
  | a :: p', b :: x' => chr_eqb a b && startswith x' p'
  end.

Definition endswith (x p : str) : bool := startswith (reverse x) (reverse p).

(** [p in x] *)
Fixpoint contains (x p : str) : bool :=
  startswith x p ||
  match x with
  | [] => false
  | _ :: r => contains r p
  end.

(** Truthiness of a string. *)
Definition truthy (x : str) : bool :=
  match x with [] => false | _ :: _ => true end.

(** [x or y] on strings. *)
Definition or_else (x y : str) : str := if truthy x then x else y.

(** [sep.join(parts)] *)
Fixpoint join (sep : str) (parts : list str) : str :=
  match parts with
  | [] => []
  | [p] => p
  | p :: rest => p ++ sep ++ join sep rest
  end.

(** Puts [c] in front of the first piece. *)
Definition cons_head (c : ascii) (ps : list str) : list str :=
  match ps with
  | [] => [[c]]
  | p :: rest => (c :: p) :: rest
  end.

(** [x.split("\n\n")]: cut at each occurrence of two line feeds, scanning
    from the left, occurrences not overlapping. *)
Fixpoint split_blank (x : str) : list str :=
  match x with
  | [] => [[]]
  | c :: tl =>
      match tl with
      | c2 :: rest =>
          if is_nl c && is_nl c2 then [] :: split_blank rest
          else cons_head c (split_blank tl)
      | [] => [[c]]
      end
  end.

(** [x.replace(old, "")] for a non-empty [old]: the occurrences of
    [old], scanning from the left, are dropped. *)
Fixpoint remove_all_fuel (fuel : nat) (old x : str) : str :=
  match fuel with
  | 0 => x
  | S f =>
      match x with
      | [] => []
      | c :: r =>
          if startswith x old
          then remove_all_fuel f old (drop (length old) x)
          else c :: remove_all_fuel f old r
      end
  end.

Definition remove_all (old x : str) : str :=
  remove_all_fuel (S (length x)) old x.

(** [x[i : i + n]] for [i] in [range(0, len(x), n)], [n] positive: the
    fuel is the number of characters still to cut. *)
Fixpoint slices_fuel (fuel n : nat) (x : str) : list str :=
  match fuel with
  | 0 => []
  | S f =>
      match x with
      | [] => []
      | _ :: _ => take n x :: slices_fuel f n (drop n x)
      end
  end.

Definition slices (n : nat) (x : str) : list str :=
  slices_fuel (length x) n x.

(** The characters that are not white space, in order. *)
Definition ink (x : str) : str := List.filter (fun c => negb (isspace c)) x.
Arguments ink : simpl never.

(** [f"{n:,}"] for a non-negative integer: decimal digits in groups of
    three. *)
Fixpoint digits_fuel (fuel : nat) (n : Z) (acc : str) : str :=
  let d := ascii_of_nat (48 + Z.to_nat (n mod 10)) in
  match fuel with
  | 0 => d :: acc
  | S f => if (n <? 10)%Z then d :: acc else digits_fuel f (n / 10)%Z (d :: acc)
  end.

Definition digits (n : Z) : str := digits_fuel (Z.to_nat (Z.log2 n)) n [].

Fixpoint group3 (rev_digits : str) : str :=
  match rev_digits with
  | a :: b :: c :: (_ :: _) as rest =>
      a :: b :: c :: ascii_of_nat 44 :: group3 rest
  | _ => rev_digits
  end.

Definition fmt_commas (n : Z) : str := reverse (group3 (reverse (digits n))).

(** [len(x)] as a Python integer. *)
Definition len (x : str) : Z := Z.of_nat (length x).

End py.

(** ** chunker.py *)

Module chunker.
Import py.

(** The alternatives of the heading pattern of [_split_by_chapter]. *)
Definition HEADINGS : list str :=
  [ s "Chapter "; s "CHAPTER "; s "Unit "; s "UNIT ";
    s "Module "; s "MODULE "; s "Part "; s "PART " ].

(** [(?:Chapter |CHAPTER |...)] matches at the front of [x]. *)
Definition at_chapter (x : str) : bool :=
  existsb (startswith x) HEADINGS.

(** [\d+\.\s+] matches at the front of [x]: digits, a dot, white space. *)
Fixpoint after_digits (x : str) : bool :=
  match x with
  | c :: r =>
      if isdigit c then after_digits r
      else chr_eqb c "."%char && match r with w :: _ => isspace w | [] => false end
  | [] => false
  end.

Definition at_numbered (x : str) : bool :=
  match x with
  | c :: r => isdigit c && after_digits r
  | [] => false
  end.

(** [re.split(r"(?=^HEAD)", text, flags=re.MULTILINE)]: the text is cut
    in front of every line start ([bol]: offset 0 or just after a line
    feed) at which [head] matches; a cut at offset 0 leaves an empty
    first piece. *)
Fixpoint split_before (head : str → bool) (bol : bool) (x : str) : list str :=
  match x with
  | [] => [[]]
  | c :: tl =>
      let r := cons_head c (split_before head (is_nl c) tl) in
      if bol && head x then [] :: r else r
  end.

(** [[p.strip() for p in parts if p.strip()]] *)
Definition stripped_parts (parts : list str) : list str :=
  List.filter truthy (map strip parts).

Definition _split_by_chapter (text : str) : list str :=
  stripped_parts (split_before at_chapter true text).

Definition _split_by_numbered_sections (text : str) : list str :=
  stripped_parts (split_before at_numbered true text).

Definition is_stop (c : ascii) : bool :=
  chr_eqb c "."%char || chr_eqb c "!"%char || chr_eqb c "?"%char.

(** [re.split(r"(?<=[.!?])\s+(?=[A-ZA-Za-z])", para)]: a maximal run of
    white space is a separator when the character before it is one of
    [.!?] and the character after it is an ASCII letter.  [cur] is the
    piece being read, reversed; [run] is the white space read since a
    stop character, reversed, while it may still turn out a separator. *)
Fixpoint split_sentences_from (cur : str) (run : option str) (x : str) : list str :=
  match x with
  | [] => [reverse (default [] run ++ cur)]
  | c :: r =>
      match run with
      | Some w =>
          if isspace c then split_sentences_from cur (Some (c :: w)) r
          else if isalpha_ascii c then reverse cur :: split_sentences_from [c] None r
          else split_sentences_from (c :: w ++ cur) None r
      | None =>
          if isspace c && match cur with p :: _ => is_stop p | [] => false end
          then split_sentences_from cur (Some [c]) r
          else split_sentences_from (c :: cur) None r
      end
  end.

Definition split_sentences (para : str) : list str :=
  split_sentences_from [] None para.

(** A Python exception leaving the segmenter. *)
Inductive error := ValueError.

(** The loop [for i in range(0, len(sentence), max_chars)]: a zero step
    makes [range] raise. *)
Definition force_split (max_chars : nat) (sentence : str) : error + list str :=
  if max_chars =? 0 then inl ValueError else inr (slices max_chars sentence).

(** The loop over [sentences]; the state is [chunks] and [para_current]. *)
Fixpoint sentence_loop (max_chars : nat) (sentences : list str)
    (chunks : list str) (para_current : str) : error + (list str * str) :=
  match sentences with
  | [] => inr (chunks, para_current)
  | sentence :: rest =>
      if length para_current + length sentence + 1 <=? max_chars then
        sentence_loop max_chars rest chunks
          (para_current ++ strip (sentence ++ s " "))
      else
        let chunks :=
          if truthy para_current then chunks ++ [strip para_current] else chunks in
        if max_chars <? length sentence then
          match force_split max_chars sentence with
          | inl e => inl e
          | inr pieces => sentence_loop max_chars rest (chunks ++ pieces) []
          end
        else sentence_loop max_chars rest chunks (sentence ++ s " ")
  end.

(** The body run for a paragraph that alone exceeds [max_chars]. *)
Definition split_paragraph (max_chars : nat) (para : str) (chunks : list str)
    : error + list str :=
  match sentence_loop max_chars (split_sentences para) chunks [] with
  | inl e => inl e
  | inr (chunks, para_current) =>
      inr (if truthy para_current then chunks ++ [strip para_current] else chunks)
  end.

Definition blank2 : str := [nl; nl].

(** The loop over [paragraphs]; the state is [chunks], [current] and
    [current_len]. *)
Fixpoint paragraph_loop (max_chars : nat) (paragraphs : list str)
    (chunks : list str) (current : list str) (current_len : nat)
    : error + (list str * list str) :=
  match paragraphs with
  | [] => inr (chunks, current)
  | para :: rest =>
      let para_len := length para in
      if current_len + para_len <=? max_chars then
        paragraph_loop max_chars rest chunks (current ++ [para])
          (current_len + (para_len + 2))
      else
        let '(chunks, current, current_len) :=
          match current with
          | _ :: _ => (chunks ++ [join blank2 current], [], 0)
          | [] => (chunks, current, current_len)
          end in
        if max_chars <? length para then
          match split_paragraph max_chars para chunks with
          | inl e => inl e
          | inr chunks => paragraph_loop max_chars rest chunks current current_len
          end
        else paragraph_loop max_chars rest chunks [para] (length para + 2)
  end.

Definition _split_by_length (text : str) (max_chars : nat) : error + list str :=
  match paragraph_loop max_chars (split_blank text) [] [] 0 with
  | inl e => inl e
  | inr (chunks, current) =>
      inr (match current with
           | _ :: _ => chunks ++ [join blank2 current]
           | [] => chunks
           end)
  end.

(** The loop of strategy C over the chunks of strategies A and B. *)
Fixpoint hard_split_all (MAX_CHUNK_CHARS : nat) (chunks final_chunks : list str)
    : error + list str :=
  match chunks with
  | [] => inr final_chunks
  | chunk :: rest =>
      if MAX_CHUNK_CHARS <? length chunk then
        match _split_by_length chunk MAX_CHUNK_CHARS with
        | inl e => inl e
        | inr sub_chunks =>
            hard_split_all MAX_CHUNK_CHARS rest (final_chunks ++ sub_chunks)
        end
      else hard_split_all MAX_CHUNK_CHARS rest (final_chunks ++ [chunk])
  end.

(** The cascade of [chunk_manuscript], before strategy C. *)
Definition cascade (text : str) : list str :=
  let chunks := _split_by_chapter text in
  let chunks :=
    if length chunks <=? 1 then _split_by_numbered_sections text else chunks in
  if length chunks <=? 1 then [text] else chunks.

(** [chunk_manuscript] on the text read from an existing file;
    [MAX_CHUNK_CHARS] is the module constant read from the environment
    (800 when unset). *)
Definition chunk_manuscript (MAX_CHUNK_CHARS : nat) (text : str) : error + list str :=
  hard_split_all MAX_CHUNK_CHARS (cascade text) [].

End chunker.

(** ** state.py and agents.py *)

Module agents.
Import py.
Local Open Scope Z_scope.

(** [BookState]; the scheduler creates it with every key present. *)
Record BookState := mkState {
  current_chunk : str;
  analysis : str;
  expanded_chunk : str;
  feedback : str;
  revision_count : Z;
  target_chars : Z
}.

Definition set_analysis (a : str) (st : BookState) : BookState :=
  mkState (current_chunk st) a (expanded_chunk st) (feedback st)
          (revision_count st) (target_chars st).

Definition set_draft (e : str) (n : Z) (st : BookState) : BookState :=
  mkState (current_chunk st) (analysis st) e (feedback st) n (target_chars st).

Definition set_feedback (f : str) (st : BookState) : BookState :=
  mkState (current_chunk st) (analysis st) (expanded_chunk st) f
          (revision_count st) (target_chars st).

(** Exceptions (subclasses of [Exception]) with their [str(e)]. *)
Inductive exc_class :=
  APIConnectionError | NameError | GraphRecursionError | OtherException.

Record Exception := mkExc { exc_type : exc_class; exc_str : str }.

(** What [response.choices[0].message.content] gives. *)
Inductive Message :=
| NoContent                   (* AttributeError, IndexError or KeyError *)
| Content (c : option str).   (* None or a string *)

Inductive Response :=
| Falsy                       (* None, no [choices], or empty [choices] *)
| Choices (m : Message).

(** One invocation of [litellm.acompletion]. *)
Inductive Outcome := Raises (e : Exception) | Returns (r : Response).

(** The process environment and the generation service.  The service
    is an oracle: [acompletion k] is the outcome of invocation number
    [k] (counted from 0) of [litellm.acompletion]. *)
Record Env := mkEnv {
  DEFAULT_MODEL : option str;
  MATH_MODEL : option str;
  FLASH_MODEL : option str;
  LLM_PROVIDER : option str;
  api_key : bool;             (* GOOGLE_API_KEY or GEMINI_API_KEY is set and not empty *)
  TARGET_PAGES : Z;           (* int(os.getenv("TARGET_PAGES", "600")) *)
  acompletion : nat → Outcome
}.

Definition DEFAULT_FALLBACK_MODEL : str := s "gemini/gemini-2.0-flash".

Definition _MATH_KEYWORDS : list str :=
  [ s "\frac"; s "\int"; s "\sum"; s "\partial"; s "differential";
    s "derivation"; s "equation"; s "thermodynamic"; s "calculus";
    s "matrix"; s "eigenvalue"; s "Laplace"; s "Fourier"; s "\nabla";
    s "\Delta" ].

Section nodes.
Variable env : Env.

Definition _get_model : str :=
  let model := default DEFAULT_FALLBACK_MODEL (DEFAULT_MODEL env) in
  if truthy model then model else DEFAULT_FALLBACK_MODEL.

Definition _select_model (chunk : str) : str :=
  let provider := lower (default (s "gemini") (LLM_PROVIDER env)) in
  if bool_decide (provider = s "ollama") then s "ollama/llama3"
  else
    let base := default DEFAULT_FALLBACK_MODEL (DEFAULT_MODEL env) in
    let pro_model := default base (MATH_MODEL env) in
    let flash_model := default base (FLASH_MODEL env) in
    if truthy chunk && existsb (contains chunk) _MATH_KEYWORDS
    then pro_model else flash_model.

(** The test that sends an exception to the 30 s back-off. *)
Definition looks_like_network (e : Exception) : bool :=
  let m := lower (exc_str e) in
  contains m (s "11001") || contains m (s "getaddrinfo") || contains m (s "time").

Definition retryable (e : Exception) : bool :=
  match exc_type e with
  | APIConnectionError => true
  | _ => looks_like_network e
  end.

Definition missing_key (model : str) : bool :=
  startswith model (s "gemini/") && negb (api_key env).

(** How the [for attempt in range(n)] loop of the analyst and of the
    critic ends. *)
Inductive attempts_end :=
| NoKey                       (* the early return on a missing key *)
| Got (r : Response)          (* break *)
| Exhausted                   (* the else of the for loop *)
| Reraised (e : Exception).   (* raise other_err *)

(** The loop shared, line for line, by [analyst_node] and
    [critic_node]; [call] evaluates the [await litellm.acompletion(...)]
    expression with [calls] invocations made so far. *)
Fixpoint attempts (call : nat → Outcome * nat) (model : str) (n calls : nat)
    : attempts_end * nat :=
  match n with
  | O => (Exhausted, calls)
  | S k =>
      if missing_key model then (NoKey, calls)
      else
        match call calls with
        | (Returns r, calls) => (Got r, calls)
        | (Raises e, calls) =>
            if retryable e then attempts call model k calls
            else (Reraised e, calls)
        end
  end.

(** The call expression of the critic (and of the drafter): the
    service is invoked. *)
Definition remote_call (calls : nat) : Outcome * nat :=
  (acompletion env calls, S calls).

(** The call expression of the analyst: its [api_base] argument reads
    the name [provider], which is bound nowhere in [analyst_node] nor
    in the module, so the expression raises before the service is
    invoked. *)
Definition analyst_call (calls : nat) : Outcome * nat :=
  (Raises (mkExc NameError (s "name 'provider' is not defined")), calls).

Definition blank (x : str) : bool :=
  negb (truthy x) || (len (strip x) =? 0).

Definition analyst_node (st : BookState) (calls : nat)
    : (Exception + BookState) * nat :=
  let chunk := current_chunk st in
  if blank chunk then
    (inr (set_analysis (s "Error: Analyst received empty chunk.") st), calls)
  else
    let model := _select_model chunk in
    match attempts analyst_call model 5 calls with
    | (NoKey, calls) =>
        (inr (set_analysis (s "Error: Analyst failed - missing API key.") st), calls)
    | (Exhausted, calls) =>
        (inr (set_analysis
           (s "Error: Analyst failed to generate plan due to repeated network errors.") st),
         calls)
    | (Reraised _, calls) =>
        (inr (set_analysis
           (s "Error: Analyst failed to generate plan due to API error.") st), calls)
    | (Got Falsy, calls) =>
        (inr (set_analysis (s "Error: Analyst failed to generate plan.") st), calls)
    | (Got (Choices NoContent), calls) =>
        (inr (set_analysis (s "Error: Analyst response format invalid.") st), calls)
    | (Got (Choices (Content c)), calls) =>
        match c with
        | Some ((_ :: _) as a) => (inr (set_analysis a st), calls)
        | _ =>
            (inr (set_analysis (s "Error: Analyst returned empty content.") st), calls)
        end
    end.

(** The retry loop of the drafter.  The statements that read the
    response sit inside the [except Exception as other_err] block,
    behind its [continue] and [raise]; nothing assigns [expanded] a
    string, and after a call that returns the loop goes on to the next
    attempt.  An exception that is not sent to the back-off leaves
    [drafter_node]. *)
Fixpoint drafter_attempts (model : str) (n calls : nat)
    : (Exception + option str) * nat :=
  match n with
  | O => (inr None, calls)
  | S k =>
      if missing_key model then (inr None, calls)
      else
        match remote_call calls with
        | (Returns _, calls) => drafter_attempts model k calls
        | (Raises e, calls) =>
            if retryable e then drafter_attempts model k calls
            else (inl e, calls)
        end
  end.

Definition fence_markdown : str := s "```markdown".
Definition fence : str := s "```".

Definition drafter_node (st : BookState) (calls : nat)
    : (Exception + BookState) * nat :=
  let chunk := current_chunk st in
  let analysis := analysis st in
  if blank chunk then
    (inr (set_draft chunk (revision_count st + 1) st), calls)
  else if truthy analysis && startswith analysis (s "Error: Analyst") then
    (inr (set_draft chunk (revision_count st + 1) st), calls)
  else
    match drafter_attempts _get_model 3 calls with
    | (inl e, calls) => (inl e, calls)
    | (inr None, calls) =>
        (inr (set_draft chunk (revision_count st + 1) st), calls)
    | (inr (Some expanded), calls) =>
        let revision := revision_count st + 1 in
        let expanded := remove_all fence (remove_all fence_markdown expanded) in
        (inr (set_draft expanded revision st), calls)
    end.

Definition quote : ascii := ascii_of_nat 34.

Definition clean_ends : list str :=
  [ s "."; s "!"; s "?"; [quote]; s "'"; s "```"; s "}"; s "]"; s ")";
    s "_"; s "*" ].

Definition low_effort_rejection (n target : Z) : str :=
  s "LOW EFFORT: The expanded text is only " ++ fmt_commas n
  ++ s " characters long, which is below the strict requirement of "
  ++ fmt_commas target
  ++ s " characters. You MUST produce a much longer expansion. Go deeper: add more derivations, more mirror problems with randomized values, more [NEW_DIAGRAM: ...] tags. Do not summarize — DERIVE and EXPAND.".

Definition truncation_rejection : str :=
  s "TRUNCATION DETECTED: The text abruptly cuts off at the very end. You likely hit the maximum output token limit. You MUST rewrite the ending to ensure it finishes its thought cleanly with proper punctuation or closing tags like \end{equation}.".

Definition artifact_rejection : str :=
  s "ARTIFACT DETECTED: Remove ```markdown code fences from the output.".

(** The checks of [critic_node] that run before the service is
    called: [Some f] is the feedback returned without a call. *)
Definition local_verdict (st : BookState) : option str :=
  let expanded := expanded_chunk st in
  let original := current_chunk st in
  if blank expanded then Some (s "APPROVED")
  else if blank original then Some (s "APPROVED")
  else if len expanded <? target_chars st then
    Some (low_effort_rejection (len expanded) (target_chars st))
  else if truthy expanded
          && negb (existsb (endswith (strip expanded)) clean_ends) then
    Some truncation_rejection
  else if contains expanded fence_markdown
          || startswith (strip expanded) fence then
    Some artifact_rejection
  else None.

Definition critic_node (st : BookState) (calls : nat)
    : (Exception + BookState) * nat :=
  match local_verdict st with
  | Some f => (inr (set_feedback f st), calls)
  | None =>
      match attempts remote_call _get_model 5 calls with
      | (NoKey, calls) => (inr (set_feedback (s "APPROVED") st), calls)
      | (Exhausted, calls) => (inr (set_feedback (s "APPROVED") st), calls)
      | (Reraised _, calls) => (inr (set_feedback (s "APPROVED") st), calls)
      | (Got Falsy, calls) => (inr (set_feedback (s "APPROVED") st), calls)
      | (Got (Choices NoContent), calls) =>
          (inr (set_feedback (s "APPROVED") st), calls)
      | (Got (Choices (Content c)), calls) =>
          match c with
          | Some ((_ :: _) as content) =>
              (inr (set_feedback (strip content) st), calls)
          | _ => (inr (set_feedback (s "APPROVED") st), calls)
          end
      end
  end.

(** A response from which the critic reads no feedback: nothing
    usable came back, or the content is missing or empty. *)
Definition unusable (r : Response) : bool :=
  match r with
  | Choices (Content (Some (_ :: _))) => false
  | _ => true
  end.

(** The critic service fails, seen from invocation number [calls] with
    [n] attempts left: the key is missing; or the attempts are used up;
    or the invocation raises an error of the network kind and the
    service fails from the next attempt on; or it raises another
    error; or it returns an unusable response. *)
Inductive service_fails (model : str) : nat → nat → Prop :=
| fails_missing_key n calls :
    missing_key model = true → service_fails model (S n) calls
| fails_exhausted calls :
    service_fails model 0 calls
| fails_again n calls e :
    missing_key model = false →
    acompletion env calls = Raises e → retryable e = true →
    service_fails model n (S calls) →
    service_fails model (S n) calls
| fails_error n calls e :
    missing_key model = false →
    acompletion env calls = Raises e → retryable e = false →
    service_fails model (S n) calls
| fails_unusable n calls r :
    missing_key model = false →
    acompletion env calls = Returns r → unusable r = true →
    service_fails model (S n) calls.

End nodes.
End agents.

(** ** graph.py *)

Module graph.
Import py agents.
Local Open Scope Z_scope.

Definition MAX_REVISIONS : Z := 3.

Inductive node := analyst | drafter | critic.

(** The value returned by the router: [END] or the name of a node. *)
Inductive route := END | goto (n : node).

Definition approved (feedback : str) : bool :=
  startswith (upper feedback) (s "APPROVED").

Definition _should_revise (st : BookState) : route :=
  if approved (feedback st) then END
  else if MAX_REVISIONS <=? revision_count st then END
  else goto drafter.

(** The rule as the specification words it: a response is an approval
    exactly when it begins with the literal token. *)
Definition begins_with_token (response : str) : bool :=
  startswith response (s "APPROVED").

(** The default [recursion_limit] of a compiled graph: the number of
    supersteps after which the run raises [GraphRecursionError]. *)
Definition RECURSION_LIMIT : nat := 25.

(** One run of the compiled graph. *)
Record Run := mkRun {
  result : Exception + BookState;      (* raised, or the final state *)
  trace : list (node * BookState);     (* the nodes run, each with the state it left *)
  calls_after : nat
}.

Section build_graph.
Variable env : Env.

Definition node_fn (n : node) : BookState → nat → (Exception + BookState) * nat :=
  match n with
  | analyst => analyst_node env
  | drafter => drafter_node env
  | critic => critic_node env
  end.

(** The edges: analyst to drafter, drafter to critic, and the
    conditional edge out of the critic. *)
Definition edge (n : node) (st : BookState) : route :=
  match n with
  | analyst => goto drafter
  | drafter => goto critic
  | critic => _should_revise st
  end.

Fixpoint supersteps (fuel : nat) (n : node) (st : BookState) (calls : nat) : Run :=
  match fuel with
  | O =>
      mkRun (inl (mkExc GraphRecursionError (s "Recursion limit reached"))) [] calls
  | S fuel =>
      match node_fn n st calls with
      | (inl e, calls) => mkRun (inl e) [] calls
      | (inr st, calls) =>
          match edge n st with
          | END => mkRun (inr st) [(n, st)] calls
          | goto n' =>
              let r := supersteps fuel n' st calls in
              mkRun (result r) ((n, st) :: trace r) (calls_after r)
          end
      end
  end.

(** [graph.ainvoke(initial_state, config)]: the entry edge leads to the
    analyst. *)
Definition ainvoke (initial_state : BookState) (calls : nat) : Run :=
  supersteps RECURSION_LIMIT analyst initial_state calls.

End build_graph.

(** The states left by the drafter, oldest first. *)
Definition drafts (tr : list (node * BookState)) : list BookState :=
  omap (λ e, match fst e with drafter => Some (snd e) | _ => None end) tr.

(** No review in the trace approved. *)
Definition every_review_rejects (tr : list (node * BookState)) : bool :=
  forallb (λ e, match fst e with
                | critic => negb (approved (feedback (snd e)))
                | _ => true
                end) tr.

End graph.

(** ** main.py: the phase-2 scheduler *)

Module scheduler.
Import py agents.
Local Open Scope Z_scope.

(** A line appended to [dlq_failed_chunks.jsonl]. *)
Record DlqLine := mkLine { chunk_index : Z; reason : str; content : str }.

(** What phase 2 reads and writes: the files
    [expanded_chunks/chunk_{i:04d}.md] by unit index, the failure log,
    and the number of invocations of the generation service so far.
    [read_text] gives back what [write_text] stored. *)
Record World := mkWorld {
  chunk_files : gmap nat str;
  dlq_failed_chunks : list DlqLine;
  remote_calls : nat
}.

Definition log_failure (l : DlqLine) (w : World) : World :=
  mkWorld (chunk_files w) (dlq_failed_chunks w ++ [l]) (remote_calls w).

Definition write_chunk (i : nat) (text : str) (w : World) : World :=
  mkWorld (<[i := text]> (chunk_files w)) (dlq_failed_chunks w) (remote_calls w).

Definition set_calls (n : nat) (w : World) : World :=
  mkWorld (chunk_files w) (dlq_failed_chunks w) n.

Section phase_2.
Variable env : Env.
Variable total : nat.          (* len(chunks) *)

Definition target_for (chunk : str) : Z :=
  let target_pages := TARGET_PAGES env in
  let chars_per_page := 3000 in
  let target_chars :=
    Z.max (Z.quot (target_pages * chars_per_page) (Z.of_nat total)) (len chunk * 4) in
  Z.min target_chars 22000.

Definition initial_state (chunk : str) : BookState :=
  mkState chunk [] [] [] 0 (target_for chunk).

(** The part of [process_chunk] inside [async with sem], up to the
    write of the checkpoint: the text kept for the unit. *)
Definition expand_chunk (i : nat) (chunk : str) (w : World) : str * World :=
  if blank chunk then (chunk, w)
  else
    let r := graph.ainvoke env (initial_state chunk) (remote_calls w) in
    let w := set_calls (graph.calls_after r) w in
    match graph.result r with
    | inr result =>
        let expanded :=
          or_else (expanded_chunk result) (or_else (current_chunk result) chunk) in
        if blank expanded then
          (chunk, log_failure (mkLine (Z.of_nat i + 1) (s "empty_expansion") chunk) w)
        else if bool_decide (expanded = chunk) then
          (expanded,
           log_failure (mkLine (Z.of_nat i + 1) (s "unchanged_expansion") chunk) w)
        else (expanded, w)
    | inl e =>
        (chunk, log_failure (mkLine (Z.of_nat i + 1) (exc_str e) chunk) w)
    end.

Definition process_chunk (i : nat) (chunk : str) (w : World) : str * World :=
  match chunk_files w !! i with
  | Some text => (text, w)
  | None =>
      let '(expanded, w) := expand_chunk i chunk w in
      (expanded, write_chunk i expanded w)
  end.

(** [asyncio.gather] over the tasks of [enumerate(chunks)], from index
    [i] on.  The tasks are run one after the other in index order; a
    task reads and writes no checkpoint file but its own. *)
Fixpoint gather (i : nat) (chunks : list str) (w : World) : list str * World :=
  match chunks with
  | [] => ([], w)
  | chunk :: rest =>
      let '(r, w) := process_chunk i chunk w in
      let '(rs, w) := gather (S i) rest w in
      (r :: rs, w)
  end.

End phase_2.

Definition run_phase_2 (env : Env) (chunks : list str) (w : World) : list str * World :=
  gather env (length chunks) 0 chunks w.

End scheduler.

(** ** main.py: checkpoint file, command line, phase gates *)

Module pipeline.
Local Open Scope Z_scope.

(** [pipeline_state.json] as [load_state] finds it. *)
Inductive StateFile :=
| Absent
| Corrupt                                (* json.JSONDecodeError *)
| Stored (completed_phase : option Z).   (* a JSON object, with or without the key *)

(** [load_state()], then [.get("completed_phase", 0)]. *)
Definition load_state (f : StateFile) : option Z :=
  match f with
  | Stored k => k
  | Absent | Corrupt => Some 0
  end.

Definition completed_phase (f : StateFile) : Z := default 0 (load_state f).

(** [save_state(phase, ...)] overwrites the file. *)
Definition save_state (phase : Z) (f : StateFile) : StateFile := Stored (Some phase).

(** What a run does, in order. *)
Inductive action :=
| Purge                 (* the wipe of the output directory *)
| Work (phase : Z)      (* the body of a phase *)
| Save (phase : Z).     (* save_state(phase, ...) *)

(** The conditions [main] tests before it returns early. *)
Record Host := mkHost {
  pdf_path_given : bool;       (* pdf_path is not empty *)
  manuscript_present : bool;   (* tagged_manuscript.txt exists when phase 2 starts *)
  key_present : bool;          (* not (a gemini model with no API key) *)
  expanded_present : bool;     (* expanded_draft.md exists when phase 3 starts *)
  renderable_present : bool;   (* resolved or expanded manuscript exists *)
  template_present : bool      (* templates/bookeducate.typ exists *)
}.

(** A block of [main]: [inl] when it executed [return], [inr] when
    control falls through to the next statement. *)
Definition flow : Type := list action + list action.

Definition phase_1 (h : Host) (start_phase : Z) (log : list action) : flow :=
  if start_phase <=? 1 then
    if negb (pdf_path_given h) then inl log
    else inr (log ++ [Work 1; Save 1])
  else inr log.

Definition phase_2 (h : Host) (start_phase : Z) (log : list action) : flow :=
  if start_phase <=? 2 then
    if negb (manuscript_present h) then inl log
    else if negb (key_present h) then inl log
    else inr (log ++ [Work 2; Save 2])
  else inr log.

Definition phase_3 (h : Host) (start_phase : Z) (log : list action) : flow :=
  if start_phase <=? 3 then
    if expanded_present h then inr (log ++ [Work 3; Save 3])
    else inl log
  else inr log.

(** Phase 4: the test [start_phase <= 4] guards the banner only; the
    statements of the phase follow it at function level. *)
Definition phase_4 (h : Host) (start_phase : Z) (log : list action) : flow :=
  if negb (renderable_present h) then inl log
  else if negb (template_present h) then inl (log ++ [Work 4])
  else inr (log ++ [Work 4; Save 4]).

Definition then_ (f : flow) (next : list action → flow) : flow :=
  match f with
  | inl log => inl log
  | inr log => next log
  end.

(** What was done when the function is left, either way. *)
Definition out (f : flow) : list action :=
  match f with inl log | inr log => log end.

Definition main (h : Host) (start_phase : Z) (is_resume : bool) : list action :=
  let log := if (start_phase =? 1) && negb is_resume then [Purge] else [] in
  out (then_ (then_ (then_ (phase_1 h start_phase log) (phase_2 h start_phase))
                    (phase_3 h start_phase)) (phase_4 h start_phase)).

(** The parsed command line. *)
Record Args := mkArgs {
  pdf_input_exists : bool;     (* pdf_input is given and the file exists *)
  resume : bool;               (* --resume *)
  phase : option Z;            (* --phase, one of 1 2 3 4 *)
  is_resume_flag : bool        (* --is-resume *)
}.

Inductive exit := AlreadyComplete | FileNotFound | Finished.

Definition start_phase_of (a : Args) (f : StateFile) : Z :=
  if resume a then completed_phase f + 1
  else match phase a with
       | Some p => if p =? 0 then 1 else p
       | None => 1
       end.

(** The [__main__] block: how the process ends and what it did. *)
Definition cli (a : Args) (f : StateFile) (h : Host) : exit * list action :=
  let start_phase := start_phase_of a f in
  if resume a && (4 <? start_phase) then (AlreadyComplete, [])
  else if (start_phase <=? 1) && negb (pdf_input_exists a) then (FileNotFound, [])
  else (Finished, main h start_phase (is_resume_flag a || resume a)).

End pipeline.

(** ** main.py: the purge of a fresh run *)

Module purge.

Abbreviation path := (list string).

(** What a path is: a regular file, a directory, or something that is
    neither (a socket, a FIFO, a dangling link). *)
Inductive kind := file | dir | special.

Inductive error := OSError | NotADirectoryError | FileExistsError.

(** The file system.  [entries] is the kind of every existing path;
    paths are absolute and resolved.  [denied] is what the system
    refuses to delete (permissions, a file in use): [denied p] is
    [Some kept] when [p.unlink()] or [shutil.rmtree(p)] raises, and
    [kept] then holds the paths below [p] that [rmtree] had not yet
    removed when it raised.  Directories can be listed. *)
Record FS := mkFS {
  entries : gmap path kind;
  denied : path → option (gset path)
}.

#[export] Instance fs_lookup : Lookup path kind FS := λ p fs, entries fs !! p.

Definition set_entries (m : gmap path kind) (fs : FS) : FS := mkFS m (denied fs).

Definition is_child (d p : path) : bool :=
  bool_decide (length p = S (length d) ∧ take (length d) p = d).

(** [d.iterdir()] on a directory. *)
Definition iterdir (d : path) (fs : FS) : list path :=
  List.filter (is_child d) (map fst (map_to_list (entries fs))).

(** [p.unlink()]: the exception raised, if any, and the file system
    then. *)
Definition unlink (p : path) (fs : FS) : option error * FS :=
  match denied fs p with
  | Some _ => (Some OSError, fs)
  | None => (None, set_entries (delete p (entries fs)) fs)
  end.

(** [shutil.rmtree(p)]: [p] and everything below it; when it raises,
    [p] and the paths of [kept] are still there. *)
Definition rmtree (p : path) (fs : FS) : option error * FS :=
  match denied fs p with
  | Some kept =>
      (Some OSError,
       set_entries
         (filter (λ e, ¬ p `prefix_of` fst e ∨ fst e = p ∨ fst e ∈ kept) (entries fs))
         fs)
  | None =>
      (None, set_entries (filter (λ e, ¬ p `prefix_of` fst e) (entries fs)) fs)
  end.

(** The [try] of both loops with its [except Exception], which prints a
    warning and goes on to the next item: a deletion that raises leaves
    the item, and an item that is neither a file nor a directory is left
    alone. *)
Definition remove_item (item : path) (fs : FS) : FS :=
  match fs !! item with
  | Some file => snd (unlink item fs)
  | Some dir => snd (rmtree item fs)
  | Some special => fs
  | None => fs
  end.

(** The nested [clear_with_exceptions] of [main].  The [for] statement
    is outside the [try]: when [dir_path] exists and is not a directory,
    [iterdir] raises and the exception leaves the function. *)
Definition clear_with_exceptions (dir_path : path) (exceptions : list (option path))
    (fs : FS) : option error * FS :=
  match fs !! dir_path with
  | None => (None, fs)
  | Some dir =>
      let abs_exceptions := omap id exceptions in
      (None,
       foldl (λ fs item,
                if bool_decide (item ∈ abs_exceptions) then fs
                else remove_item item fs)
             fs (iterdir dir_path fs))
  | Some _ => (Some NotADirectoryError, fs)
  end.

Definition clear_directory (directory : path) (keep_file : option path) (fs : FS)
    : option error * FS :=
  match fs !! directory with
  | None => (None, fs)
  | Some dir =>
      (None,
       foldl (λ fs item,
                if bool_decide (keep_file = Some item) then fs
                else remove_item item fs)
             fs (iterdir directory fs))
  | Some _ => (Some NotADirectoryError, fs)
  end.

(** [d.mkdir(parents=True, exist_ok=True)], from the topmost missing
    parent down over the prefixes of [d] of the lengths [ns]: a prefix
    that exists and is not a directory makes it raise. *)
Fixpoint mkdir_from (ns : list nat) (d : path) (fs : FS) : option error * FS :=
  match ns with
  | [] => (None, fs)
  | n :: ns =>
      match fs !! take n d with
      | Some dir => mkdir_from ns d fs
      | Some _ =>
          (Some (if (n =? length d)%nat then FileExistsError else NotADirectoryError), fs)
      | None => mkdir_from ns d (set_entries (<[take n d := dir]> (entries fs)) fs)
      end
  end.

Definition mkdir_p (d : path) (fs : FS) : option error * FS :=
  mkdir_from (seq 1 (length d)) d fs.

Section fresh_run.
Variable BASE_DIR : path.

Definition OUTPUT_DIR : path := BASE_DIR ++ ["data"; "output"]%string.
Definition jobs_json : path := OUTPUT_DIR ++ ["jobs.json"%string].
Definition chroma_db : path := BASE_DIR ++ ["data"; "chroma_db"]%string.

(** The branch [start_phase == 1 and not is_resume] of [main]: the
    exception that leaves it, if any, and the file system then. *)
Definition fresh_run_branch (pdf_path : option path) (fs : FS) : option error * FS :=
  let input_file_path := pdf_path in
  let to_preserve := [input_file_path; Some jobs_json] in
  match clear_with_exceptions OUTPUT_DIR to_preserve fs with
  | (Some e, fs) => (Some e, fs)
  | (None, fs) =>
      match clear_directory chroma_db None fs with
      | (Some e, fs) => (Some e, fs)
      | (None, fs) => mkdir_p OUTPUT_DIR fs
      end
  end.

(** The file system when the branch is left, normally or not. *)
Definition purge_fresh_run (pdf_path : option path) (fs : FS) : FS :=
  snd (fresh_run_branch pdf_path fs).

End fresh_run.

End purge.

(** ** server/sse_manager.py *)

Module sse_manager.
Import py.

(** An event: the [status] entry of the dict, and the rest of it. *)
Record Event := mkEvent { status : option str; payload : str }.

(** An [asyncio.Queue]; [qid] stands for the identity of the object,
    [maxsize = 0] means unbounded. *)
Record Queue := mkQueue { qid : nat; maxsize : nat; items : list Event }.

Inductive error := QueueFull | TypeError.

Definition full (q : Queue) : bool :=
  if (maxsize q =? 0)%nat then false else (maxsize q <=? length (items q))%nat.

(** [q.put_nowait(event)]: raises on a full queue, else stores the
    event and returns [None]. *)
Definition put_nowait (q : Queue) (event : Event) : error + Queue :=
  if full q then inl QueueFull
  else inr (mkQueue (qid q) (maxsize q) (items q ++ [event])).

(** [self._queues]: job id to the queues of its subscribers, in the
    order they subscribed. *)
Abbreviation Queues := (gmap string (list Queue)).

(** The first statements of [subscribe]: a queue of capacity 100 is
    registered. *)
Definition subscribe_enter (fresh : nat) (job_id : string) (qs : Queues) : Queues :=
  let q := mkQueue fresh 100 [] in
  <[job_id := default [] (qs !! job_id) ++ [q]]> qs.

(** The [finally] of [subscribe]. *)
Definition subscribe_exit (id : nat) (job_id : string) (qs : Queues) : Queues :=
  <[job_id := List.filter (λ q, negb (qid q =? id)%nat) (default [] (qs !! job_id))]> qs.

(** The loop of [publish] over a copy of the list.  The statement is
    [await q.put_nowait(event)]: when [put_nowait] raises [QueueFull]
    the handler passes; when it returns, its value [None] is awaited,
    which raises [TypeError], caught by nothing in [publish]. *)
Fixpoint publish_loop (subscribers : list Queue) (event : Event)
    : list Queue * option error :=
  match subscribers with
  | [] => ([], None)
  | q :: rest =>
      match put_nowait q event with
      | inl QueueFull =>
          let '(rest, r) := publish_loop rest event in (q :: rest, r)
      | inl e => (q :: rest, Some e)
      | inr q' => (q' :: rest, Some TypeError)
      end
  end.

(** [publish(job_id, event)]: the queues afterwards, and the exception
    that left the coroutine, if any. *)
Definition publish (job_id : string) (event : Event) (qs : Queues)
    : Queues * option error :=
  match qs !! job_id with
  | None => (qs, None)
  | Some subscribers =>
      let '(subscribers, r) := publish_loop subscribers event in
      (<[job_id := subscribers]> qs, r)
  end.

End sse_manager.

(** ** dlq.py *)

Module dlq.
Import py.
Local Open Scope Z_scope.

(** A row of [failed_chunks]. *)
Record Row := mkRow {
  id : str;
  phase : Z;
  chunk_text : str;
  error_msg : str;
  retry_count : Z;
  status : str;
  created_at : str;
  updated_at : str
}.

(** The table, in row order.  [id] is the primary key. *)
Abbreviation Table := (list Row).

(** An item of the list [get_all] returns. *)
Record Item := mkItem {
  item_id : str; item_phase : Z; item_text : str; item_error : str; item_retries : Z
}.

Inductive error := OverflowError.

(** The integers SQLite stores: signed, of 64 bits. *)
Definition fits_int64 (n : Z) : bool := (- 2 ^ 63 <=? n) && (n <? 2 ^ 63).

(** [push]: INSERT OR REPLACE drops the row with the same key, if any,
    and adds the new row; [now] is the time stamp.  Binding a [phase]
    that SQLite cannot store makes [execute] raise before anything is
    written. *)
Definition push (now chunk_id chunk_text error_msg : str) (phase : Z) (t : Table)
    : error + Table :=
  if fits_int64 phase then
    inr (List.filter (λ r, negb (bool_decide (id r = chunk_id))) t
         ++ [mkRow chunk_id phase chunk_text (take 500 error_msg) 0 (s "pending") now now])
  else inl OverflowError.

Definition get_all (status_ : str) (t : Table) : list Item :=
  map (λ r, mkItem (id r) (phase r) (chunk_text r) (error_msg r) (retry_count r))
      (List.filter (λ r, bool_decide (status r = status_)) t).

Definition mark_resolved (now chunk_id : str) (t : Table) : Table :=
  map (λ r, if bool_decide (id r = chunk_id)
            then mkRow (id r) (phase r) (chunk_text r) (error_msg r) (retry_count r)
                       (s "resolved") (created_at r) now
            else r) t.

(** One call of the processor: it raises, or returns a value that is
    or is not a success ([result and "error" not in result]). *)
Inductive processed := raised | returned (success : bool).

(** The inner loop [for attempt in range(max_retries)] for one item:
    [Some t] when the item was resolved. *)
Fixpoint retry_item (processor_fn : str → nat → processed) (now : str) (item : Item)
    (attempt remaining : nat) (t : Table) : option Table :=
  match remaining with
  | O => None
  | S k =>
      match processor_fn (item_text item) attempt with
      | returned true => Some (mark_resolved now (item_id item) t)
      | _ => retry_item processor_fn now item (S attempt) k t
      end
  end.

(** [retry_all]: the table afterwards and the number recovered. *)
Definition retry_all (processor_fn : str → nat → processed) (now : str)
    (max_retries : nat) (t : Table) : Table * Z :=
  foldl (λ acc item,
           match retry_item processor_fn now item 0 max_retries (fst acc) with
           | Some t' => (t', snd acc + 1)
           | None => acc
           end)
        (t, 0) (get_all (s "pending") t).

(** A call on the queue that may change the table. *)
Inductive call :=
| Push (now chunk_id chunk_text error_msg : str) (phase : Z)
| MarkResolved (now chunk_id : str)
| RetryAll (processor_fn : str → nat → processed) (now : str) (max_retries : nat).

(** The table after a call, whether it returned or raised. *)
Definition run_call (c : call) (t : Table) : Table :=
  match c with
  | Push now i x e p =>
      match push now i x e p t with
      | inr t' => t'
      | inl _ => t
      end
  | MarkResolved now i => mark_resolved now i t
  | RetryAll f now n => fst (retry_all f now n t)
  end.

Definition run_calls (cs : list call) (t : Table) : Table :=
  foldl (λ t c, run_call c t) t cs.

(** The call writes a fresh pending row under [chunk_id]. *)
Definition pushes (chunk_id : str) (c : call) : bool :=
  match c with
  | Push _ i _ _ _ => bool_decide (i = chunk_id)
  | _ => false
  end.

End dlq.

(** ** Invariants and sample inputs *)

Module invariants.
Import py.

(** An action of phase [j]. *)
Definition of_phase (j : Z) (x : pipeline.action) : Prop :=
  x = pipeline.Work j ∨ x = pipeline.Save j.

(** Every row stored under [i] is resolved. *)
Definition settled (i : str) (t : dlq.Table) : Prop :=
  ∀ r, r ∈ t → dlq.id r = i → dlq.status r = s "resolved".

(** The results are checkpointed from index [i] on. *)
Definition checkpointed (i : nat) (rs : list str) (w : scheduler.World) : Prop :=
  ∀ k r, rs !! k = Some r → scheduler.chunk_files w !! (i + k) = Some r.

(** Every chunk is within the limit. *)
Definition fits (max_chars : nat) (chunks : list str) : Prop :=
  Forall (λ u, length u ≤ max_chars) chunks.

(** What [current_len] stands for in the loop over paragraphs. *)
Definition packed (max_chars : nat) (current : list str) (current_len : nat) : Prop :=
  match current with
  | [] => current_len = 0
  | _ :: _ =>
      current_len = length (join chunker.blank2 current) + 2
      ∧ length (join chunker.blank2 current) ≤ max_chars
  end.

End invariants.

Module samples.
Import py.

Section resume.
Import pipeline.
Definition resume_demo_args : Args := mkArgs false true None false.
Definition resume_demo_host : Host := mkHost false true true true true true.
End resume.

Section broker.
Import sse_manager.
Definition progress_event : Event := mkEvent (Some (s "processing")) (s "42").
Definition first_client : Queue := mkQueue 1 100 [].
Definition second_client : Queue := mkQueue 2 100 [].
End broker.

Section dead_letters.
Import dlq.
Local Open Scope Z_scope.

Definition demo_table : Table :=
  run_calls [ Push (s "t0") (s "chunk_42") (s "forty-two") (s "rate limit") 4;
              Push (s "t1") (s "chunk_7") (s "seven") (s "timeout") 2 ] [].

Definition demo_calls : list call :=
  [ Push (s "t3") (s "chunk_9") (s "nine") (s "boom") 4;
    RetryAll (λ _ _, returned false) (s "t4") 3;
    MarkResolved (s "t5") (s "chunk_9") ].
End dead_letters.

Section files.
Import purge.

Definition demo_base : path := ["srv"; "app"]%string.
Definition nested_input : path :=
  OUTPUT_DIR demo_base ++ ["uploads"; "book.pdf"]%string.

(** Nothing is refused in this file system. *)
Definition demo_fs : FS :=
  mkFS
    (list_to_map
       [ (demo_base ++ ["data"%string], dir);
         (OUTPUT_DIR demo_base, dir);
         (OUTPUT_DIR demo_base ++ ["uploads"%string], dir);
         (nested_input, file);
         (jobs_json demo_base, file);
         (OUTPUT_DIR demo_base ++ ["expanded_draft.md"%string], file) ])
    (λ _, None).
End files.

Section units.
Import agents scheduler.
Local Open Scope Z_scope.

(** A service that always answers with a request for more. *)
Definition demanding_env : Env :=
  mkEnv None None None None true 600
        (λ _, Returns (Choices (Content (Some (s "Needs more depth."))))).

Definition short_unit : BookState :=
  mkState (s "Heat flows from hot to cold.") [] [] [] 0 22000.

(** A service that is unreachable. *)
Definition offline_env : Env :=
  mkEnv None None None None true 600
        (λ _, Raises (mkExc APIConnectionError (s "Connection refused"))).

(** A draft that passes the local checks. *)
Definition passing_draft : BookState :=
  mkState (s "Heat flows.") [] (s "Heat flows from hot bodies to cold ones.") [] 1 20.

(** A critic that approves in lower case. *)
Definition lenient_env : Env :=
  mkEnv None None None None true 600
        (λ _, Returns (Choices (Content (Some (s "approved. Good work."))))).

Definition two_units : list str := [s "Heat flows."; s "Work is done."].

(** The first unit was checkpointed by an earlier run, which made
    seven remote calls. *)
Definition restarted_world : World :=
  mkWorld {[ 0%nat := s "Stored text of unit one." ]} [] 7.
End units.

(** The example of the specification. *)
Definition two_chapters : str :=
  s "Chapter 1" ++ [nl] ++ s "A." ++ [nl; nl] ++ s "Chapter 2" ++ [nl] ++ s "B.".

(** A unit that opens with a blank line, followed by a paragraph of
    [n] characters. *)
Definition blank_then_full (n : nat) : str := [nl; nl] ++ repeat "x"%char n.

(** Two chapters; the first has a long paragraph, two blank lines, and
    a paragraph as long as the limit of 20. *)
Definition spaced_chapter : str :=
  s "Chapter 1" ++ [nl] ++ s "Alpha beta gamma delta epsilon." ++ [nl; nl; nl; nl]
  ++ s "Zeta eta theta iota." ++ [nl; nl] ++ s "Chapter 2" ++ [nl] ++ s "B.".

End samples.

(** ** Further definitions *)

Module checkpoints.
Import pipeline.

(** The checkpoint file after the actions of a run: every [Save]
    overwrites it. *)
Definition state_after (log : list action) (f : StateFile) : StateFile :=
  foldl (λ f a, match a with Save k => save_state k f | _ => f end) f log.



End checkpoints.

Module tree.
Import purge.

(** [p] lies strictly below the directory [d]. *)
Definition below (d p : path) : Prop := ∃ name rest, p = d ++ name :: rest.

End tree.

(** ** server/jobs.py *)

Module jobs.
Import py.
Local Open Scope Z_scope.

(** An entry of [log_lines]. *)
Record LogEntry := mkEntry {
  timestamp : str; level : str; source : str; message : str
}.

(** [Job], with the fields the methods below read or write. *)
Record Job := mkJob {
  job_id : string;
  status : str;
  current_phase : Z;
  job_message : str;
  is_recoverable : bool;
  resume_phase : option Z;
  log_lines : list LogEntry
}.

(** [self._jobs] *)
Abbreviation Jobs := (gmap string Job).

Definition set_log_lines (lines : list LogEntry) (job : Job) : Job :=
  mkJob (job_id job) (status job) (current_phase job) (job_message job)
        (is_recoverable job) (resume_phase job) lines.

(** [x[-n:]] for a positive [n]. *)
Definition last_n {A} (n : nat) (x : list A) : list A := drop (length x - n) x.

(** [append_log]; [now] is the time stamp.  An unknown job id is
    ignored. *)
Definition append_log (now : str) (id : string) (message level source : str)
    (store : Jobs) : Jobs :=
  match store !! id with
  | Some job =>
      let lines := log_lines job ++ [mkEntry now level source message] in
      let lines := if (500 <? length lines)%nat then last_n 500 lines else lines in
      <[id := set_log_lines lines job]> store
  | None => store
  end.

(** Calls of [append_log] for one job, one for each entry. *)
Definition append_logs (id : string) (entries : list LogEntry) (store : Jobs) : Jobs :=
  foldl (λ store e, append_log (timestamp e) id (message e) (level e) (source e) store)
        store entries.

End jobs.

Module shape.
Import py.

(** [p] is not empty and has no white space at either end. *)
Definition trimmed (p : str) : Prop :=
  ∃ c d, head p = Some c ∧ last p = Some d ∧ isspace c = false ∧ isspace d = false.

End shape.

(** Inputs of the examples of the further properties. *)
Module cases.
Import py.

Section units.
Import agents scheduler.
Local Open Scope Z_scope.

(** The unit of [short_unit] after its first draft. *)
Definition short_draft : BookState :=
  mkState (s "Heat flows from hot to cold.") []
          (s "Heat flows from hot to cold.") [] 1 22000.

(** A unit as long as its target: its unchanged draft passes the local
    checks of the review. *)
Definition full_length_unit : BookState :=
  mkState (s "Heat flows from hot bodies to cold ones.") [] [] [] 0 20.

(** A draft of white space. *)
Definition blank_draft : BookState :=
  mkState (s "Heat flows.") [] (s "  ") [] 1 20.

Definition fresh_world : World := mkWorld ∅ [] 0.
End units.

Section command_lines.
Import pipeline.
Local Open Scope Z_scope.

(** [main.py book.pdf] *)
Definition fresh_args : Args := mkArgs true false None false.

(** [main.py book.pdf --phase 3] *)
Definition jump_args : Args := mkArgs true false (Some 3) false.

Definition full_host : Host := mkHost true true true true true true.
End command_lines.

Section files.
Import purge samples.

(** The file system of [demo_fs] in which the draft cannot be deleted. *)
Definition locked_fs : FS :=
  mkFS (entries demo_fs)
       (λ p, if bool_decide (p = OUTPUT_DIR demo_base ++ ["expanded_draft.md"%string])
             then Some ∅ else None).

(** A file system in which the output path is a regular file. *)
Definition blocked_fs : FS :=
  mkFS (list_to_map [ (demo_base ++ ["data"%string], dir); (OUTPUT_DIR demo_base, file) ])
       (λ _, None).
End files.

Section broker.
Import sse_manager samples.

(** A subscriber of capacity 1 that has not read its event. *)
Definition slow_client : Queue := mkQueue 1 1 [progress_event].

Definition slow_queues : Queues := {[ "job-1"%string := [slow_client] ]}.
End broker.

Section dead_letters.
Import dlq.

Definition always_ok : str → nat → processed := λ _ _, returned true.
Definition always_raises : str → nat → processed := λ _ _, raised.
End dead_letters.

Section logs.
Import jobs.
Local Open Scope Z_scope.

Definition demo_job : Job :=
  mkJob "ab12cd34" (s "processing") 2 [] false None
        [mkEntry (s "t0") (s "INFO") (s "Engine") (s "Phase 2 started")].

Definition demo_store : Jobs := {[ "ab12cd34"%string := demo_job ]}.

Definition demo_entries : list LogEntry :=
  [ mkEntry (s "t1") (s "INFO") (s "Engine") (s "Chunk 1 done");
    mkEntry (s "t2") (s "WARN") (s "Engine") (s "Chunk 2 unchanged") ].
End logs.

End cases.

(** * Properties *)

(** ** Phase checkpoint and resume *)

Section resume_facts.
Import pipeline invariants samples.
Local Open Scope Z_scope.

Ltac in_log :=
  repeat match goal with
    | H : _ ∈ _ ++ _ |- _ => apply elem_of_app in H as [H | H]
    | H : _ ∈ _ :: _ |- _ => apply elem_of_cons in H as [-> | H]
    | H : _ ∈ [] |- _ => by apply elem_of_nil in H
    end.

Lemma phase_1_out h sp log x :
  x ∈ out (phase_1 h sp log) → x ∈ log ∨ (sp ≤ 1 ∧ of_phase 1 x).
Proof.
  unfold phase_1, of_phase.
  destruct (Z.leb_spec sp 1), (pdf_path_given h); simpl; intros Hx; in_log; auto.
Qed.

Lemma phase_2_out h sp log x :
  x ∈ out (phase_2 h sp log) → x ∈ log ∨ (sp ≤ 2 ∧ of_phase 2 x).
Proof.
  unfold phase_2, of_phase.
  destruct (Z.leb_spec sp 2), (manuscript_present h), (key_present h); simpl;
    intros Hx; in_log; auto.
Qed.

Lemma phase_3_out h sp log x :
  x ∈ out (phase_3 h sp log) → x ∈ log ∨ (sp ≤ 3 ∧ of_phase 3 x).
Proof.
  unfold phase_3, of_phase.
  destruct (Z.leb_spec sp 3), (expanded_present h); simpl; intros Hx; in_log; auto.
Qed.

Lemma phase_4_out h sp log x :
  x ∈ out (phase_4 h sp log) → x ∈ log ∨ of_phase 4 x.
Proof.
  unfold phase_4, of_phase.
  destruct (renderable_present h), (template_present h); simpl;
    intros Hx; in_log; auto.
Qed.

Lemma then_out (f : flow) (next : list action → flow) (P : action → Prop) x :
  (∀ log y, y ∈ out (next log) → y ∈ log ∨ P y) →
  x ∈ out (then_ f next) → x ∈ out f ∨ P x.
Proof. intros Hnext. destruct f as [log | log]; simpl; [auto | apply Hnext]. Qed.

(** Every action of [main] is the purge of a fresh run at phase 1, or
    belongs to a phase that the gate [start_phase <= j] lets through,
    or to phase 4. *)
Lemma main_log h sp is_resume x :
  x ∈ main h sp is_resume →
  (x = Purge ∧ sp = 1 ∧ is_resume = false)
  ∨ (∃ j, of_phase j x ∧ 1 ≤ j ≤ 4 ∧ (sp ≤ j ∨ j = 4)).
Proof.
  unfold main.
  set (log0 := if (sp =? 1) && negb is_resume then [Purge] else []).
  assert (H0 : ∀ y, y ∈ log0 → y = Purge ∧ sp = 1 ∧ is_resume = false).
  { subst log0. intros y Hy.
    destruct (Z.eqb_spec sp 1), is_resume; simpl in Hy; in_log; auto. }
  intros Hx.
  apply (then_out _ _ (of_phase 4)) in Hx as [Hx | Hx];
    [| right; exists 4; split; [done | lia] | intros ??; by apply phase_4_out].
  apply (then_out _ _ (λ y, sp ≤ 3 ∧ of_phase 3 y)) in Hx as [Hx | [? Hx]];
    [| right; exists 3; split; [done | lia] | intros ??; by apply phase_3_out].
  apply (then_out _ _ (λ y, sp ≤ 2 ∧ of_phase 2 y)) in Hx as [Hx | [? Hx]];
    [| right; exists 2; split; [done | lia] | intros ??; by apply phase_2_out].
  apply phase_1_out in Hx as [Hx | [? Hx]]; [left; auto|].
  right; exists 1; split; [done | lia].
Qed.

(** C3.  A run started with [--resume] takes [start_phase] to be the
    completed phase of the checkpoint plus one.  When that exceeds 4 the
    process reports that the pipeline is complete and does nothing.
    Otherwise, for a checkpoint at phase [k], the run neither purges nor
    executes or re-saves any phase [j] with [1 <= j <= k]. *)
Theorem resume_skips_completed_phases (a : Args) (f : StateFile) (h : Host) :
  resume a = true →
  start_phase_of a f = completed_phase f + 1
  ∧ (4 < start_phase_of a f → cli a f h = (AlreadyComplete, []))
  ∧ (start_phase_of a f ≤ 4 →
     (Purge ∉ snd (cli a f h))
     ∧ ∀ j, 1 ≤ j ≤ completed_phase f →
            (Work j ∉ snd (cli a f h)) ∧ (Save j ∉ snd (cli a f h))).
Proof.
  intros Hres.
  assert (Hsp : start_phase_of a f = completed_phase f + 1).
  { unfold start_phase_of. by rewrite Hres. }
  split; [done|]. split.
  - intros Hgt. unfold cli. rewrite Hres. simpl.
    destruct (Z.ltb_spec 4 (start_phase_of a f)); [done|lia].
  - intros Hle. unfold cli. rewrite Hres. simpl.
    destruct (Z.ltb_spec 4 (start_phase_of a f)); [lia|].
    destruct ((start_phase_of a f <=? 1) && negb (pdf_input_exists a)); simpl.
    { split; [apply not_elem_of_nil|]. intros; split; apply not_elem_of_nil. }
    rewrite orb_true_r. split.
    + intros Hin. apply main_log in Hin as [(_ & _ & ?) | (j & [?|?] & _)]; done.
    + intros j Hj. split; intros Hin;
        apply main_log in Hin as [(? & _) | (j' & Hx & Hj' & Hgate)]; try done;
        destruct Hx as [Hx | Hx]; try done; inversion Hx; subst j'; lia.
Qed.

Lemma resume_skips_completed_phases_witness :
  start_phase_of resume_demo_args (Stored (Some 2)) = 3
  ∧ snd (cli resume_demo_args (Stored (Some 2)) resume_demo_host)
    = [Work 3; Save 3; Work 4; Save 4]
  ∧ Work 2 ∉ snd (cli resume_demo_args (Stored (Some 2)) resume_demo_host).
Proof.
  destruct (resume_skips_completed_phases resume_demo_args (Stored (Some 2))
              resume_demo_host eq_refl) as (H1 & _ & H3).
  split; [exact H1|]. split; [reflexivity|].
  apply H3; [vm_compute; discriminate | vm_compute; split; discriminate].
Defined.

Example resume_after_last_phase :
  cli resume_demo_args (Stored (Some 4)) resume_demo_host = (AlreadyComplete, []).
Proof. reflexivity. Qed.

Example resume_without_checkpoint :
  cli (mkArgs true true None false) Absent (mkHost true true true true true true)
  = (Finished, [Work 1; Save 1; Work 2; Save 2; Work 3; Save 3; Work 4; Save 4]).
Proof. reflexivity. Qed.

End resume_facts.

(** ** Event broker *)

Section broker_facts.
Import py sse_manager samples.

(** When every subscriber queue is full, the loop of [publish] changes
    nothing and ends without an exception. *)
Lemma publish_loop_all_full (qs : list Queue) (event : Event) :
  forallb full qs = true → publish_loop qs event = (qs, None).
Proof.
  induction qs as [|q qs IH]; simpl; [done|].
  intros [Hq Hqs]%andb_true_iff. unfold put_nowait. rewrite Hq, (IH Hqs). done.
Qed.

(** When some subscriber queue has room, the loop of [publish] stores
    the event in the first such queue and leaves with [TypeError]; the
    queues behind it are not visited. *)
Lemma publish_loop_first_room (before : list Queue) (q : Queue) (after : list Queue)
    (event : Event) :
  forallb full before = true → full q = false →
  publish_loop (before ++ q :: after) event
  = (before ++ mkQueue (qid q) (maxsize q) (items q ++ [event]) :: after,
     Some TypeError).
Proof.
  intros Hb Hq. induction before as [|b before IH]; simpl.
  - unfold put_nowait. by rewrite Hq.
  - apply andb_true_iff in Hb as [Hb1 Hb2]. unfold put_nowait at 1.
    rewrite Hb1, (IH Hb2). done.
Qed.

(** C6.  With two subscribers whose queues both have room, [publish]
    stores the event in the first queue, leaves the second queue
    without it, and ends by raising [TypeError]. *)
Theorem publish_two_subscribers :
  publish "job" progress_event {[ "job"%string := [first_client; second_client] ]}
  = ({[ "job"%string := [mkQueue 1 100 [progress_event]; second_client] ]},
     Some TypeError).
Proof.
  unfold publish. rewrite lookup_singleton_eq. simpl.
  by rewrite insert_singleton_eq.
Qed.

Example publish_one_full_subscriber :
  ∀ q, full q = true →
       publish "job" progress_event {[ "job"%string := [q] ]}
       = ({[ "job"%string := [q] ]}, None).
Proof.
  intros q Hq. unfold publish. rewrite lookup_singleton_eq.
  rewrite publish_loop_all_full by (simpl; by rewrite Hq).
  by rewrite insert_singleton_eq.
Qed.

End broker_facts.

(** ** Dead letter queue *)

Section dlq_facts.
Import py dlq invariants samples.

Lemma mark_resolved_elem now j t r :
  r ∈ mark_resolved now j t →
  ∃ r0, r0 ∈ t ∧ id r = id r0
        ∧ ((id r0 = j ∧ status r = s "resolved") ∨ (id r0 ≠ j ∧ r = r0)).
Proof.
  unfold mark_resolved. intros (r0 & -> & Hin)%list_elem_of_fmap.
  exists r0. split; [done|]. case_bool_decide; simpl; auto.
Qed.

Lemma mark_resolved_settles now i t : settled i (mark_resolved now i t).
Proof.
  intros r (r0 & _ & Hid & [[_ ?] | [Hne ->]])%mark_resolved_elem Hi; [done|].
  congruence.
Qed.

Lemma mark_resolved_settled now i j t :
  settled i t → settled i (mark_resolved now j t).
Proof.
  intros Ht r (r0 & Hin & Hid & [[_ ?] | [_ ->]])%mark_resolved_elem Hi; [done|].
  by apply Ht.
Qed.

Lemma push_settled now i j x e p t :
  j ≠ i → settled i t → settled i (run_call (Push now j x e p) t).
Proof.
  intros Hne Ht r Hin Hi. unfold run_call, push in Hin.
  destruct (fits_int64 p); [|by apply Ht].
  apply elem_of_app in Hin as [Hin | Hin].
  - apply list_elem_of_In, filter_In in Hin as [Hin _].
    apply Ht; [by apply list_elem_of_In | done].
  - apply list_elem_of_singleton in Hin. subst r. simpl in Hi. congruence.
Qed.

Lemma retry_item_settled f now item i a n t t' :
  retry_item f now item a n t = Some t' → settled i t → settled i t'.
Proof.
  revert a. induction n as [|n IH]; simpl; intros a; [done|].
  destruct (f (item_text item) a) as [|[|]]; eauto.
  intros [= <-] Ht. by apply mark_resolved_settled.
Qed.

Lemma retry_all_settled f now n i t :
  settled i t → settled i (fst (retry_all f now n t)).
Proof.
  unfold retry_all. generalize (get_all (s "pending") t) as items.
  generalize 0%Z as count. intros count items. revert t count.
  induction items as [|item items IH]; simpl; intros t count Ht; [done|].
  destruct (retry_item f now item 0 n t) as [t'|] eqn:Hitem; simpl.
  - apply IH. by eapply retry_item_settled.
  - by apply IH.
Qed.

Lemma run_calls_settled i cs t :
  forallb (λ c, negb (pushes i c)) cs = true →
  settled i t → settled i (run_calls cs t).
Proof.
  unfold run_calls. revert t.
  induction cs as [|c cs IH]; simpl; intros t Hcs Ht; [done|].
  apply andb_true_iff in Hcs as [Hc Hcs]. apply IH; [done|].
  destruct c as [now j x e p | now j | f now n]; simpl in *.
  - apply (push_settled now i j x e p); [|done]. by case_bool_decide.
  - by apply mark_resolved_settled.
  - by apply retry_all_settled.
Qed.

Lemma get_all_pending_settled i t it :
  settled i t → it ∈ get_all (s "pending") t → item_id it ≠ i.
Proof.
  intros Ht (r & -> & Hin)%list_elem_of_fmap. simpl. intros Hi.
  apply list_elem_of_In, filter_In in Hin as [Hin Hst].
  apply bool_decide_eq_true in Hst.
  apply list_elem_of_In in Hin. specialize (Ht r Hin Hi).
  rewrite Ht in Hst. discriminate.
Qed.

(** C10.  After [mark_resolved(i)] the row stored under [i], if there
    is one, is still there with status [resolved]; and whatever calls
    follow, as long as none of them pushes [i] afresh, every row under
    [i] stays [resolved] and no [get_all("pending")] lists [i]. *)
Theorem resolved_never_reoffered (t : Table) (now i : str) (cs : list call) :
  forallb (λ c, negb (pushes i c)) cs = true →
  ((∃ r, r ∈ t ∧ id r = i) →
   ∃ r, r ∈ mark_resolved now i t ∧ id r = i ∧ status r = s "resolved")
  ∧ (∀ r, r ∈ run_calls cs (mark_resolved now i t) → id r = i →
          status r = s "resolved")
  ∧ (∀ it, it ∈ get_all (s "pending") (run_calls cs (mark_resolved now i t)) →
           item_id it ≠ i).
Proof.
  intros Hcs.
  assert (Hs : settled i (run_calls cs (mark_resolved now i t))).
  { apply run_calls_settled; [done|]. apply mark_resolved_settles. }
  split; [|split].
  - intros (r & Hin & Hi). eexists. split.
    + unfold mark_resolved. apply list_elem_of_fmap. by exists r.
    + rewrite bool_decide_eq_true_2 by done. by simpl.
  - exact Hs.
  - intros it. by apply get_all_pending_settled.
Qed.

Lemma resolved_never_reoffered_witness :
  map item_id
      (get_all (s "pending")
         (run_calls demo_calls (mark_resolved (s "t2") (s "chunk_42") demo_table)))
  = [s "chunk_7"]
  ∧ ∀ it, it ∈ get_all (s "pending")
                 (run_calls demo_calls (mark_resolved (s "t2") (s "chunk_42") demo_table)) →
          item_id it ≠ s "chunk_42".
Proof.
  split; [reflexivity|].
  apply (resolved_never_reoffered demo_table (s "t2") (s "chunk_42") demo_calls).
  reflexivity.
Defined.

(** C10, the claim as worded.  The record under [chunk_42] is marked
    resolved; a later [push] of the same id succeeds, and the next
    [get_all("pending")] offers the id again. *)
Lemma push_after_resolve_is_a_new_failure :
  map (λ r, (id r, status r)) (mark_resolved (s "t2") (s "chunk_42") demo_table)
  = [(s "chunk_42", s "resolved"); (s "chunk_7", s "pending")]
  ∧ map item_id
        (get_all (s "pending") (mark_resolved (s "t2") (s "chunk_42") demo_table))
    = [s "chunk_7"]
  ∧ map item_id
        (get_all (s "pending")
           (run_calls [Push (s "t3") (s "chunk_42") (s "forty-two") (s "again") 4]
              (mark_resolved (s "t2") (s "chunk_42") demo_table)))
    = [s "chunk_7"; s "chunk_42"].
Proof. vm_compute. repeat split; reflexivity. Qed.

End dlq_facts.

(** ** The purge of a fresh run *)

Section purge_facts.
Import purge samples.

Lemma lookup_fs (fs : FS) (p : path) : fs !! p = entries fs !! p.
Proof. reflexivity. Qed.

Lemma denied_remove_item (item : path) (fs : FS) :
  denied (remove_item item fs) = denied fs.
Proof.
  unfold remove_item, unlink, rmtree.
  destruct (fs !! item) as [[| |]|]; try done; by destruct (denied fs item).
Qed.

Lemma remove_item_other (item p : path) (fs : FS) :
  ¬ item `prefix_of` p → remove_item item fs !! p = fs !! p.
Proof.
  intros Hpre. unfold remove_item, unlink, rmtree.
  destruct (fs !! item) as [[| |]|]; [| |done|done];
    destruct (denied fs item) as [kept|]; simpl; try done; rewrite !lookup_fs; simpl.
  - apply lookup_delete_ne. intros ->. by apply Hpre.
  - destruct (entries fs !! p) as [k|] eqn:Hp.
    + apply map_lookup_filter_Some. split; [done|]. simpl. by left.
    + apply map_lookup_filter_None. by left.
  - destruct (entries fs !! p) as [k|] eqn:Hp.
    + by apply map_lookup_filter_Some.
    + apply map_lookup_filter_None. by left.
Qed.

Lemma iterdir_child d fs item : item ∈ iterdir d fs → length item = S (length d).
Proof.
  unfold iterdir. intros Hin. apply list_elem_of_In, filter_In in Hin as [_ Hc].
  unfold is_child in Hc. by apply bool_decide_eq_true in Hc as [? _].
Qed.

Lemma same_length_prefix (a b : path) : length a = length b → a `prefix_of` b → a = b.
Proof.
  intros Hlen [k ->]. rewrite length_app in Hlen.
  destruct k; [by rewrite app_nil_r | simpl in Hlen; lia].
Qed.

Lemma clear_with_exceptions_keeps d exceptions fs p :
  length p = S (length d) → Some p ∈ exceptions →
  snd (clear_with_exceptions d exceptions fs) !! p = fs !! p.
Proof.
  intros Hlen Hexc. unfold clear_with_exceptions.
  destruct (fs !! d) as [[| |]|]; [done| |done|done]. simpl.
  assert (Hitems : ∀ item, item ∈ iterdir d fs → length item = S (length d))
    by apply iterdir_child.
  revert Hitems. generalize (iterdir d fs) as items. intros items. revert fs.
  induction items as [|item items IH]; intros fs Hitems; simpl; [done|].
  rewrite IH by (intros; apply Hitems; by right).
  case_bool_decide as Hin; [done|].
  apply remove_item_other. intros Hpre.
  apply same_length_prefix in Hpre; [|rewrite Hlen; apply Hitems; by left].
  subst item. apply Hin. apply list_elem_of_omap. by exists (Some p).
Qed.

Lemma clear_directory_outside d fs p :
  (∀ item, length item = S (length d) → take (length d) item = d →
           ¬ item `prefix_of` p) →
  snd (clear_directory d None fs) !! p = fs !! p.
Proof.
  intros Hout. unfold clear_directory.
  destruct (fs !! d) as [[| |]|]; [done| |done|done]. simpl.
  assert (Hitems : ∀ item, item ∈ iterdir d fs → ¬ item `prefix_of` p).
  { intros item Hin. unfold iterdir in Hin.
    apply list_elem_of_In, filter_In in Hin as [_ Hc].
    apply bool_decide_eq_true in Hc as [? ?]. by apply Hout. }
  revert Hitems. generalize (iterdir d fs) as items. intros items. revert fs.
  induction items as [|item items IH]; intros fs Hitems; simpl; [done|].
  rewrite IH by (intros; apply Hitems; by right).
  apply remove_item_other, Hitems. by left.
Qed.

Lemma mkdir_p_keeps d fs p k : fs !! p = Some k → snd (mkdir_p d fs) !! p = Some k.
Proof.
  unfold mkdir_p. generalize (seq 1 (length d)) as ns. intros ns. revert fs.
  induction ns as [|n ns IH]; intros fs Hp; simpl; [done|].
  destruct (fs !! take n d) as [[| |]|] eqn:Hd; [done|by apply IH|done|].
  apply IH. rewrite lookup_fs. simpl.
  rewrite lookup_insert_ne; [done|]. intros <-. congruence.
Qed.

(** The branch leaves the file system of its last step that began. *)
Lemma purge_fresh_run_steps BASE_DIR pdf_path fs :
  let fs1 :=
    snd (clear_with_exceptions (OUTPUT_DIR BASE_DIR)
           [pdf_path; Some (jobs_json BASE_DIR)] fs) in
  let fs2 := snd (clear_directory (chroma_db BASE_DIR) None fs1) in
  purge_fresh_run BASE_DIR pdf_path fs = fs1
  ∨ purge_fresh_run BASE_DIR pdf_path fs = fs2
  ∨ purge_fresh_run BASE_DIR pdf_path fs = snd (mkdir_p (OUTPUT_DIR BASE_DIR) fs2).
Proof.
  unfold purge_fresh_run, fresh_run_branch. cbv zeta.
  destruct (clear_with_exceptions _ _ fs) as [[e1|] fs1]; simpl; [by left|].
  destruct (clear_directory _ None fs1) as [[e2|] fs2]; simpl; [right; by left|].
  right. by right.
Qed.

(** A preserved path that is an entry of the output directory itself
    survives the purge. *)
Lemma purge_keeps_top_level BASE_DIR pdf_path fs name k :
  let p := OUTPUT_DIR BASE_DIR ++ [name] in
  (pdf_path = Some p ∨ p = jobs_json BASE_DIR) →
  fs !! p = Some k →
  purge_fresh_run BASE_DIR pdf_path fs !! p = Some k.
Proof.
  intros p Hkeep Hp.
  assert (H1 : snd (clear_with_exceptions (OUTPUT_DIR BASE_DIR)
                      [pdf_path; Some (jobs_json BASE_DIR)] fs) !! p = Some k).
  { rewrite clear_with_exceptions_keeps; [done | |].
    - subst p. rewrite length_app. simpl. lia.
    - destruct Hkeep as [-> | ->]; [by left | right; by left]. }
  assert (H2 : snd (clear_directory (chroma_db BASE_DIR) None
                      (snd (clear_with_exceptions (OUTPUT_DIR BASE_DIR)
                              [pdf_path; Some (jobs_json BASE_DIR)] fs))) !! p = Some k).
  { rewrite clear_directory_outside; [done|].
    intros item Hlen Htake Hpre.
    apply same_length_prefix in Hpre.
    - subst item p. unfold chroma_db, OUTPUT_DIR in Htake.
      rewrite <- !(assoc_L (++)) in Htake. simpl in Htake.
      rewrite !length_app in Htake. simpl in Htake.
      rewrite take_app_add' in Htake by done.
      apply app_inv_head in Htake. simpl in Htake. discriminate.
    - subst p. rewrite Hlen. unfold chroma_db, OUTPUT_DIR.
      rewrite !length_app. simpl. lia. }
  destruct (purge_fresh_run_steps BASE_DIR pdf_path fs) as [-> | [-> | ->]];
    [done | done | by apply mkdir_p_keeps].
Qed.

(** C4.  The source document sits in a subdirectory of the output
    directory and is passed as the path to preserve: after the purge of
    a fresh run it no longer exists, while the job registry file, an
    entry of the output directory itself, is still there. *)
Theorem purge_removes_nested_input :
  demo_fs !! nested_input = Some file
  ∧ purge_fresh_run demo_base (Some nested_input) demo_fs !! nested_input = None
  ∧ purge_fresh_run demo_base (Some nested_input) demo_fs !! jobs_json demo_base
    = Some file.
Proof. vm_compute. done. Qed.

End purge_facts.

(** ** The plan / draft / critique loop *)

Section loop_facts.
Import py agents graph.
Local Open Scope Z_scope.

Variable env : Env.

(** The plan step never yields a plan: whatever the unit, the analysis
    it leaves is one of the analyst's error texts, and the service is
    not invoked. *)
Lemma analyst_node_leaves_error (st : BookState) (calls : nat) :
  ∃ a, analyst_node env st calls = (inr (set_analysis a st), calls)
       ∧ truthy a && startswith a (s "Error: Analyst") = true.
Proof.
  unfold analyst_node. destruct (blank (current_chunk st)); [by eexists|].
  simpl. destruct (missing_key env _); by eexists.
Qed.

Lemma drafter_node_after_error (st : BookState) (calls : nat) :
  truthy (analysis st) && startswith (analysis st) (s "Error: Analyst") = true →
  drafter_node env st calls
  = (inr (set_draft (current_chunk st) (revision_count st + 1) st), calls).
Proof.
  intros Herr. unfold drafter_node.
  destruct (blank (current_chunk st)); [done|]. by rewrite Herr.
Qed.

(** The review step always returns: it leaves a feedback text and
    changes nothing else. *)
Lemma critic_node_returns (st : BookState) (calls : nat) :
  ∃ f calls', critic_node env st calls = (inr (set_feedback f st), calls').
Proof.
  unfold critic_node. destruct (local_verdict st); [by eauto|].
  destruct (attempts env (remote_call env) (_get_model env) 5 calls)
    as [[| [|[|[[|??]|]]] | |] ?]; by eauto.
Qed.

Lemma drafts_skip (n : node) (st : BookState) (tr : list (node * BookState)) :
  n ≠ drafter → drafts ((n, st) :: tr) = drafts tr.
Proof. by destruct n. Qed.

Lemma drafts_cons (st : BookState) (tr : list (node * BookState)) :
  drafts ((drafter, st) :: tr) = st :: drafts tr.
Proof. reflexivity. Qed.

Lemma supersteps_S (fuel : nat) (n : node) (st : BookState) (calls : nat) :
  supersteps env (S fuel) n st calls
  = match node_fn env n st calls with
    | (inl e, calls) => mkRun (inl e) [] calls
    | (inr st, calls) =>
        match edge n st with
        | END => mkRun (inr st) [(n, st)] calls
        | goto n' =>
            let r := supersteps env fuel n' st calls in
            mkRun (result r) ((n, st) :: trace r) (calls_after r)
        end
    end.
Proof. reflexivity. Qed.

(** One round of the loop: the drafter, then the critic, then the
    router. *)
Lemma round_unfold (fuel : nat) (st : BookState) (calls : nat) :
  truthy (analysis st) && startswith (analysis st) (s "Error: Analyst") = true →
  let st2 := set_draft (current_chunk st) (revision_count st + 1) st in
  ∃ f calls',
    let st3 := set_feedback f st2 in
    critic_node env st2 calls = (inr st3, calls')
    ∧ supersteps env (S (S fuel)) drafter st calls
      = match _should_revise st3 with
        | END => mkRun (inr st3) [(drafter, st2); (critic, st3)] calls'
        | goto n =>
            let r := supersteps env fuel n st3 calls' in
            mkRun (result r) ((drafter, st2) :: (critic, st3) :: trace r)
                  (calls_after r)
        end.
Proof.
  intros Herr st2.
  destruct (critic_node_returns st2 calls) as (f & calls' & Hc).
  exists f, calls'. split; [done|].
  rewrite supersteps_S. cbn [node_fn edge].
  rewrite (drafter_node_after_error _ _ Herr). fold st2.
  cbn zeta. rewrite supersteps_S. cbn [node_fn edge]. rewrite Hc.
  destruct (_should_revise (set_feedback f st2)); reflexivity.
Qed.

(** What the loop produces from the drafter on, [n] drafts short of
    the cap, when no review approves. *)
Lemma rounds_to_cap (n : nat) :
  ∀ (fuel : nat) (st : BookState) (calls : nat),
    (2 * S n ≤ fuel)%nat →
    truthy (analysis st) && startswith (analysis st) (s "Error: Analyst") = true →
    revision_count st = MAX_REVISIONS - Z.of_nat (S n) →
    let r := supersteps env fuel drafter st calls in
    every_review_rejects (trace r) = true →
    ∃ final d,
      result r = inr final
      ∧ revision_count final = MAX_REVISIONS
      ∧ length (drafts (trace r)) = S n
      ∧ last (drafts (trace r)) = Some d
      ∧ revision_count d = MAX_REVISIONS
      ∧ expanded_chunk final = expanded_chunk d
      ∧ expanded_chunk d = current_chunk st
      ∧ current_chunk final = current_chunk st
      ∧ approved (feedback final) = false.
Proof.
  induction n as [|n IH]; intros fuel st calls Hfuel Herr Hrc.
  - destruct fuel as [|[|fuel]]; [lia | lia |].
    destruct (round_unfold fuel st calls Herr) as (f & calls' & _ & ->).
    unfold _should_revise. cbn [feedback set_feedback revision_count set_draft].
    destruct (approved f) eqn:Happ.
    + cbn [trace every_review_rejects forallb fst snd feedback set_feedback].
      rewrite Happ. done.
    + assert (Hcap : (MAX_REVISIONS <=? revision_count st + 1) = true).
      { apply Z.leb_le. rewrite Hrc. unfold MAX_REVISIONS. lia. }
      rewrite Hcap. intros _. eexists _, _.
      cbn [result trace drafts omap fst snd last mbind option_bind]. simpl.
      split; [reflexivity|]. split; [simpl; rewrite Hrc; lia|].
      split; [done|]. split; [reflexivity|]. simpl.
      split; [rewrite Hrc; lia|]. done.
  - destruct fuel as [|[|fuel]]; [lia | lia |].
    destruct (round_unfold fuel st calls Herr) as (f & calls' & _ & ->).
    unfold _should_revise. cbn [feedback set_feedback revision_count set_draft].
    destruct (approved f) eqn:Happ.
    + cbn [trace every_review_rejects forallb fst snd feedback set_feedback].
      rewrite Happ. done.
    + assert (Hcap : (MAX_REVISIONS <=? revision_count st + 1) = false).
      { apply Z.leb_gt. rewrite Hrc. unfold MAX_REVISIONS. lia. }
      rewrite Hcap.
      cbn [trace every_review_rejects forallb fst snd feedback set_feedback].
      rewrite Happ. cbn [negb andb]. intros Hrej.
      set (st3 := set_feedback f
                    (set_draft (current_chunk st) (revision_count st + 1) st)) in *.
      destruct (IH fuel st3 calls')
        as (final & d & Hres & ? & Hlen & Hlast & ? & ? & ? & ? & ?);
        [lia | done | simpl; lia | exact Hrej |].
      exists final, d. cbn [result trace].
      rewrite drafts_cons, drafts_skip by done.
      split; [exact Hres|]. split; [done|]. split; [simpl; by rewrite Hlen|].
      split; [|done].
      destruct (drafts (trace (supersteps env fuel drafter st3 calls')));
        [done | exact Hlast].
Qed.

Lemma cap_from_analyst (fuel : nat) (st0 : BookState) (calls : nat) :
  (6 ≤ fuel)%nat →
  revision_count st0 = 0 →
  every_review_rejects (trace (supersteps env (S fuel) analyst st0 calls)) = true →
  ∃ final d,
    result (supersteps env (S fuel) analyst st0 calls) = inr final
    ∧ revision_count final = MAX_REVISIONS
    ∧ length (drafts (trace (supersteps env (S fuel) analyst st0 calls)))
      = Z.to_nat MAX_REVISIONS
    ∧ last (drafts (trace (supersteps env (S fuel) analyst st0 calls))) = Some d
    ∧ revision_count d = MAX_REVISIONS
    ∧ expanded_chunk final = expanded_chunk d
    ∧ approved (feedback final) = false
    ∧ expanded_chunk d = current_chunk st0.
Proof.
  intros Hfuel Hrc. rewrite supersteps_S. cbn [node_fn edge].
  destruct (analyst_node_leaves_error st0 calls) as (a & -> & Herr).
  cbn [trace every_review_rejects forallb fst snd andb]. intros Hrej.
  destruct (rounds_to_cap 2 fuel (set_analysis a st0) calls)
    as (final & d & Hres & Hfin & Hlen & Hlast & Hd & Hkeep & Hchunk & _ & Hfb);
    [lia | exact Herr | simpl; rewrite Hrc; reflexivity | exact Hrej |].
  exists final, d. cbn [result trace]. rewrite drafts_skip by done.
  split; [exact Hres|]. split; [exact Hfin|].
  split; [exact Hlen|]. split; [exact Hlast|]. split; [exact Hd|].
  split; [exact Hkeep|]. split; [exact Hfb | exact Hchunk].
Qed.

Lemma ainvoke_cap (st0 : BookState) (calls : nat) :
  revision_count st0 = 0 →
  every_review_rejects (trace (ainvoke env st0 calls)) = true →
  ∃ final d,
    result (ainvoke env st0 calls) = inr final
    ∧ revision_count final = MAX_REVISIONS
    ∧ length (drafts (trace (ainvoke env st0 calls))) = Z.to_nat MAX_REVISIONS
    ∧ last (drafts (trace (ainvoke env st0 calls))) = Some d
    ∧ revision_count d = MAX_REVISIONS
    ∧ expanded_chunk final = expanded_chunk d
    ∧ approved (feedback final) = false
    ∧ expanded_chunk d = current_chunk st0.
Proof.
  unfold ainvoke, RECURSION_LIMIT. intros Hrc Hrej.
  assert (Hfuel : (6 ≤ 24)%nat) by lia.
  exact (cap_from_analyst 24 st0 calls Hfuel Hrc Hrej).
Qed.

(** C2.  Started with a revision count of 0, a run of the graph in
    which no review approves (as the router judges it: no feedback,
    upper-cased, starts with [APPROVED]) ends normally, not at the
    recursion limit:
    the drafter has run exactly [MAX_REVISIONS] = 3 times, the revision
    count of the final state is exactly [MAX_REVISIONS], and the expanded
    text of the final state is the one the last draft left.  When the run
    is the one the scheduler starts for a unit, that text is the result
    the scheduler keeps for the unit. *)
Theorem revision_cap_reached (st0 : BookState) (calls : nat) :
  revision_count st0 = 0 →
  every_review_rejects (trace (ainvoke env st0 calls)) = true →
  ∃ final d,
    result (ainvoke env st0 calls) = inr final
    ∧ MAX_REVISIONS = 3
    ∧ revision_count final = MAX_REVISIONS
    ∧ length (drafts (trace (ainvoke env st0 calls))) = Z.to_nat MAX_REVISIONS
    ∧ last (drafts (trace (ainvoke env st0 calls))) = Some d
    ∧ revision_count d = MAX_REVISIONS
    ∧ expanded_chunk final = expanded_chunk d
    ∧ approved (feedback final) = false
    ∧ ∀ total i chunk w,
        st0 = scheduler.initial_state env total chunk →
        calls = scheduler.remote_calls w →
        blank chunk = false →
        fst (scheduler.expand_chunk env total i chunk w) = expanded_chunk d.
Proof.
  intros Hrc Hrej.
  destruct (ainvoke_cap st0 calls Hrc Hrej)
    as (final & d & Hres & Hfin & Hlen & Hlast & Hd & Hkeep & Hfb & Hchunk).
  exists final, d.
  split; [exact Hres|]. split; [reflexivity|]. split; [exact Hfin|].
  split; [exact Hlen|]. split; [exact Hlast|]. split; [exact Hd|].
  split; [exact Hkeep|]. split; [exact Hfb|].
  intros total i chunk w Hst Hcalls Hblank.
  unfold scheduler.expand_chunk. rewrite Hblank. cbn zeta.
  rewrite <- Hst, <- Hcalls, Hres, Hkeep, Hchunk.
  assert (Hcur : current_chunk st0 = chunk) by (by rewrite Hst).
  rewrite Hcur. unfold or_else.
  assert (Htruthy : truthy chunk = true).
  { unfold blank in Hblank. by destruct (truthy chunk). }
  rewrite Htruthy, Hblank, bool_decide_eq_true_2 by done. done.
Qed.

Lemma attempts_fail (n calls : nat) :
  service_fails env (_get_model env) n calls →
  ∃ calls', match attempts env (remote_call env) (_get_model env) n calls with
            | (NoKey, c) | (Exhausted, c) | (Reraised _, c) => c = calls'
            | (Got r, c) => c = calls' ∧ unusable r = true
            end.
Proof.
  induction 1 as [n calls Hkey | calls | n calls e Hkey Hcall Hretry _ IH
                 | n calls e Hkey Hcall Hretry | n calls r Hkey Hcall Hr]; simpl.
  - rewrite Hkey. by eexists.
  - by eexists.
  - rewrite Hkey. unfold remote_call at 1. rewrite Hcall, Hretry. exact IH.
  - rewrite Hkey. unfold remote_call. rewrite Hcall, Hretry. by eexists.
  - rewrite Hkey. unfold remote_call. rewrite Hcall. by eexists.
Qed.

(** C7.  When the review reaches the remote call (no local check has
    answered) and the critic service fails, whether by a missing key,
    by network errors on all five attempts, by any other error, or by
    an empty or malformed response, the feedback is [APPROVED] and the
    router ends the unit: no revision, no exception. *)
Theorem critic_fails_open (st : BookState) (calls : nat) :
  local_verdict st = None →
  service_fails env (_get_model env) 5 calls →
  ∃ calls',
    critic_node env st calls = (inr (set_feedback (s "APPROVED") st), calls')
    ∧ _should_revise (set_feedback (s "APPROVED") st) = END.
Proof.
  intros Hlocal Hfail. unfold critic_node. rewrite Hlocal.
  destruct (attempts_fail 5 calls Hfail) as (calls' & Hatt).
  exists calls'. split; [|reflexivity].
  destruct (attempts env (remote_call env) (_get_model env) 5 calls)
    as [[| r | |] c]; try (by subst c).
  destruct Hatt as [-> Hr].
  destruct r as [|[|[[|??]|]]]; done.
Qed.

(** C8, amended.  When the review reaches the remote call and the
    critic service returns a non-empty text, the feedback kept is that
    text stripped of surrounding white space.  The router ends the unit
    exactly when the stripped text, upper-cased, begins with [APPROVED]
    or the revision cap is reached; otherwise it sends the unit back to
    the drafter, the state carrying the stripped text as feedback. *)
Theorem critic_verdict_rule (st : BookState) (calls calls' : nat) (content : str) :
  local_verdict st = None →
  attempts env (remote_call env) (_get_model env) 5 calls
  = (Got (Choices (Content (Some content))), calls') →
  content ≠ [] →
  critic_node env st calls = (inr (set_feedback (strip content) st), calls')
  ∧ feedback (set_feedback (strip content) st) = strip content
  ∧ (_should_revise (set_feedback (strip content) st) = END
     ↔ startswith (upper (strip content)) (s "APPROVED") = true
       ∨ MAX_REVISIONS ≤ revision_count st)
  ∧ (_should_revise (set_feedback (strip content) st) = goto drafter
     ↔ startswith (upper (strip content)) (s "APPROVED") = false
       ∧ revision_count st < MAX_REVISIONS).
Proof.
  intros Hlocal Hatt Hne. unfold critic_node. rewrite Hlocal, Hatt.
  destruct content as [|c content]; [done|].
  split; [done|]. split; [done|].
  unfold _should_revise, approved. cbn [feedback set_feedback revision_count].
  destruct (startswith (upper (strip (c :: content))) (s "APPROVED")).
  - split; split; try done; [by left | intros [? _]; done].
  - destruct (Z.leb_spec MAX_REVISIONS (revision_count st)).
    + split; split; try done; [by right | intros [_ ?]; lia].
    + split; split; try done. intros [? | ?]; [done | lia].
Qed.

End loop_facts.

Section loop_examples.
Import py agents graph samples.
Local Open Scope Z_scope.

Lemma revision_cap_reached_witness :
  every_review_rejects (trace (ainvoke demanding_env short_unit 0)) = true
  ∧ ∃ final d,
      result (ainvoke demanding_env short_unit 0) = inr final
      ∧ MAX_REVISIONS = 3
      ∧ revision_count final = MAX_REVISIONS
      ∧ length (drafts (trace (ainvoke demanding_env short_unit 0)))
        = Z.to_nat MAX_REVISIONS
      ∧ last (drafts (trace (ainvoke demanding_env short_unit 0))) = Some d
      ∧ revision_count d = MAX_REVISIONS
      ∧ expanded_chunk final = expanded_chunk d
      ∧ approved (feedback final) = false
      ∧ ∀ total i chunk w,
          short_unit = scheduler.initial_state demanding_env total chunk →
          0%nat = scheduler.remote_calls w →
          blank chunk = false →
          fst (scheduler.expand_chunk demanding_env total i chunk w) = expanded_chunk d.
Proof.
  split; [vm_compute; reflexivity|].
  apply (revision_cap_reached demanding_env short_unit 0);
    [reflexivity | vm_compute; reflexivity].
Defined.

(** C2, the claim as worded.  The critic answers in lower case: no
    feedback of the run starts with the approval token, yet the run ends
    after the first review, with a revision count of 1, below the cap. *)
Lemma lowercase_approval_ends_the_loop_early :
  revision_count cases.full_length_unit = 0
  ∧ forallb (λ e, negb (begins_with_token (feedback (snd e))))
            (trace (ainvoke lenient_env cases.full_length_unit 0)) = true
  ∧ map fst (trace (ainvoke lenient_env cases.full_length_unit 0))
    = [analyst; drafter; critic]
  ∧ option_map (λ final, (feedback final, revision_count final))
               (match result (ainvoke lenient_env cases.full_length_unit 0) with
                | inr final => Some final
                | inl _ => None
                end)
    = Some (s "approved. Good work.", 1)
  ∧ 1 < MAX_REVISIONS.
Proof. vm_compute. repeat split; reflexivity. Qed.

Example short_unit_run :
  map fst (trace (ainvoke demanding_env short_unit 0))
  = [analyst; drafter; critic; drafter; critic; drafter; critic]
  ∧ calls_after (ainvoke demanding_env short_unit 0) = 0%nat.
Proof. vm_compute. done. Qed.

Lemma critic_fails_open_witness :
  local_verdict passing_draft = None
  ∧ service_fails offline_env (_get_model offline_env) 5 0
  ∧ ∃ calls',
      critic_node offline_env passing_draft 0
      = (inr (set_feedback (s "APPROVED") passing_draft), calls')
      ∧ _should_revise (set_feedback (s "APPROVED") passing_draft) = END.
Proof.
  assert (Hfail : service_fails offline_env (_get_model offline_env) 5 0).
  { do 5 (eapply fails_again; [reflexivity | reflexivity | reflexivity |]).
    apply fails_exhausted. }
  split; [reflexivity|]. split; [exact Hfail|].
  exact (critic_fails_open offline_env passing_draft 0 eq_refl Hfail).
Defined.

Example offline_critic_uses_five_attempts :
  critic_node offline_env passing_draft 0
  = (inr (set_feedback (s "APPROVED") passing_draft), 5%nat).
Proof. reflexivity. Qed.

(** C8, the claim as worded.  The critic returns a text that does not
    begin with the literal token; the revision cap is not reached; yet
    the router ends the unit instead of sending it back. *)
Lemma lowercase_approval_ends_the_review :
  local_verdict passing_draft = None
  ∧ acompletion lenient_env 0 = Returns (Choices (Content (Some (s "approved. Good work."))))
  ∧ begins_with_token (s "approved. Good work.") = false
  ∧ revision_count passing_draft < MAX_REVISIONS
  ∧ critic_node lenient_env passing_draft 0
    = (inr (set_feedback (s "approved. Good work.") passing_draft), 1%nat)
  ∧ _should_revise (set_feedback (s "approved. Good work.") passing_draft) = END.
Proof. vm_compute. repeat split; done. Qed.

Lemma critic_verdict_rule_witness :
  critic_node demanding_env passing_draft 0
  = (inr (set_feedback (s "Needs more depth.") passing_draft), 1%nat)
  ∧ _should_revise (set_feedback (s "Needs more depth.") passing_draft) = goto drafter.
Proof.
  destruct (critic_verdict_rule demanding_env passing_draft 0 1 (s "Needs more depth."))
    as (Hnode & _ & _ & Hgo); [reflexivity | reflexivity | discriminate |].
  split; [exact Hnode|]. apply Hgo. split; [reflexivity | reflexivity].
Defined.

End loop_examples.

(** ** The phase-2 scheduler *)

Section scheduler_facts.
Import py agents scheduler invariants.

Variable env : Env.

(** The unit pipeline writes no checkpoint file. *)
Lemma expand_chunk_files total i chunk w :
  chunk_files (snd (expand_chunk env total i chunk w)) = chunk_files w.
Proof.
  unfold expand_chunk. destruct (blank chunk); [done|].
  destruct (graph.result _) as [e | st]; [done|].
  destruct (blank _); [done|]. by case_bool_decide.
Qed.

(** A unit whose checkpoint exists costs nothing and yields the stored
    text. *)
Lemma process_chunk_skips total i chunk w text :
  chunk_files w !! i = Some text → process_chunk env total i chunk w = (text, w).
Proof. intros H. unfold process_chunk. by rewrite H. Qed.

(** After a unit is processed its checkpoint holds the text returned;
    the other checkpoints are as before. *)
Lemma process_chunk_checkpoint total i chunk w :
  chunk_files (snd (process_chunk env total i chunk w)) !! i
  = Some (fst (process_chunk env total i chunk w))
  ∧ ∀ j, j ≠ i →
         chunk_files (snd (process_chunk env total i chunk w)) !! j
         = chunk_files w !! j.
Proof.
  unfold process_chunk. destruct (chunk_files w !! i) as [text|] eqn:Hi; [done|].
  pose proof (expand_chunk_files total i chunk w) as Hfiles.
  destruct (expand_chunk env total i chunk w) as [expanded w1]. simpl in *.
  split; [apply lookup_insert_eq|].
  intros j Hj. rewrite lookup_insert_ne by done. by rewrite Hfiles.
Qed.

Lemma gather_checkpoints total chunks :
  ∀ i w,
    length (fst (gather env total i chunks w)) = length chunks
    ∧ checkpointed i (fst (gather env total i chunks w))
                     (snd (gather env total i chunks w))
    ∧ ∀ j, j < i →
           chunk_files (snd (gather env total i chunks w)) !! j = chunk_files w !! j.
Proof.
  induction chunks as [|chunk rest IH]; intros i w; simpl.
  { split; [done|]. split; [|done]. intros k r Hk. done. }
  destruct (process_chunk_checkpoint total i chunk w) as [Hi Hother].
  destruct (process_chunk env total i chunk w) as [r w1]. simpl in Hi, Hother.
  destruct (IH (S i) w1) as (Hlen & Hck & Hbelow).
  destruct (gather env total (S i) rest w1) as [rs w2]. simpl in *.
  split; [by rewrite Hlen|]. split.
  - intros [|k] x Hk; simpl in Hk.
    + inversion Hk; subst x. rewrite Nat.add_0_r, Hbelow by lia. done.
    + replace (i + S k) with (S i + k) by lia. by apply Hck.
  - intros j Hj. rewrite Hbelow by lia. apply Hother. lia.
Qed.

(** When every unit has its checkpoint, the scheduler returns the
    stored texts and leaves the world as it is. *)
Lemma gather_replays total chunks :
  ∀ i rs w,
    length rs = length chunks → checkpointed i rs w →
    gather env total i chunks w = (rs, w).
Proof.
  induction chunks as [|chunk rest IH]; intros i [|r rs] w Hlen Hck;
    simpl in *; try done.
  rewrite (process_chunk_skips total i chunk w r).
  - rewrite (IH (S i) rs w); [done | lia |].
    intros k x Hk. replace (S i + k) with (i + S k) by lia. by apply Hck.
  - specialize (Hck 0 r eq_refl). by rewrite Nat.add_0_r in Hck.
Qed.

(** C1.  A unit whose checkpoint file exists is not processed: the
    stored text is its result and the world, the count of remote calls
    included, is untouched.  Hence a second run of the scheduler over
    the same units, started from the world the first run left, makes no
    remote call and returns the results of the first run. *)
Theorem checkpoints_make_reruns_free (chunks : list str) (w : World) :
  (∀ i chunk text,
     chunk_files w !! i = Some text →
     process_chunk env (length chunks) i chunk w = (text, w))
  ∧ run_phase_2 env chunks (snd (run_phase_2 env chunks w))
    = run_phase_2 env chunks w
  ∧ remote_calls (snd (run_phase_2 env chunks (snd (run_phase_2 env chunks w))))
    = remote_calls (snd (run_phase_2 env chunks w)).
Proof.
  split; [intros i chunk text; apply process_chunk_skips|].
  assert (Hrerun : run_phase_2 env chunks (snd (run_phase_2 env chunks w))
                   = run_phase_2 env chunks w).
  { unfold run_phase_2.
    destruct (gather_checkpoints (length chunks) chunks 0 w) as (Hlen & Hck & _).
    destruct (gather env (length chunks) 0 chunks w) as [rs w1]. simpl in *.
    by apply gather_replays. }
  split; [exact Hrerun|]. by rewrite Hrerun.
Qed.

End scheduler_facts.

Section scheduler_examples.
Import py agents scheduler samples.

Lemma checkpoints_make_reruns_free_witness :
  chunk_files restarted_world !! 0%nat = Some (s "Stored text of unit one.")
  ∧ process_chunk demanding_env 2 0 (s "Heat flows.") restarted_world
    = (s "Stored text of unit one.", restarted_world)
  ∧ fst (run_phase_2 demanding_env two_units
           (snd (run_phase_2 demanding_env two_units restarted_world)))
    = [s "Stored text of unit one."; s "Work is done."].
Proof.
  destruct (checkpoints_make_reruns_free demanding_env two_units restarted_world)
    as (Hskip & Hrerun & _).
  split; [reflexivity|]. split.
  - exact (Hskip 0%nat (s "Heat flows.") (s "Stored text of unit one.") eq_refl).
  - rewrite Hrerun. vm_compute. reflexivity.
Defined.

(** A short unit is rejected for low effort on each of its three drafts;
    the scheduler keeps the last draft, which is the unit itself, logs it
    as unchanged and writes its checkpoint, without a remote call. *)
Example exhausted_unit_is_kept_and_logged :
  short_unit = initial_state demanding_env 1 (s "Heat flows from hot to cold.")
  ∧ process_chunk demanding_env 1 0 (s "Heat flows from hot to cold.") (mkWorld ∅ [] 0)
    = (s "Heat flows from hot to cold.",
       mkWorld {[ 0%nat := s "Heat flows from hot to cold." ]}
               [mkLine 1 (s "unchanged_expansion") (s "Heat flows from hot to cold.")]
               0).
Proof. vm_compute. done. Qed.

Example first_run_checkpoints_every_unit :
  dom (chunk_files (snd (run_phase_2 demanding_env two_units restarted_world)))
  = {[ 0%nat; 1%nat ]}
  ∧ remote_calls (snd (run_phase_2 demanding_env two_units restarted_world)) = 7%nat.
Proof. vm_compute. done. Qed.

End scheduler_examples.

(** ** Segmenter *)

Section text_facts.
Import py.

Lemma reverse_rev (x : str) : reverse x = rev x.
Proof. unfold reverse. symmetry. apply rev_alt. Qed.

Lemma ink_app (x y : str) : ink (x ++ y) = ink x ++ ink y.
Proof. apply List.filter_app. Qed.

Lemma ink_cons (c : ascii) (x : str) :
  ink (c :: x) = if isspace c then ink x else c :: ink x.
Proof. unfold ink. simpl. by destruct (isspace c). Qed.

Lemma ink_reverse (x : str) : ink (reverse x) = reverse (ink x).
Proof.
  rewrite !reverse_rev. induction x as [|c x IH]; [done|].
  simpl. rewrite ink_app, IH, !ink_cons.
  destruct (isspace c); simpl; [by rewrite app_nil_r | done].
Qed.

Lemma ink_lstrip (x : str) : ink (lstrip x) = ink x.
Proof.
  induction x as [|c x IH]; [done|]. simpl. rewrite ink_cons.
  destruct (isspace c) eqn:Hc; [done | by rewrite ink_cons, Hc].
Qed.

Lemma ink_strip (x : str) : ink (strip x) = ink x.
Proof.
  unfold strip, rstrip. rewrite ink_reverse, ink_lstrip, ink_reverse.
  rewrite reverse_involutive. apply ink_lstrip.
Qed.

Lemma ink_spaces (w : str) : forallb isspace w = true → ink w = [].
Proof.
  induction w as [|c w IH]; [done|]. simpl. intros [Hc Hw]%andb_true_iff.
  rewrite ink_cons, Hc. auto.
Qed.

Lemma length_lstrip (x : str) : length (lstrip x) ≤ length x.
Proof.
  induction x as [|c x IH]; [done|]. simpl. destruct (isspace c); simpl; lia.
Qed.

Lemma length_rstrip (x : str) : length (rstrip x) ≤ length x.
Proof.
  unfold rstrip. rewrite length_reverse.
  etrans; [apply length_lstrip|]. by rewrite length_reverse.
Qed.

Lemma length_strip (x : str) : length (strip x) ≤ length x.
Proof.
  unfold strip. etrans; [apply length_rstrip | apply length_lstrip].
Qed.

(** A text that ends in a white space loses at least that character
    when stripped. *)
Lemma length_strip_snoc (x : str) (w : ascii) :
  isspace w = true → length (strip (x ++ [w])) ≤ length x.
Proof.
  intros Hw.
  assert (Hl : lstrip (x ++ [w]) = []
               ∨ ∃ y, lstrip (x ++ [w]) = y ++ [w] ∧ length y ≤ length x).
  { induction x as [|c x IH]; simpl.
    - rewrite Hw. by left.
    - destruct (isspace c).
      + destruct IH as [? | (y & ? & ?)]; [by left|].
        right. exists y. split; [done | lia].
      + right. by exists (c :: x). }
  unfold strip. destruct Hl as [-> | (y & -> & Hy)]; [simpl; lia|].
  unfold rstrip. rewrite reverse_app, reverse_singleton. simpl. rewrite Hw.
  rewrite length_reverse. etrans; [apply length_lstrip|].
  by rewrite length_reverse.
Qed.

Lemma concat_cons_head (c : ascii) (ps : list str) :
  concat (cons_head c ps) = c :: concat ps.
Proof. by destruct ps. Qed.

(** Induction over a text two characters at a time. *)
Lemma str_ind2 (P : str → Prop) :
  P [] → (∀ c, P [c]) →
  (∀ c d x, P x → P (d :: x) → P (c :: d :: x)) → ∀ x, P x.
Proof.
  intros H0 H1 H2 x.
  assert (H : P x ∧ ∀ c, P (c :: x)); [|by destruct H].
  induction x as [|d x [IH1 IH2]]; [by split|].
  split; [apply IH2|]. intros c. by apply H2.
Qed.

Lemma is_nl_space (c : ascii) : is_nl c = true → isspace c = true.
Proof.
  unfold is_nl, isspace. intros H%Nat.eqb_eq. by rewrite H.
Qed.

Lemma ink_split_blank (x : str) : ink (concat (split_blank x)) = ink x.
Proof.
  induction x as [|c|c d x IH1 IH2] using str_ind2; [done | done |].
  change (split_blank (c :: d :: x))
    with (if is_nl c && is_nl d then [] :: split_blank x
          else cons_head c (split_blank (d :: x))).
  destruct (is_nl c && is_nl d) eqn:Hnl.
  - apply andb_true_iff in Hnl as [Hc Hd].
    simpl. rewrite IH1, !ink_cons, (is_nl_space _ Hc), (is_nl_space _ Hd). done.
  - rewrite concat_cons_head, !ink_cons, IH2, ink_cons. done.
Qed.

Lemma join_snoc (sep : str) (ps : list str) (p : str) :
  join sep (ps ++ [p])
  = match ps with [] => p | _ :: _ => join sep ps ++ sep ++ p end.
Proof.
  induction ps as [|q ps IH]; [done|].
  change (join sep ((q :: ps) ++ [p])) with
    (match ps ++ [p] with [] => q | _ :: _ => q ++ sep ++ join sep (ps ++ [p]) end).
  rewrite IH. destruct ps as [|q' ps]; simpl; [done|].
  by rewrite <- !(assoc_L (++)).
Qed.

Lemma ink_join_blank (ps : list str) : ink (join [nl; nl] ps) = ink (concat ps).
Proof.
  induction ps as [|p ps IH]; [done|].
  destruct ps as [|q ps]; [simpl; by rewrite app_nil_r|].
  change (join [nl; nl] (p :: q :: ps)) with (p ++ [nl; nl] ++ join [nl; nl] (q :: ps)).
  rewrite !ink_app, IH. simpl concat. rewrite !ink_app. done.
Qed.

Lemma slices_fuel_spec (n : nat) :
  0 < n → ∀ fuel x, length x ≤ fuel →
  concat (slices_fuel fuel n x) = x
  ∧ Forall (λ p, length p ≤ n) (slices_fuel fuel n x).
Proof.
  intros Hn. induction fuel as [|fuel IH]; intros x Hx.
  - destruct x; [done | simpl in Hx; lia].
  - destruct x as [|c x]; [done|].
    change (slices_fuel (S fuel) n (c :: x))
      with (take n (c :: x) :: slices_fuel fuel n (drop n (c :: x))).
    destruct (IH (drop n (c :: x))) as [Hcat Hall].
    { rewrite length_drop. simpl in *. lia. }
    split.
    + simpl concat. rewrite Hcat. apply take_drop.
    + constructor; [|done]. rewrite length_take. lia.
Qed.

Lemma slices_spec (n : nat) (x : str) :
  0 < n → concat (slices n x) = x ∧ Forall (λ p, length p ≤ n) (slices n x).
Proof. intros Hn. by apply slices_fuel_spec. Qed.

End text_facts.

Section chunker_facts.
Import py chunker invariants.

Lemma concat_split_before (head : str → bool) (x : str) :
  ∀ bol, concat (split_before head bol x) = x.
Proof.
  induction x as [|c x IH]; intros bol; [done|]. simpl.
  destruct (bol && head (c :: x)); simpl; by rewrite concat_cons_head, IH.
Qed.

Lemma ink_stripped_parts (ps : list str) :
  ink (concat (stripped_parts ps)) = ink (concat ps).
Proof.
  unfold stripped_parts. induction ps as [|p ps IH]; [done|]. simpl.
  rewrite ink_app, <- (ink_strip p). generalize (strip p) as sp. intros sp.
  destruct sp as [|c q]; cbn [truthy].
  - by rewrite IH.
  - by rewrite concat_cons, ink_app, IH.
Qed.

(** The parts kept by strategies A and B are not empty. *)
Lemma stripped_parts_truthy (ps : list str) :
  Forall (λ p, p ≠ []) (stripped_parts ps).
Proof.
  unfold stripped_parts. apply Forall_forall. intros p Hp.
  apply list_elem_of_In, filter_In in Hp as [_ Hp]. by destruct p.
Qed.

Lemma ink_reverse_cons (c : ascii) (x : str) :
  ink (reverse (c :: x)) = ink (reverse x) ++ ink [c].
Proof. by rewrite reverse_cons, ink_app. Qed.

Lemma ink_uncons (c : ascii) (x : str) : ink (c :: x) = ink [c] ++ ink x.
Proof. by rewrite <- ink_app. Qed.

Lemma ink_space (c : ascii) : isspace c = true → ink [c] = [].
Proof. intros H. by rewrite ink_cons, H. Qed.

Lemma ink_split_sentences_from (x : str) :
  ∀ cur run,
    (∀ w, run = Some w → forallb isspace w = true) →
    ink (concat (split_sentences_from cur run x)) = ink (reverse cur) ++ ink x.
Proof.
  induction x as [|c r IH]; intros cur run Hrun.
  - simpl. rewrite !app_nil_r. destruct run as [w|]; simpl; [|done].
    rewrite reverse_app, ink_app, (ink_reverse w), (ink_spaces w) by auto.
    by rewrite app_nil_r.
  - rewrite (ink_uncons c r). simpl split_sentences_from. destruct run as [w|].
    + assert (Hw : forallb isspace w = true) by auto.
      destruct (isspace c) eqn:Hc.
      * rewrite IH; [by rewrite (ink_space c Hc)|].
        intros ? [= <-]. simpl. by rewrite Hc.
      * destruct (isalpha_ascii c).
        -- rewrite concat_cons, ink_app, IH by done. by rewrite reverse_singleton.
        -- rewrite IH by done.
           rewrite ink_reverse_cons, reverse_app, ink_app, (ink_reverse w),
             (ink_spaces w Hw).
           simpl. by rewrite app_nil_r, <- (assoc_L (++)).
    + destruct (isspace c && _) eqn:Hc.
      * apply andb_true_iff in Hc as [Hc _].
        rewrite IH; [by rewrite (ink_space c Hc)|].
        intros ? [= <-]. simpl. by rewrite Hc.
      * rewrite IH by done. by rewrite ink_reverse_cons, <- (assoc_L (++)).
Qed.

Lemma ink_split_sentences (para : str) :
  ink (concat (split_sentences para)) = ink para.
Proof. unfold split_sentences. by rewrite ink_split_sentences_from. Qed.

Section hard_split.
Variable max_chars : nat.
Hypothesis positive : 0 < max_chars.

Lemma fits_snoc chunks u : fits max_chars chunks → length u ≤ max_chars → fits max_chars (chunks ++ [u]).
Proof. intros. apply Forall_app. split; [done | by constructor]. Qed.

Lemma force_split_spec (sentence : str) :
  force_split max_chars sentence = inr (slices max_chars sentence).
Proof.
  unfold force_split. destruct (Nat.eqb_spec max_chars 0); [lia | done].
Qed.

(** Flushing [para_current], as both loops over sentences do. *)
Lemma flush_spec (chunks : list str) (pc : str) :
  fits max_chars chunks → length (strip pc) ≤ max_chars →
  let chunks1 := if truthy pc then chunks ++ [strip pc] else chunks in
  fits max_chars chunks1 ∧ ink (concat chunks1) = ink (concat chunks) ++ ink pc.
Proof.
  intros Hfit Hpc. destruct pc as [|c pc]; simpl.
  - by rewrite app_nil_r.
  - split; [by apply fits_snoc|].
    rewrite concat_app, ink_app. simpl. by rewrite app_nil_r, ink_strip.
Qed.

Lemma sentence_loop_spec (sentences : list str) :
  ∀ chunks pc,
    fits max_chars chunks → length (strip pc) ≤ max_chars →
    ∃ chunks' pc',
      sentence_loop max_chars sentences chunks pc = inr (chunks', pc')
      ∧ fits max_chars chunks' ∧ length (strip pc') ≤ max_chars
      ∧ ink (concat chunks') ++ ink pc'
        = ink (concat chunks) ++ ink pc ++ ink (concat sentences).
Proof.
  induction sentences as [|sentence rest IH]; intros chunks pc Hfit Hpc.
  { exists chunks, pc. simpl. by rewrite app_nil_r. }
  simpl sentence_loop. simpl concat. rewrite ink_app.
  change (s " ") with [" "%char].
  destruct (Nat.leb_spec (length pc + length sentence + 1) max_chars) as [Hle | Hgt].
  - destruct (IH chunks (pc ++ strip (sentence ++ [" "%char])))
      as (chunks' & pc' & -> & ? & ? & Hink); [done | |].
    { etrans; [apply length_strip|]. rewrite length_app.
      pose proof (length_strip (sentence ++ [" "%char])) as Hs.
      rewrite length_app in Hs. simpl in Hs. lia. }
    exists chunks', pc'. repeat split; try done.
    rewrite Hink, ink_app, ink_strip, ink_app, (ink_space " "%char) by done.
    by rewrite app_nil_r, <- !(assoc_L (++)).
  - destruct (flush_spec chunks pc Hfit Hpc) as [Hfit1 Hink1].
    set (chunks1 := if truthy pc then chunks ++ [strip pc] else chunks) in *.
    destruct (Nat.ltb_spec max_chars (length sentence)) as [Hbig | Hsmall].
    + rewrite force_split_spec.
      destruct (slices_spec max_chars sentence positive) as [Hcat Hall].
      destruct (IH (chunks1 ++ slices max_chars sentence) [])
        as (chunks' & pc' & -> & ? & ? & Hink);
        [by apply Forall_app | simpl; lia |].
      exists chunks', pc'. repeat split; try done.
      rewrite Hink, concat_app, ink_app, Hcat, Hink1.
      simpl. by rewrite <- !(assoc_L (++)).
    + destruct (IH chunks1 (sentence ++ [" "%char]))
        as (chunks' & pc' & -> & ? & ? & Hink); [done | |].
      { etrans; [by apply length_strip_snoc | done]. }
      exists chunks', pc'. repeat split; try done.
      rewrite Hink, Hink1, ink_app, (ink_space " "%char) by done.
      by rewrite app_nil_r, <- !(assoc_L (++)).
Qed.

Lemma split_paragraph_spec (para : str) (chunks : list str) :
  fits max_chars chunks →
  ∃ chunks',
    split_paragraph max_chars para chunks = inr chunks'
    ∧ fits max_chars chunks' ∧ ink (concat chunks') = ink (concat chunks) ++ ink para.
Proof.
  intros Hfit. unfold split_paragraph.
  destruct (sentence_loop_spec (split_sentences para) chunks [])
    as (chunks' & pc' & -> & Hfit' & Hpc' & Hink); [done | simpl; lia |].
  destruct (flush_spec chunks' pc' Hfit' Hpc') as [Hfit1 Hink1].
  eexists. split; [done|]. split; [exact Hfit1|].
  rewrite Hink1, Hink, ink_split_sentences. done.
Qed.

Lemma packed_snoc current current_len para :
  packed max_chars current current_len → current_len + length para ≤ max_chars →
  packed max_chars (current ++ [para]) (current_len + (length para + 2)).
Proof.
  intros Hp Hle.
  assert (Hne : ∃ q qs, current ++ [para] = q :: qs)
    by (destruct current; simpl; eauto).
  destruct Hne as (q & qs & Heq).
  unfold packed. rewrite Heq. cbn beta iota. rewrite <- Heq, join_snoc.
  destruct current as [|p ps]; simpl in Hp.
  - subst. simpl. lia.
  - destruct Hp as [-> Hmax]. rewrite !length_app. simpl length. lia.
Qed.

Lemma flush_current_spec (chunks current : list str) (current_len : nat) :
  fits max_chars chunks → packed max_chars current current_len →
  let chunks1 :=
    match current with _ :: _ => chunks ++ [join blank2 current] | [] => chunks end in
  fits max_chars chunks1
  ∧ ink (concat chunks1) = ink (concat chunks) ++ ink (concat current).
Proof.
  intros Hfit Hp. destruct current as [|p ps]; cbn beta iota zeta.
  - split; [done|]. simpl. by rewrite app_nil_r.
  - destruct Hp as [_ Hmax]. split; [by apply fits_snoc|].
    rewrite concat_app, ink_app, <- (ink_join_blank (p :: ps)).
    unfold blank2. simpl concat. by rewrite app_nil_r.
Qed.

Lemma paragraph_loop_spec (paragraphs : list str) :
  ∀ chunks current current_len,
    fits max_chars chunks → packed max_chars current current_len →
    ∃ chunks' current' current_len',
      paragraph_loop max_chars paragraphs chunks current current_len
      = inr (chunks', current')
      ∧ fits max_chars chunks' ∧ packed max_chars current' current_len'
      ∧ ink (concat chunks') ++ ink (concat current')
        = ink (concat chunks) ++ ink (concat current) ++ ink (concat paragraphs).
Proof.
  induction paragraphs as [|para rest IH]; intros chunks current current_len Hfit Hp.
  { exists chunks, current, current_len. simpl. by rewrite app_nil_r. }
  simpl paragraph_loop. simpl concat. rewrite ink_app.
  destruct (Nat.leb_spec (current_len + length para) max_chars) as [Hle | Hgt].
  - destruct (IH chunks (current ++ [para]) (current_len + (length para + 2)))
      as (chunks' & current' & len' & -> & ? & ? & Hink);
      [done | by apply packed_snoc |].
    exists chunks', current', len'. repeat split; try done.
    rewrite Hink, concat_app, ink_app. simpl. rewrite app_nil_r.
    by rewrite <- !(assoc_L (++)).
  - destruct (flush_current_spec chunks current current_len Hfit Hp)
      as [Hfit1 Hink1].
    set (chunks1 := match current with
                    | _ :: _ => chunks ++ [join blank2 current]
                    | [] => chunks
                    end) in *.
    assert (Hstate :
      (let '(chunks, current, current_len) :=
         match current with
         | _ :: _ => (chunks ++ [join blank2 current], [], 0)
         | [] => (chunks, current, current_len)
         end in
       if max_chars <? length para then
         match split_paragraph max_chars para chunks with
         | inl e => inl e
         | inr chunks => paragraph_loop max_chars rest chunks current current_len
         end
       else paragraph_loop max_chars rest chunks [para] (length para + 2))
      = if max_chars <? length para then
          match split_paragraph max_chars para chunks1 with
          | inl e => inl e
          | inr chunks => paragraph_loop max_chars rest chunks [] 0
          end
        else paragraph_loop max_chars rest chunks1 [para] (length para + 2)).
    { subst chunks1. destruct current; [|done]. simpl in Hp. by subst. }
    rewrite Hstate. clear Hstate.
    destruct (Nat.ltb_spec max_chars (length para)) as [Hbig | Hsmall].
    + destruct (split_paragraph_spec para chunks1 Hfit1) as (chunks2 & -> & Hfit2 & Hink2).
      destruct (IH chunks2 [] 0) as (chunks' & current' & len' & -> & ? & ? & Hink);
        [done | reflexivity |].
      exists chunks', current', len'. repeat split; try done.
      rewrite Hink, Hink2, Hink1. simpl. by rewrite <- !(assoc_L (++)).
    + destruct (IH chunks1 [para] (length para + 2))
        as (chunks' & current' & len' & -> & ? & ? & Hink);
        [done | by split |].
      exists chunks', current', len'. repeat split; try done.
      rewrite Hink, Hink1. simpl. rewrite app_nil_r.
      by rewrite <- !(assoc_L (++)).
Qed.

Lemma _split_by_length_spec (text : str) :
  ∃ chunks,
    _split_by_length text max_chars = inr chunks
    ∧ fits max_chars chunks ∧ ink (concat chunks) = ink text.
Proof.
  unfold _split_by_length.
  destruct (paragraph_loop_spec (split_blank text) [] [] 0)
    as (chunks & current & len & -> & Hfit & Hp & Hink);
    [by constructor | reflexivity |].
  destruct (flush_current_spec chunks current len Hfit Hp) as [Hfit1 Hink1].
  eexists. split; [done|]. split; [exact Hfit1|].
  rewrite Hink1, Hink. simpl. apply ink_split_blank.
Qed.

Lemma hard_split_all_spec (chunks : list str) :
  ∀ final_chunks,
    fits max_chars final_chunks →
    ∃ units,
      hard_split_all max_chars chunks final_chunks = inr units
      ∧ fits max_chars units
      ∧ ink (concat units) = ink (concat final_chunks) ++ ink (concat chunks).
Proof.
  induction chunks as [|chunk rest IH]; intros final Hfit.
  { exists final. simpl. by rewrite app_nil_r. }
  simpl hard_split_all. simpl concat. rewrite ink_app.
  destruct (Nat.ltb_spec max_chars (length chunk)) as [Hbig | Hsmall].
  - destruct (_split_by_length_spec chunk) as (sub & -> & Hsub & Hink).
    destruct (IH (final ++ sub)) as (units & -> & ? & Hunits);
      [by apply Forall_app|].
    exists units. repeat split; try done.
    by rewrite Hunits, concat_app, ink_app, Hink, <- !(assoc_L (++)).
  - destruct (IH (final ++ [chunk])) as (units & -> & ? & Hunits);
      [by apply fits_snoc|].
    exists units. repeat split; try done.
    rewrite Hunits, concat_app, ink_app. simpl. rewrite app_nil_r.
    by rewrite <- !(assoc_L (++)).
Qed.

End hard_split.

Lemma ink_cascade (text : str) : ink (concat (cascade text)) = ink text.
Proof.
  unfold cascade, _split_by_chapter, _split_by_numbered_sections.
  destruct (length (stripped_parts (split_before at_chapter true text)) <=? 1).
  - destruct (length (stripped_parts (split_before at_numbered true text)) <=? 1).
    + simpl. by rewrite app_nil_r.
    + by rewrite ink_stripped_parts, concat_split_before.
  - destruct (length (stripped_parts (split_before at_chapter true text)) <=? 1).
    + simpl. by rewrite app_nil_r.
    + by rewrite ink_stripped_parts, concat_split_before.
Qed.

(** C5.  For a positive limit the segmenter returns a list of units;
    every unit is at most [MAX_CHUNK_CHARS] characters long, the pieces
    of a force-split sentence included; and the units, read in order,
    carry the characters of the input that are not white space, all of
    them, in the order of the input. *)
Theorem chunks_bounded_and_in_order (MAX_CHUNK_CHARS : nat) (text : str) :
  0 < MAX_CHUNK_CHARS →
  ∃ units,
    chunk_manuscript MAX_CHUNK_CHARS text = inr units
    ∧ Forall (λ u, length u ≤ MAX_CHUNK_CHARS) units
    ∧ ink (concat units) = ink text.
Proof.
  intros Hmax. unfold chunk_manuscript.
  destruct (hard_split_all_spec MAX_CHUNK_CHARS Hmax (cascade text) [])
    as (units & Hrun & Hfit & Hink); [by constructor|].
  exists units. split; [done|]. split; [done|].
  rewrite Hink. simpl. apply ink_cascade.
Qed.

End chunker_facts.

Section chunker_examples.
Import py chunker samples.

Lemma chunks_bounded_and_in_order_witness :
  chunk_manuscript 100 two_chapters
  = inr [s "Chapter 1" ++ [nl] ++ s "A."; s "Chapter 2" ++ [nl] ++ s "B."]
  ∧ ∃ units,
      chunk_manuscript 100 two_chapters = inr units
      ∧ Forall (λ u, length u ≤ 100) units
      ∧ ink (concat units) = ink two_chapters.
Proof.
  split; [reflexivity|].
  apply (chunks_bounded_and_in_order 100 two_chapters). lia.
Defined.

Example sentences_are_packed_and_force_split :
  _split_by_length (s "Pumps move fluid. Valves steer it! Motors? Supercalifragilistic.") 20
  = inr [s "Pumps move fluid."; s "Valves steer it!"; s "Motors?";
         s "Supercalifragilistic"; s "."].
Proof. reflexivity. Qed.

(** C9.  The segmenter returns an empty unit: for an empty text; for a
    text that opens with a blank line before a full paragraph, under
    the default limit of 800; and, through the chapter strategy, for a
    chapter in which two blank lines stand before a full paragraph. *)
Theorem segmenter_emits_empty_units :
  chunk_manuscript 800 [] = inr [[]]
  ∧ chunk_manuscript 800 (blank_then_full 800) = inr [[]; repeat "x"%char 800]
  ∧ _split_by_length (blank_then_full 10) 10 = inr [[]; repeat "x"%char 10]
  ∧ chunk_manuscript 20 spaced_chapter
    = inr [ s "Chapter 1" ++ [nl] ++ s "Alpha beta"; s " gamma delta epsilon"; s ".";
            []; s "Zeta eta theta iota."; s "Chapter 2" ++ [nl] ++ s "B." ].
Proof. vm_compute. done. Qed.

End chunker_examples.

(** * Further properties *)

(** ** The nodes of the loop *)

Section node_facts.
Import py agents graph.
Local Open Scope Z_scope.

Variable env : Env.

Lemma attempts_calls (model : str) (n calls : nat) :
  (calls ≤ snd (attempts env (remote_call env) model n calls) ≤ calls + n)%nat.
Proof.
  revert calls. induction n as [|n IH]; intros calls; simpl; [lia|].
  destruct (missing_key env model); simpl; [lia|].
  destruct (acompletion env calls) as [e | r]; simpl; [|lia].
  destruct (retryable e); simpl; [|lia].
  specialize (IH (S calls)). lia.
Qed.

Lemma drafter_attempts_none (model : str) (n calls : nat) :
  ∃ calls', (calls ≤ calls' ≤ calls + n)%nat
    ∧ (drafter_attempts env model n calls = (inr None, calls')
       ∨ ∃ e, drafter_attempts env model n calls = (inl e, calls')).
Proof.
  revert calls. induction n as [|n IH]; intros calls; simpl.
  { exists calls. split; [lia | by left]. }
  destruct (missing_key env model).
  { exists calls. split; [lia | by left]. }
  destruct (acompletion env calls) as [e | r].
  - destruct (retryable e).
    + destruct (IH (S calls)) as (c & Hc & Hr). exists c. split; [lia | done].
    + exists (S calls). split; [lia | right; by eexists].
  - destruct (IH (S calls)) as (c & Hc & Hr). exists c. split; [lia | done].
Qed.

(** X1.  The plan step, for every state and every environment, makes no
    remote call, raises nothing, changes no field but the analysis, and
    leaves an analysis that is not empty and begins with
    [Error: Analyst]. *)
Theorem analyst_never_plans (st : BookState) (calls : nat) :
  ∃ a, analyst_node env st calls = (inr (set_analysis a st), calls)
       ∧ a ≠ []
       ∧ startswith a (s "Error: Analyst") = true.
Proof.
  destruct (analyst_node_leaves_error env st calls) as (a & Hnode & Ha).
  exists a. split; [exact Hnode|].
  apply andb_true_iff in Ha as [Ht Hs]. split; [by destruct a | exact Hs].
Qed.

(** X2.  Whenever the draft step returns, whatever the plan and whatever
    the service answers, the text it returns is the unit unchanged, the
    revision count has grown by exactly one, every other field is as
    before, and at most three remote calls were made. *)
Theorem drafter_returns_the_unit (st st' : BookState) (calls calls' : nat) :
  drafter_node env st calls = (inr st', calls') →
  st' = set_draft (current_chunk st) (revision_count st + 1) st
  ∧ (calls ≤ calls' ≤ calls + 3)%nat.
Proof.
  unfold drafter_node.
  destruct (blank (current_chunk st)); [intros [= <- <-]; split; [done | lia]|].
  destruct (truthy (analysis st) && startswith (analysis st) (s "Error: Analyst"));
    [intros [= <- <-]; split; [done | lia]|].
  destruct (drafter_attempts_none (_get_model env) 3 calls)
    as (c & Hc & [-> | (e & ->)]); [|done].
  intros [= <- <-]. done.
Qed.

(** X3.  A draft shorter than the target is rejected by the review
    without a remote call: the feedback is the low-effort message, which
    is not an approval, so the router asks for a revision until the cap
    is reached. *)
Theorem critic_rejects_short_draft_locally (st : BookState) (calls : nat) :
  blank (expanded_chunk st) = false →
  blank (current_chunk st) = false →
  len (expanded_chunk st) < target_chars st →
  critic_node env st calls
  = (inr (set_feedback
            (low_effort_rejection (len (expanded_chunk st)) (target_chars st)) st),
     calls)
  ∧ startswith (low_effort_rejection (len (expanded_chunk st)) (target_chars st))
               (s "LOW EFFORT") = true
  ∧ _should_revise
      (set_feedback (low_effort_rejection (len (expanded_chunk st)) (target_chars st)) st)
    = (if MAX_REVISIONS <=? revision_count st then END else goto drafter).
Proof.
  intros He Ho Hshort. unfold critic_node, local_verdict.
  rewrite He, Ho. apply Z.ltb_lt in Hshort. rewrite Hshort.
  split; [done|]. split; [reflexivity|]. reflexivity.
Qed.

(** X4.  An empty or blank draft, or an empty or blank original, is
    approved by default without a remote call. *)
Theorem critic_approves_blank_by_default (st : BookState) (calls : nat) :
  blank (expanded_chunk st) = true ∨ blank (current_chunk st) = true →
  critic_node env st calls = (inr (set_feedback (s "APPROVED") st), calls)
  ∧ _should_revise (set_feedback (s "APPROVED") st) = END.
Proof.
  intros Hb. unfold critic_node, local_verdict.
  split; [|reflexivity].
  destruct (blank (expanded_chunk st)); [done|].
  destruct Hb as [? | ->]; done.
Qed.

(** X5.  The review step never raises: it returns a state that differs
    from the one it was given in the feedback only, after at most five
    remote calls. *)
Theorem critic_always_returns_within_five_calls (st : BookState) (calls : nat) :
  ∃ f calls',
    critic_node env st calls = (inr (set_feedback f st), calls')
    ∧ (calls ≤ calls' ≤ calls + 5)%nat.
Proof.
  unfold critic_node. destruct (local_verdict st) as [f|].
  { exists f, calls. split; [done | lia]. }
  pose proof (attempts_calls (_get_model env) 5 calls) as Hb.
  destruct (attempts env (remote_call env) (_get_model env) 5 calls)
    as [[| [|[|[[|??]|]]] | |] c]; simpl in Hb; eexists _, c; split; done.
Qed.

End node_facts.

(** ** Runs of the graph *)

Section run_facts.
Import py agents graph.
Local Open Scope Z_scope.

Variable env : Env.

(** The review step in general: it returns, touches the feedback only,
    makes at most five calls, and none when the draft is short. *)
Lemma critic_node_shape (st : BookState) (calls : nat) :
  ∃ f calls',
    critic_node env st calls = (inr (set_feedback f st), calls')
    ∧ (calls ≤ calls' ≤ calls + 5)%nat
    ∧ (blank (expanded_chunk st) = false → blank (current_chunk st) = false →
       len (expanded_chunk st) < target_chars st → calls' = calls).
Proof.
  unfold critic_node. destruct (local_verdict st) as [f|] eqn:Hlocal.
  { exists f, calls. split; [done|]. split; [lia | done]. }
  assert (Hlong : blank (expanded_chunk st) = false → blank (current_chunk st) = false →
                  len (expanded_chunk st) < target_chars st → False).
  { intros He Ho Hshort. unfold local_verdict in Hlocal.
    rewrite He, Ho in Hlocal. apply Z.ltb_lt in Hshort. by rewrite Hshort in Hlocal. }
  pose proof (attempts_calls env (_get_model env) 5 calls) as Hb.
  destruct (attempts env (remote_call env) (_get_model env) 5 calls)
    as [[| [|[|[[|??]|]]] | |] c]; simpl in Hb; eexists _, c;
    (split; [done|]); (split; [done|]); intros; exfalso; auto.
Qed.

Lemma rounds_bounded (n : nat) :
  ∀ (fuel : nat) (st : BookState) (calls : nat),
    (2 * S n ≤ fuel)%nat →
    truthy (analysis st) && startswith (analysis st) (s "Error: Analyst") = true →
    revision_count st = MAX_REVISIONS - Z.of_nat (S n) →
    ∃ final,
      result (supersteps env fuel drafter st calls) = inr final
      ∧ (2 ≤ length (trace (supersteps env fuel drafter st calls)) ≤ 2 * S n)%nat
      ∧ (calls ≤ calls_after (supersteps env fuel drafter st calls)
         ≤ calls + 5 * S n)%nat
      ∧ revision_count st < revision_count final ≤ MAX_REVISIONS
      ∧ expanded_chunk final = current_chunk st
      ∧ current_chunk final = current_chunk st
      ∧ (blank (current_chunk st) = false →
         len (current_chunk st) < target_chars st →
         calls_after (supersteps env fuel drafter st calls) = calls).
Proof.
  induction n as [|n IH]; intros fuel st calls Hfuel Herr Hrc;
    (destruct fuel as [|[|fuel]]; [lia | lia |]);
    destruct (round_unfold env fuel st calls Herr) as (f & calls' & Hc & ->);
    destruct (critic_node_shape
                (set_draft (current_chunk st) (revision_count st + 1) st) calls)
      as (f' & c' & Hc' & Hbound & Hquiet);
    cbv zeta in Hc; rewrite Hc in Hc'; injection Hc' as _ <-;
    cbn [expanded_chunk current_chunk target_chars set_draft] in Hquiet;
    unfold _should_revise; cbn [feedback set_feedback revision_count set_draft];
    destruct (approved f).
  - eexists. cbn [result trace calls_after length]. unfold MAX_REVISIONS in *.
    split; [reflexivity|]. simpl. repeat split; try lia; auto.
  - destruct (Z.leb_spec MAX_REVISIONS (revision_count st + 1)).
    + eexists. cbn [result trace calls_after length]. unfold MAX_REVISIONS in *.
      split; [reflexivity|]. simpl. repeat split; try lia; auto.
    + unfold MAX_REVISIONS in *. lia.
  - eexists. cbn [result trace calls_after length]. unfold MAX_REVISIONS in *.
    split; [reflexivity|]. simpl. repeat split; try lia; auto.
  - destruct (Z.leb_spec MAX_REVISIONS (revision_count st + 1)).
    + eexists. cbn [result trace calls_after length]. unfold MAX_REVISIONS in *.
      split; [reflexivity|]. simpl. repeat split; try lia; auto.
    + set (st3 := set_feedback f
                    (set_draft (current_chunk st) (revision_count st + 1) st)) in *.
      destruct (IH fuel st3 calls')
        as (final & Hres & Hlen & Hcalls & Hcount & Hexp & Hcur & Hq);
        [lia | done | simpl; unfold MAX_REVISIONS in *; lia |].
      exists final. cbn [result trace calls_after length].
      cbn [current_chunk target_chars revision_count st3 set_feedback set_draft]
        in Hcount, Hexp, Hcur, Hq.
      split; [exact Hres|]. split; [lia|]. split; [lia|]. split; [lia|].
      split; [exact Hexp|]. split; [exact Hcur|].
      intros Hb Hshort. rewrite (Hq Hb Hshort). auto.
Qed.

Lemma run_bounded_from_analyst (fuel : nat) (st0 : BookState) (calls : nat) :
  (6 ≤ fuel)%nat →
  revision_count st0 = 0 →
  ∃ final,
    result (supersteps env (S fuel) analyst st0 calls) = inr final
    ∧ (3 ≤ length (trace (supersteps env (S fuel) analyst st0 calls)) ≤ 7)%nat
    ∧ (calls ≤ calls_after (supersteps env (S fuel) analyst st0 calls)
       ≤ calls + 15)%nat
    ∧ 1 ≤ revision_count final ≤ MAX_REVISIONS
    ∧ expanded_chunk final = current_chunk st0
    ∧ current_chunk final = current_chunk st0
    ∧ (blank (current_chunk st0) = false →
       len (current_chunk st0) < target_chars st0 →
       calls_after (supersteps env (S fuel) analyst st0 calls) = calls).
Proof.
  intros Hfuel Hrc. rewrite supersteps_S. cbn [node_fn edge].
  destruct (analyst_node_leaves_error env st0 calls) as (a & -> & Herr).
  destruct (rounds_bounded 2 fuel (set_analysis a st0) calls)
    as (final & Hres & Hlen & Hcalls & Hcount & Hexp & Hcur & Hq);
    [lia | exact Herr | simpl; rewrite Hrc; reflexivity |].
  cbn [current_chunk target_chars revision_count set_analysis]
    in Hcount, Hexp, Hcur, Hq.
  exists final. cbn [result trace calls_after length].
  split; [exact Hres|]. split; [lia|]. split; [lia|]. split; [lia|].
  split; [exact Hexp|]. split; [exact Hcur | exact Hq].
Qed.

Lemma ainvoke_bounded (st0 : BookState) (calls : nat) :
  revision_count st0 = 0 →
  ∃ final,
    result (ainvoke env st0 calls) = inr final
    ∧ (3 ≤ length (trace (ainvoke env st0 calls)) ≤ 7)%nat
    ∧ (calls ≤ calls_after (ainvoke env st0 calls) ≤ calls + 15)%nat
    ∧ 1 ≤ revision_count final ≤ MAX_REVISIONS
    ∧ expanded_chunk final = current_chunk st0
    ∧ current_chunk final = current_chunk st0
    ∧ (blank (current_chunk st0) = false →
       len (current_chunk st0) < target_chars st0 →
       calls_after (ainvoke env st0 calls) = calls).
Proof.
  unfold ainvoke, RECURSION_LIMIT. intros Hrc.
  assert (Hfuel : (6 ≤ 24)%nat) by lia.
  exact (run_bounded_from_analyst 24 st0 calls Hfuel Hrc).
Qed.

(** X6.  Started with a revision count of 0, every run of the graph,
    whatever the service answers, ends normally: no exception leaves it
    and the recursion limit is not reached.  It runs between 3 and 7
    nodes, makes at most 15 remote calls, ends with a revision count
    between 1 and 3, and the expanded text it returns is the unit it was
    given. *)
Theorem graph_run_is_bounded (st0 : BookState) (calls : nat) :
  revision_count st0 = 0 →
  ∃ final,
    result (ainvoke env st0 calls) = inr final
    ∧ (3 ≤ length (trace (ainvoke env st0 calls)) ≤ 7)%nat
    ∧ (calls ≤ calls_after (ainvoke env st0 calls) ≤ calls + 15)%nat
    ∧ 1 ≤ revision_count final ≤ MAX_REVISIONS
    ∧ expanded_chunk final = current_chunk st0.
Proof.
  intros Hrc.
  destruct (ainvoke_bounded st0 calls Hrc)
    as (final & Hres & Hlen & Hcalls & Hcount & Hexp & _).
  exists final. split; [exact Hres|]. split; [exact Hlen|].
  split; [exact Hcalls|]. split; [exact Hcount | exact Hexp].
Qed.

End run_facts.

(** ** Units through the scheduler *)

Section unit_facts.
Import py agents scheduler invariants.
Local Open Scope Z_scope.

Variable env : Env.
Variable total : nat.

(** A unit that is not blank and shorter than 22,000 characters is
    shorter than its target. *)
Lemma target_exceeds_short_unit (chunk : str) :
  blank chunk = false → len chunk < 22000 → len chunk < target_for env total chunk.
Proof.
  intros Hb Hshort. unfold target_for.
  assert (0 < len chunk).
  { unfold blank in Hb. destruct chunk; [done|]. unfold len. simpl length. lia. }
  generalize (Z.quot (TARGET_PAGES env * 3000) (Z.of_nat total)). intros q. lia.
Qed.

(** What the unit pipeline does to an unchecked unit. *)
Lemma expand_chunk_shape (i : nat) (chunk : str) (w : World) :
  fst (expand_chunk env total i chunk w) = chunk
  ∧ chunk_files (snd (expand_chunk env total i chunk w)) = chunk_files w
  ∧ (remote_calls w ≤ remote_calls (snd (expand_chunk env total i chunk w))
     ≤ remote_calls w + 15)%nat
  ∧ (len chunk < 22000 →
     remote_calls (snd (expand_chunk env total i chunk w)) = remote_calls w)
  ∧ dlq_failed_chunks (snd (expand_chunk env total i chunk w))
    = if blank chunk then dlq_failed_chunks w
      else dlq_failed_chunks w
           ++ [mkLine (Z.of_nat i + 1) (s "unchanged_expansion") chunk].
Proof.
  unfold expand_chunk. destruct (blank chunk) eqn:Hb.
  { simpl. repeat split; try done; lia. }
  destruct (ainvoke_bounded env (initial_state env total chunk) (remote_calls w))
    as (final & Hres & _ & Hcalls & _ & Hexp & _ & Hquiet); [done|].
  cbn zeta. rewrite Hres.
  cbn [current_chunk target_chars initial_state] in Hexp, Hquiet.
  rewrite Hexp. unfold or_else.
  assert (Htruthy : truthy chunk = true).
  { unfold blank in Hb. by destruct (truthy chunk). }
  rewrite Htruthy, Hb, bool_decide_eq_true_2 by done.
  cbn [fst snd chunk_files remote_calls dlq_failed_chunks log_failure set_calls].
  split; [done|]. split; [done|]. split; [exact Hcalls|]. split; [|done].
  intros Hshort. apply Hquiet; [done|]. by apply target_exceeds_short_unit.
Qed.

(** X7.  A unit without a checkpoint comes back from [process_chunk]
    as it went in, whatever the service answers; its checkpoint file is
    written with that text; a blank unit leaves the failure log alone,
    and any other unit adds exactly one line to it, marked
    [unchanged_expansion] under the one-based index of the unit.
    ([total] is the number of units, so at least one.) *)
Theorem process_chunk_returns_the_unit (i : nat) (chunk : str) (w : World) :
  (0 < total)%nat →
  chunk_files w !! i = None →
  fst (process_chunk env total i chunk w) = chunk
  ∧ chunk_files (snd (process_chunk env total i chunk w))
    = <[i := chunk]> (chunk_files w)
  ∧ dlq_failed_chunks (snd (process_chunk env total i chunk w))
    = if blank chunk then dlq_failed_chunks w
      else dlq_failed_chunks w
           ++ [mkLine (Z.of_nat i + 1) (s "unchanged_expansion") chunk].
Proof.
  intros _ Hnone. unfold process_chunk. rewrite Hnone.
  destruct (expand_chunk_shape i chunk w) as (Hfst & Hfiles & _ & _ & Hlog).
  destruct (expand_chunk env total i chunk w) as [expanded w1].
  cbn [fst snd] in *. subst expanded.
  cbn [chunk_files dlq_failed_chunks write_chunk]. by rewrite Hfiles.
Qed.

(** X8.  Processing a unit shorter than 22,000 characters makes no
    remote call, with or without a checkpoint; processing any unit makes
    at most 15. *)
Theorem short_units_cost_no_remote_call (i : nat) (chunk : str) (w : World) :
  (0 < total)%nat →
  (remote_calls w ≤ remote_calls (snd (process_chunk env total i chunk w))
   ≤ remote_calls w + 15)%nat
  ∧ (len chunk < 22000 →
     remote_calls (snd (process_chunk env total i chunk w)) = remote_calls w).
Proof.
  intros _.
  unfold process_chunk. destruct (chunk_files w !! i); [simpl; split; [lia | done]|].
  destruct (expand_chunk_shape i chunk w) as (_ & _ & Hcalls & Hquiet & _).
  destruct (expand_chunk env total i chunk w) as [expanded w1].
  cbn [fst snd remote_calls write_chunk] in *. done.
Qed.

End unit_facts.

Section phase_2_facts.
Import py agents scheduler invariants.

Variable env : Env.

Lemma gather_returns_units (total : nat) (chunks : list str) :
  ∀ i w,
    (∀ k, k < length chunks → chunk_files w !! (i + k) = None) →
    fst (gather env total i chunks w) = chunks.
Proof.
  induction chunks as [|chunk rest IH]; intros i w Hnone; [done|]. simpl.
  assert (Hi : chunk_files w !! i = None).
  { specialize (Hnone 0). rewrite Nat.add_0_r in Hnone. apply Hnone. simpl. lia. }
  pose proof (process_chunk_checkpoint env total i chunk w) as [_ Hother].
  pose proof (expand_chunk_shape env total i chunk w) as (Hfst & _).
  unfold process_chunk in *. rewrite Hi in *.
  destruct (expand_chunk env total i chunk w) as [expanded w1].
  cbn [fst snd] in *. subst expanded.
  specialize (IH (S i) (write_chunk i chunk w1)).
  destruct (gather env total (S i) rest (write_chunk i chunk w1)) as [rs w2].
  cbn [fst] in *. f_equal. apply IH. intros k Hk.
  rewrite Hother by lia. replace (S i + k) with (i + S k) by lia.
  apply Hnone. simpl. lia.
Qed.

(** X9.  Started with no checkpoint for any of its units, phase 2
    returns the units themselves, in order: no text is changed. *)
Theorem phase_2_returns_the_units (chunks : list str) (w : World) :
  (∀ k, k < length chunks → chunk_files w !! k = None) →
  fst (run_phase_2 env chunks w) = chunks.
Proof. intros Hnone. unfold run_phase_2. by apply gather_returns_units. Qed.

(** X10.  Phase 2 returns one result per unit, in the order of the
    units, and when it ends the checkpoint file of every unit exists and
    holds the result returned for that unit. *)
Theorem phase_2_results_follow_unit_order (chunks : list str) (w : World) :
  length (fst (run_phase_2 env chunks w)) = length chunks
  ∧ ∀ k r, fst (run_phase_2 env chunks w) !! k = Some r →
           chunk_files (snd (run_phase_2 env chunks w)) !! k = Some r.
Proof.
  unfold run_phase_2.
  destruct (gather_checkpoints env (length chunks) chunks 0 w) as (Hlen & Hck & _).
  split; [exact Hlen|]. intros k r Hk. by apply (Hck k r).
Qed.

Lemma gather_keeps_checkpoints (total : nat) (chunks : list str) :
  ∀ i w j text,
    chunk_files w !! j = Some text →
    chunk_files (snd (gather env total i chunks w)) !! j = Some text
    ∧ ∀ k, j = i + k → k < length chunks →
           fst (gather env total i chunks w) !! k = Some text.
Proof.
  induction chunks as [|chunk rest IH]; intros i w j text Hj; simpl.
  { split; [done|]. intros; simpl in *; lia. }
  pose proof (process_chunk_checkpoint env total i chunk w) as [Hi Hother].
  pose proof (process_chunk_skips env total i chunk w) as Hskip.
  destruct (process_chunk env total i chunk w) as [r w1]. cbn [fst snd] in *.
  assert (Hj1 : chunk_files w1 !! j = Some text).
  { destruct (decide (j = i)) as [-> | Hne].
    - specialize (Hskip text Hj). by injection Hskip as -> ->.
    - by rewrite Hother. }
  destruct (IH (S i) w1 j text Hj1) as [Hkeep Hres].
  destruct (gather env total (S i) rest w1) as [rs w2]. cbn [fst snd] in *.
  split; [exact Hkeep|]. intros [|k] Hk Hlt.
  - rewrite Nat.add_0_r in Hk. subst j.
    specialize (Hskip text Hj). by injection Hskip as -> ->.
  - simpl. apply Hres; simpl in *; lia.
Qed.

(** X11.  A checkpoint file that exists when phase 2 starts is never
    rewritten: it holds the same text when phase 2 ends, and when it
    belongs to one of the units, that text is the unit's result. *)
Theorem phase_2_never_rewrites_a_checkpoint (chunks : list str) (w : World)
    (j : nat) (text : str) :
  chunk_files w !! j = Some text →
  chunk_files (snd (run_phase_2 env chunks w)) !! j = Some text
  ∧ (j < length chunks → fst (run_phase_2 env chunks w) !! j = Some text).
Proof.
  intros Hj. unfold run_phase_2.
  destruct (gather_keeps_checkpoints (length chunks) chunks 0 w j text Hj)
    as [Hkeep Hres].
  split; [exact Hkeep|]. intros Hlt. by apply Hres.
Qed.

End phase_2_facts.

(** ** Phase gates *)

Section gate_facts.
Import pipeline checkpoints invariants.
Local Open Scope Z_scope.

Ltac in_list :=
  repeat match goal with
    | H : _ ∈ _ ++ _ |- _ => apply elem_of_app in H as [H | H]
    | H : _ ∈ _ :: _ |- _ => apply elem_of_cons in H as [H | H]
    | H : _ ∈ [] |- _ => by apply elem_of_nil in H
    end.












Lemma purge_leads (h : Host) (log : list action) :
  Purge ∈ log →
  Purge ∈ out (then_ (then_ (then_ (phase_1 h 1 log) (phase_2 h 1)) (phase_3 h 1))
                     (phase_4 h 1)).
Proof.
  intros Hin.
  assert (H1 : Purge ∈ out (phase_1 h 1 log)).
  { unfold phase_1. simpl. destruct (pdf_path_given h); simpl; set_solver. }
  destruct (phase_1 h 1 log) as [l1 | l1]; simpl in *; [done|].
  assert (H2 : Purge ∈ out (phase_2 h 1 l1)).
  { unfold phase_2. simpl.
    destruct (manuscript_present h), (key_present h); simpl; set_solver. }
  destruct (phase_2 h 1 l1) as [l2 | l2]; simpl in *; [done|].
  assert (H3 : Purge ∈ out (phase_3 h 1 l2)).
  { unfold phase_3. simpl. destruct (expanded_present h); simpl; set_solver. }
  destruct (phase_3 h 1 l2) as [l3 | l3]; simpl in *; [done|].
  unfold phase_4. destruct (renderable_present h), (template_present h); simpl;
    set_solver.
Qed.

(** X13.  The process purges the output directory exactly when it
    starts at phase 1 with neither [--resume] nor [--is-resume] and the
    input file exists. *)
Theorem purge_exactly_on_a_fresh_start (a : Args) (f : StateFile) (h : Host) :
  Purge ∈ snd (cli a f h)
  ↔ start_phase_of a f = 1 ∧ resume a = false ∧ is_resume_flag a = false
    ∧ pdf_input_exists a = true.
Proof.
  unfold cli. split.
  - destruct (resume a && (4 <? start_phase_of a f)) eqn:Hdone;
      [intros H; simpl in H; by apply elem_of_nil in H|].
    destruct ((start_phase_of a f <=? 1) && negb (pdf_input_exists a)) eqn:Hmiss;
      [intros H; simpl in H; by apply elem_of_nil in H|].
    simpl. intros [(_ & Hsp & Hres) | (j & [? | ?] & _)]%main_log; [|done|done].
    apply orb_false_iff in Hres as [? ?]. rewrite Hsp in Hmiss. simpl in Hmiss.
    by destruct (pdf_input_exists a).
  - intros (Hsp & Hres & Hflag & Hpdf). rewrite Hsp, Hres, Hflag, Hpdf. simpl.
    unfold main. simpl. apply purge_leads. by left.
Qed.

(** X14.  A run asked to jump to phase [p] with [--phase p] neither
    executes nor saves a phase before [p]. *)
Theorem phase_flag_skips_earlier_phases (a : Args) (f : StateFile) (h : Host) (p : Z) :
  resume a = false → phase a = Some p → 1 ≤ p ≤ 4 →
  ∀ j, j < p → (Work j ∉ snd (cli a f h)) ∧ (Save j ∉ snd (cli a f h)).
Proof.
  intros Hres Hp Hrange j Hj.
  assert (Hsp : start_phase_of a f = p).
  { unfold start_phase_of. rewrite Hres, Hp.
    destruct (Z.eqb_spec p 0); [lia | done]. }
  unfold cli. rewrite Hres, Hsp. simpl.
  destruct ((p <=? 1) && negb (pdf_input_exists a)); simpl;
    [split; apply not_elem_of_nil|].
  split; intros Hin;
    apply main_log in Hin as [(? & _) | (j' & [Hx | Hx] & _ & Hgate)];
    try done; injection Hx as <-; lia.
Qed.

Lemma state_after_snoc_save (log : list action) (j : Z) (f : StateFile) :
  state_after (log ++ [Save j]) f = Stored (Some j).
Proof. unfold state_after. by rewrite foldl_app. Qed.

Lemma save_4_is_last (h : Host) (sp : Z) (r : bool) :
  Save 4 ∈ main h sp r → ∃ log, main h sp r = log ++ [Save 4].
Proof.
  unfold main. set (X := then_ _ (phase_3 h sp)).
  assert (HX : Save 4 ∉ out X).
  { intros Hin. subst X.
    apply (then_out _ _ (λ y, sp ≤ 3 ∧ of_phase 3 y)) in Hin as [Hin | [_ [?|?]]];
      [| done | done | intros ??; by apply phase_3_out].
    apply (then_out _ _ (λ y, sp ≤ 2 ∧ of_phase 2 y)) in Hin as [Hin | [_ [?|?]]];
      [| done | done | intros ??; by apply phase_2_out].
    apply phase_1_out in Hin as [Hin | [_ [?|?]]]; [| done | done].
    destruct ((sp =? 1) && negb r); in_list; done. }
  destruct X as [log | log]; simpl in *; [done|].
  unfold phase_4. destruct (renderable_present h), (template_present h); simpl.
  - intros _. exists (log ++ [Work 4]). by rewrite <- (assoc_L (++)).
  - intros Hin. in_list; done.
  - done.
  - done.
Qed.

(** X15.  Once a run has saved the checkpoint of phase 4, the next run
    started with [--resume] reports that the pipeline is complete and
    does nothing. *)
Theorem resume_after_completion_is_a_no_op (a a' : Args) (f : StateFile) (h h' : Host) :
  Save 4 ∈ snd (cli a f h) →
  resume a' = true →
  cli a' (state_after (snd (cli a f h)) f) h' = (AlreadyComplete, []).
Proof.
  intros Hin Hres.
  assert (Hstate : state_after (snd (cli a f h)) f = Stored (Some 4)).
  { unfold cli in *.
    destruct (resume a && (4 <? start_phase_of a f));
      [simpl in Hin; by apply elem_of_nil in Hin|].
    destruct ((start_phase_of a f <=? 1) && negb (pdf_input_exists a));
      [simpl in Hin; by apply elem_of_nil in Hin|].
    simpl in *. apply save_4_is_last in Hin as [log ->].
    apply state_after_snoc_save. }
  rewrite Hstate. unfold cli, start_phase_of. rewrite Hres. reflexivity.
Qed.

End gate_facts.

(** ** What the purge removes and what it leaves *)

Section purge_frame.
Import purge tree.

Lemma remove_item_none (item p : path) (fs : FS) :
  fs !! p = None → remove_item item fs !! p = None.
Proof.
  intros Hp. unfold remove_item, unlink, rmtree.
  destruct (fs !! item) as [[| |]|]; [| |done|done];
    destruct (denied fs item) as [kept|]; simpl; try done; rewrite !lookup_fs; simpl.
  - rewrite lookup_delete. by case_decide.
  - apply map_lookup_filter_None. by left.
  - apply map_lookup_filter_None. by left.
Qed.

Lemma remove_item_gone (item q : path) (fs : FS) :
  denied fs item = None →
  item `prefix_of` q →
  fs !! item = Some dir ∨ (q = item ∧ fs !! item ≠ Some special) ∨ fs !! q = None →
  remove_item item fs !! q = None.
Proof.
  intros Hfree Hpre Hq. unfold remove_item, unlink, rmtree. rewrite Hfree.
  destruct (fs !! item) as [[| |]|] eqn:Hitem; simpl.
  - rewrite lookup_fs. simpl.
    destruct Hq as [? | [[-> _] | Hq]]; [done | apply lookup_delete_eq |].
    rewrite lookup_delete. by case_decide.
  - rewrite lookup_fs. simpl. apply map_lookup_filter_None. right.
    intros k _. simpl. tauto.
  - destruct Hq as [? | [[_ ?] | Hq]]; done.
  - destruct Hq as [? | [[-> _] | Hq]]; done.
Qed.

(** An item whose deletion is refused, or that is neither a file nor a
    directory, outlives every deletion among its siblings, its own
    included. *)
Lemma remove_item_stays (h item : path) (fs : FS) (k : kind) :
  length h = length item →
  is_Some (denied fs item) ∨ k = special →
  fs !! item = Some k →
  remove_item h fs !! item = Some k.
Proof.
  intros Hlen Hstuck Hitem. destruct (decide (h = item)) as [-> | Hne].
  - unfold remove_item, unlink, rmtree. rewrite Hitem.
    destruct Hstuck as [[kept Hkept] | ->]; [|done]. rewrite Hkept.
    destruct k; simpl; [done | | done].
    rewrite lookup_fs. simpl. apply map_lookup_filter_Some. split; [done|].
    simpl. right. by left.
  - rewrite remove_item_other; [done|]. intros Hpre.
    by apply same_length_prefix in Hpre.
Qed.

(** The loop shared by [clear_with_exceptions] and [clear_directory]. *)
Lemma clearing_none (skip : path → bool) (items : list path) :
  ∀ fs p, fs !! p = None →
    foldl (λ fs item, if skip item then fs else remove_item item fs) fs items !! p
    = None.
Proof.
  induction items as [|h items IH]; intros fs p Hp; simpl; [done|].
  apply IH. destruct (skip h); [done | by apply remove_item_none].
Qed.

Lemma clearing_other (skip : path → bool) (items : list path) (p : path) :
  (∀ item, item ∈ items → skip item = true ∨ ¬ item `prefix_of` p) →
  ∀ fs, foldl (λ fs item, if skip item then fs else remove_item item fs) fs items !! p
        = fs !! p.
Proof.
  induction items as [|h items IH]; intros Hitems fs; simpl; [done|].
  rewrite IH by (intros; apply Hitems; by right).
  destruct (Hitems h) as [-> | Hpre]; [by left | done |].
  destruct (skip h); [done | by apply remove_item_other].
Qed.

Lemma clearing_gone (skip : path → bool) (items : list path) (item q : path) :
  skip item = false → item `prefix_of` q →
  (∀ h, h ∈ items → length h = length item) →
  item ∈ items →
  ∀ fs, denied fs item = None →
        fs !! item = Some dir ∨ (q = item ∧ fs !! item ≠ Some special)
        ∨ fs !! q = None →
        foldl (λ fs item, if skip item then fs else remove_item item fs) fs items !! q
        = None.
Proof.
  intros Hskip Hpre. induction items as [|h items IH]; intros Hlen Hin fs Hfree Hq.
  { by apply elem_of_nil in Hin. }
  simpl. destruct (decide (h = item)) as [-> | Hne].
  - rewrite Hskip. apply clearing_none. by apply remove_item_gone.
  - apply elem_of_cons in Hin as [-> | Hin]; [done|].
    apply IH; [intros; apply Hlen; by right | done | |].
    { destruct (skip h); [done | by rewrite denied_remove_item]. }
    destruct (skip h); [done|].
    assert (Hsame : remove_item h fs !! item = fs !! item).
    { apply remove_item_other. intros Hp.
      apply same_length_prefix in Hp; [done|]. apply Hlen. by left. }
    rewrite Hsame. destruct Hq as [Hd | [Hd | Hq]]; [by left | right; by left |].
    right. right. by apply remove_item_none.
Qed.

Lemma clearing_stays (skip : path → bool) (items : list path) (item : path) (k : kind) :
  (∀ h, h ∈ items → length h = length item) →
  ∀ fs, is_Some (denied fs item) ∨ k = special →
        fs !! item = Some k →
        foldl (λ fs item, if skip item then fs else remove_item item fs) fs items !! item
        = Some k.
Proof.
  induction items as [|h items IH]; intros Hlen fs Hstuck Hitem; simpl; [done|].
  apply IH; [intros; apply Hlen; by right | |].
  - destruct (skip h); [done | by rewrite denied_remove_item].
  - destruct (skip h); [done|]. apply remove_item_stays; [|done|done].
    apply Hlen. by left.
Qed.

Lemma elem_of_iterdir (d item : path) (fs : FS) :
  item ∈ iterdir d fs ↔ is_child d item = true ∧ is_Some (fs !! item).
Proof.
  unfold iterdir. rewrite list_elem_of_In, filter_In, <- list_elem_of_In.
  rewrite list_elem_of_fmap. split.
  - intros [([p k] & -> & Hin%elem_of_map_to_list) Hc]. simpl in *.
    split; [done|]. by exists k.
  - intros [Hc [k Hk]]. split; [|done]. exists (item, k). split; [done|].
    by apply elem_of_map_to_list.
Qed.

Lemma is_child_spec (d p : path) :
  is_child d p = true ↔ ∃ name, p = d ++ [name].
Proof.
  unfold is_child. rewrite bool_decide_eq_true. split.
  - intros [Hlen Htake]. rewrite <- (take_drop (length d) p), Htake.
    assert (Hd : length (drop (length d) p) = 1) by (rewrite length_drop; lia).
    destruct (drop (length d) p) as [|name [|??]]; simpl in Hd; try lia. by exists name.
  - intros [name ->]. rewrite length_app. simpl. split; [lia|].
    by rewrite take_app_length.
Qed.

Lemma iterdir_lengths (d item : path) (fs : FS) (name : string) :
  item ∈ iterdir d fs → length item = length (d ++ [name]).
Proof.
  intros [Hc _]%elem_of_iterdir. apply is_child_spec in Hc as [n ->].
  by rewrite !length_app.
Qed.

Lemma child_not_above (d item p : path) :
  ¬ below d p → is_child d item = true → ¬ item `prefix_of` p.
Proof.
  intros Hd [n ->]%is_child_spec [rest ->]. apply Hd.
  exists n, rest. by rewrite <- (assoc_L (++)).
Qed.

Lemma mkdir_p_none (d p : path) (fs : FS) :
  length d < length p → fs !! p = None → snd (mkdir_p d fs) !! p = None.
Proof.
  intros Hlen. unfold mkdir_p. generalize (seq 1 (length d)) as ns. intros ns.
  revert fs. induction ns as [|n ns IH]; intros fs Hp; simpl; [done|].
  destruct (fs !! take n d) as [[| |]|]; [done | by apply IH | done |].
  apply IH. rewrite lookup_fs. simpl.
  rewrite lookup_insert_ne; [done|]. intros Heq.
  assert (length (take n d) = length p) by (by rewrite Heq).
  rewrite length_take in *. lia.
Qed.

Lemma clear_with_exceptions_none d exceptions fs p :
  fs !! p = None → snd (clear_with_exceptions d exceptions fs) !! p = None.
Proof.
  intros Hp. unfold clear_with_exceptions.
  destruct (fs !! d) as [[| |]|]; [done| |done|done]. simpl.
  by apply (clearing_none (λ item, bool_decide (item ∈ omap id exceptions))).
Qed.

Lemma clear_directory_none d keep fs p :
  fs !! p = None → snd (clear_directory d keep fs) !! p = None.
Proof.
  intros Hp. unfold clear_directory.
  destruct (fs !! d) as [[| |]|]; [done| |done|done]. simpl.
  by apply (clearing_none (λ item, bool_decide (keep = Some item))).
Qed.

Lemma clear_with_exceptions_frame d exceptions fs p :
  ¬ below d p → snd (clear_with_exceptions d exceptions fs) !! p = fs !! p.
Proof.
  intros Hp. unfold clear_with_exceptions.
  destruct (fs !! d) as [[| |]|]; [done| |done|done]. simpl.
  apply (clearing_other (λ item, bool_decide (item ∈ omap id exceptions))).
  intros item [Hc _]%elem_of_iterdir. right. by apply (child_not_above d).
Qed.

Lemma clear_directory_frame d keep fs p :
  ¬ below d p → snd (clear_directory d keep fs) !! p = fs !! p.
Proof.
  intros Hp. unfold clear_directory.
  destruct (fs !! d) as [[| |]|]; [done| |done|done]. simpl.
  apply (clearing_other (λ item, bool_decide (keep = Some item))).
  intros item [Hc _]%elem_of_iterdir. right. by apply (child_not_above d).
Qed.

Lemma denied_clearing (skip : path → bool) (items : list path) :
  ∀ fs, denied (foldl (λ fs item, if skip item then fs else remove_item item fs)
                      fs items)
        = denied fs.
Proof.
  induction items as [|h items IH]; intros fs; simpl; [done|].
  rewrite IH. destruct (skip h); [done | apply denied_remove_item].
Qed.

Lemma output_entry_not_below_chroma (BASE_DIR : path) (name : string) :
  ¬ below (chroma_db BASE_DIR) (OUTPUT_DIR BASE_DIR ++ [name]).
Proof.
  intros (n & rest & Heq). unfold chroma_db, OUTPUT_DIR in Heq.
  rewrite <- !(assoc_L (++)) in Heq. apply app_inv_head in Heq.
  simpl in Heq. discriminate.
Qed.

(** X16.  A preserved path, the source document or the job registry
    file, that is an entry of the output directory itself is still there
    after the purge, with the same kind. *)
Theorem purge_keeps_preserved_entries (BASE_DIR : path) (pdf_path : option path)
    (fs : FS) (name : string) (k : kind) :
  pdf_path = Some (OUTPUT_DIR BASE_DIR ++ [name])
  ∨ OUTPUT_DIR BASE_DIR ++ [name] = jobs_json BASE_DIR →
  fs !! (OUTPUT_DIR BASE_DIR ++ [name]) = Some k →
  purge_fresh_run BASE_DIR pdf_path fs !! (OUTPUT_DIR BASE_DIR ++ [name]) = Some k.
Proof. intros Hkeep Hp. by apply purge_keeps_top_level. Qed.

(** X17.  When the output directory is a directory, an entry of it that
    is not one of the two preserved paths is gone after the purge,
    together with everything below it if it was a directory, provided
    it is a file or a directory and its deletion is not refused.  An
    entry whose deletion raises is still there afterwards (the handler
    prints a warning and the loop goes on), and so is an entry that is
    neither a file nor a directory. *)
Theorem purge_removes_other_entries (BASE_DIR : path) (pdf_path : option path)
    (fs : FS) (name : string) :
  fs !! OUTPUT_DIR BASE_DIR = Some dir →
  pdf_path ≠ Some (OUTPUT_DIR BASE_DIR ++ [name]) →
  OUTPUT_DIR BASE_DIR ++ [name] ≠ jobs_json BASE_DIR →
  (denied fs (OUTPUT_DIR BASE_DIR ++ [name]) = None →
   ∀ q, (OUTPUT_DIR BASE_DIR ++ [name]) `prefix_of` q →
        (q = OUTPUT_DIR BASE_DIR ++ [name]
         ∧ fs !! (OUTPUT_DIR BASE_DIR ++ [name]) ≠ Some special)
        ∨ fs !! (OUTPUT_DIR BASE_DIR ++ [name]) = Some dir →
        purge_fresh_run BASE_DIR pdf_path fs !! q = None)
  ∧ (∀ k, is_Some (denied fs (OUTPUT_DIR BASE_DIR ++ [name])) ∨ k = special →
          fs !! (OUTPUT_DIR BASE_DIR ++ [name]) = Some k →
          purge_fresh_run BASE_DIR pdf_path fs !! (OUTPUT_DIR BASE_DIR ++ [name])
          = Some k).
Proof.
  intros Hout Hpdf Hjobs. set (item := OUTPUT_DIR BASE_DIR ++ [name]) in *.
  set (skip := λ it : path,
         bool_decide (it ∈ omap id [pdf_path; Some (jobs_json BASE_DIR)])).
  assert (Hskip : skip item = false).
  { apply bool_decide_eq_false. intros Hin.
    apply list_elem_of_omap in Hin as (e & He & Hid). simpl in Hid. subst e.
    apply elem_of_cons in He as [He | He]; [by rewrite <- He in Hpdf|].
    apply list_elem_of_singleton in He. by injection He. }
  assert (Hlen : ∀ h, h ∈ iterdir (OUTPUT_DIR BASE_DIR) fs → length h = length item).
  { intros h Hh. by eapply iterdir_lengths. }
  pose proof (purge_fresh_run_steps BASE_DIR pdf_path fs) as Hsteps. cbv zeta in Hsteps.
  remember (snd (clear_with_exceptions (OUTPUT_DIR BASE_DIR)
                   [pdf_path; Some (jobs_json BASE_DIR)] fs)) as fs1 eqn:Hfs1.
  assert (Hfs1' : fs1 = foldl (λ fs it, if skip it then fs else remove_item it fs) fs
                          (iterdir (OUTPUT_DIR BASE_DIR) fs)).
  { rewrite Hfs1. unfold clear_with_exceptions. by rewrite Hout. }
  split.
  - intros Hfree q Hpre Hq.
    assert (H1 : fs1 !! q = None).
    { rewrite Hfs1'. destruct (fs !! item) as [ki|] eqn:Hitem.
      - apply (clearing_gone skip _ item q); try done.
        + apply elem_of_iterdir. split; [|by eauto]. apply is_child_spec. by exists name.
        + rewrite Hitem. destruct Hq as [[-> Hq] | Hq]; [right; by left | by left].
      - apply clearing_none. destruct Hq as [[-> _] | Hq]; [done | congruence]. }
    assert (H2 : snd (clear_directory (chroma_db BASE_DIR) None fs1) !! q = None)
      by (by apply clear_directory_none).
    destruct Hsteps as [-> | [-> | ->]]; [done | done |].
    apply mkdir_p_none; [|done].
    destruct Hpre as [rest ->]. subst item. rewrite !length_app. simpl. lia.
  - intros k Hstuck Hitem.
    assert (H1 : fs1 !! item = Some k).
    { rewrite Hfs1'. by apply clearing_stays. }
    assert (H2 : snd (clear_directory (chroma_db BASE_DIR) None fs1) !! item = Some k).
    { rewrite clear_directory_frame; [done|]. apply output_entry_not_below_chroma. }
    destruct Hsteps as [-> | [-> | ->]]; [done | done | by apply mkdir_p_keeps].
Qed.

(** X18.  The purge removes nothing outside the two data directories:
    a path that lies neither strictly below the output directory nor
    strictly below the vector store directory is there afterwards with
    the same kind; the two directories themselves are among them. *)
Theorem purge_leaves_the_rest (BASE_DIR : path) (pdf_path : option path)
    (fs : FS) (p : path) (k : kind) :
  ¬ below (OUTPUT_DIR BASE_DIR) p →
  ¬ below (chroma_db BASE_DIR) p →
  fs !! p = Some k →
  purge_fresh_run BASE_DIR pdf_path fs !! p = Some k.
Proof.
  intros Hout Hchroma Hp.
  pose proof (purge_fresh_run_steps BASE_DIR pdf_path fs) as Hsteps. cbv zeta in Hsteps.
  assert (H1 : snd (clear_with_exceptions (OUTPUT_DIR BASE_DIR)
                      [pdf_path; Some (jobs_json BASE_DIR)] fs) !! p = Some k)
    by (by rewrite clear_with_exceptions_frame).
  assert (H2 : snd (clear_directory (chroma_db BASE_DIR) None
                      (snd (clear_with_exceptions (OUTPUT_DIR BASE_DIR)
                              [pdf_path; Some (jobs_json BASE_DIR)] fs))) !! p = Some k)
    by (by rewrite clear_directory_frame).
  destruct Hsteps as [-> | [-> | ->]]; [done | done | by apply mkdir_p_keeps].
Qed.

End purge_frame.

(** ** The broker in general *)

Section broker_laws.
Import py sse_manager.

(** A queue holds no more than its capacity. *)
Lemma put_nowait_bounded (q q' : Queue) (event : Event) :
  put_nowait q event = inr q' →
  maxsize q' = maxsize q ∧ qid q' = qid q ∧ items q' = items q ++ [event]
  ∧ (maxsize q ≠ 0 → length (items q') ≤ maxsize q).
Proof.
  unfold put_nowait, full. destruct (Nat.eqb_spec (maxsize q) 0) as [Hz | Hz].
  - intros [= <-]. simpl. repeat split; done.
  - destruct (Nat.leb_spec (maxsize q) (length (items q))); [done|].
    intros [= <-]. simpl. repeat split; try done.
    intros _. rewrite length_app. simpl. lia.
Qed.

Lemma publish_loop_pointwise (subs : list Queue) (event : Event) :
  Forall2 (λ q q', maxsize q' = maxsize q ∧ qid q' = qid q
                   ∧ (items q' = items q
                      ∨ (full q = false ∧ items q' = items q ++ [event]
                         ∧ (maxsize q ≠ 0 → length (items q') ≤ maxsize q))))
          subs (fst (publish_loop subs event)).
Proof.
  induction subs as [|q subs IH]; simpl; [constructor|].
  destruct (put_nowait q event) as [[|] | q'] eqn:Hput.
  - destruct (publish_loop subs event) as [rest r]. simpl in *.
    constructor; [by auto | done].
  - unfold put_nowait in Hput. by destruct (full q).
  - simpl. constructor.
    + pose proof Hput as Hfull. unfold put_nowait in Hfull.
      destruct (full q) eqn:Hf; [done|].
      apply put_nowait_bounded in Hput as (? & ? & ? & ?). by auto 10.
    + apply Forall2_same_length_lookup. split; [done|]. intros i x y Hx Hy.
      rewrite Hx in Hy. injection Hy as <-. by auto.
Qed.

(** X19.  When the job has no subscriber, or the queue of every
    subscriber is full, [publish] returns normally and changes nothing:
    the event is dropped. *)
Theorem publish_drops_when_all_full (job_id : string) (event : Event) (qs : Queues) :
  forallb full (default [] (qs !! job_id)) = true →
  publish job_id event qs = (qs, None).
Proof.
  intros Hfull. unfold publish. destruct (qs !! job_id) as [subs|] eqn:Hsubs; [|done].
  simpl in Hfull. rewrite (publish_loop_all_full subs event Hfull).
  by rewrite insert_id.
Qed.

(** X20.  [publish] touches the queues of its own job only.  Every
    queue of that job keeps its identity and capacity and either is as
    before or, having had room, has gained the event at its end; a
    bounded queue never holds more than its capacity afterwards. *)
Theorem publish_is_local_and_bounded (job_id : string) (event : Event) (qs : Queues) :
  (∀ other, other ≠ job_id → fst (publish job_id event qs) !! other = qs !! other)
  ∧ Forall2 (λ q q', maxsize q' = maxsize q ∧ qid q' = qid q
                     ∧ (items q' = items q
                        ∨ (full q = false ∧ items q' = items q ++ [event]
                           ∧ (maxsize q ≠ 0 → length (items q') ≤ maxsize q))))
            (default [] (qs !! job_id))
            (default [] (fst (publish job_id event qs) !! job_id)).
Proof.
  unfold publish. destruct (qs !! job_id) as [subs|] eqn:Hsubs.
  - pose proof (publish_loop_pointwise subs event) as Hpt.
    destruct (publish_loop subs event) as [subs' r]. simpl in *. split.
    + intros other Hne. by rewrite lookup_insert_ne.
    + by rewrite lookup_insert_eq.
  - simpl. split; [done|]. rewrite Hsubs. constructor.
Qed.

(** X21.  Subscribing registers, behind the subscribers already there,
    an empty queue of capacity 100; leaving removes that queue and
    nothing else, so the subscribers of the job are again those there
    were before, and other jobs are never touched. *)
Theorem subscribe_round_trip (fresh : nat) (job_id : string) (qs : Queues) :
  Forall (λ q, qid q ≠ fresh) (default [] (qs !! job_id)) →
  subscribe_enter fresh job_id qs !! job_id
  = Some (default [] (qs !! job_id) ++ [mkQueue fresh 100 []])
  ∧ subscribe_exit fresh job_id (subscribe_enter fresh job_id qs) !! job_id
    = Some (default [] (qs !! job_id))
  ∧ ∀ other, other ≠ job_id →
      subscribe_exit fresh job_id (subscribe_enter fresh job_id qs) !! other
      = qs !! other.
Proof.
  intros Hfresh. unfold subscribe_enter, subscribe_exit.
  split; [by rewrite lookup_insert_eq|]. split.
  - rewrite !lookup_insert_eq. simpl. f_equal.
    rewrite List.filter_app. simpl. rewrite Nat.eqb_refl. simpl.
    rewrite app_nil_r. induction Hfresh as [|q l Hq _ IH]; [done|].
    simpl. destruct (Nat.eqb_spec (qid q) fresh); [done|]. simpl. by rewrite IH.
  - intros other Hne. by rewrite !lookup_insert_ne.
Qed.

End broker_laws.

(** ** The dead letter queue in general *)

Section dlq_laws.
Import py dlq invariants.
Local Open Scope Z_scope.

Lemma filter_filter_neg (P : Row → bool) (t : Table) :
  List.filter P (List.filter (λ r, negb (P r)) t) = [].
Proof.
  induction t as [|r t IH]; [done|]. simpl.
  destruct (P r) eqn:HP; simpl; [done|]. by rewrite HP.
Qed.

Lemma filter_idem (P : Row → bool) (t : Table) :
  List.filter P (List.filter P t) = List.filter P t.
Proof.
  induction t as [|r t IH]; [done|]. simpl.
  destruct (P r) eqn:HP; simpl; [|done]. by rewrite HP, IH.
Qed.

(** X22.  The last push under an id wins: after a push under an id, a
    second push under the same id whose phase SQLite can store leaves
    the table that the second push alone would have left, with exactly
    one row under the id, the second one (pending, retry count 0, error
    message cut to 500 characters); a second push whose phase does not
    fit 64 bits raises [OverflowError] and the row of the first push
    stays. *)
Theorem push_last_write_wins (now1 now2 chunk_id text1 text2 err1 err2 : str)
    (phase1 phase2 : Z) (t t1 : Table) :
  push now1 chunk_id text1 err1 phase1 t = inr t1 →
  (fits_int64 phase2 = true →
   ∃ t2,
     push now2 chunk_id text2 err2 phase2 t1 = inr t2
     ∧ push now2 chunk_id text2 err2 phase2 t = inr t2
     ∧ List.filter (λ r, bool_decide (id r = chunk_id)) t2
       = [mkRow chunk_id phase2 text2 (take 500 err2) 0 (s "pending") now2 now2])
  ∧ (fits_int64 phase2 = false →
     push now2 chunk_id text2 err2 phase2 t1 = inl OverflowError
     ∧ run_call (Push now2 chunk_id text2 err2 phase2) t1 = t1
     ∧ List.filter (λ r, bool_decide (id r = chunk_id)) t1
       = [mkRow chunk_id phase1 text1 (take 500 err1) 0 (s "pending") now1 now1]).
Proof.
  unfold run_call, push. destruct (fits_int64 phase1); [|done]. intros [= <-].
  split; intros ->.
  - eexists. split; [|split; [reflexivity|]].
    + rewrite List.filter_app. simpl. rewrite bool_decide_eq_true_2 by done. simpl.
      by rewrite app_nil_r, (filter_idem (λ r, negb (bool_decide (id r = chunk_id)))).
    + rewrite List.filter_app. simpl. rewrite bool_decide_eq_true_2 by done.
      by rewrite (filter_filter_neg (λ r, bool_decide (id r = chunk_id))).
  - split; [done|]. split; [done|].
    rewrite List.filter_app. simpl. rewrite bool_decide_eq_true_2 by done.
    by rewrite (filter_filter_neg (λ r, bool_decide (id r = chunk_id))).
Qed.

Lemma map_id_mark_resolved now i t : map id (mark_resolved now i t) = map id t.
Proof.
  unfold mark_resolved. rewrite List.map_map. apply List.map_ext.
  intros r. by case_bool_decide.
Qed.

Lemma retry_item_ids f now item a n t t' :
  retry_item f now item a n t = Some t' → map id t' = map id t.
Proof.
  revert a. induction n as [|n IH]; simpl; intros a; [done|].
  destruct (f (item_text item) a) as [|[|]]; eauto.
  intros [= <-]. apply map_id_mark_resolved.
Qed.

Lemma retry_fold_ids f now n items :
  ∀ t count,
    let r := foldl (λ acc item,
                      match retry_item f now item 0 n (fst acc) with
                      | Some t' => (t', snd acc + 1)
                      | None => acc
                      end) (t, count) items in
    map id (fst r) = map id t
    ∧ count ≤ snd r ≤ count + Z.of_nat (length items).
Proof.
  induction items as [|item items IH]; intros t count; simpl; [split; [done | lia]|].
  destruct (retry_item f now item 0 n t) as [t'|] eqn:Hitem; simpl.
  - destruct (IH t' (count + 1)) as [Hids Hcount]. simpl in *.
    split; [|lia]. rewrite Hids. by eapply retry_item_ids.
  - destruct (IH t count) as [Hids Hcount]. simpl in *. split; [done | lia].
Qed.

Lemma retry_all_ids_helper (f : str → nat → processed) (now : str) (n : nat)
    (t : Table) :
  map id (fst (retry_all f now n t)) = map id t
  ∧ 0 ≤ snd (retry_all f now n t) ≤ Z.of_nat (length (get_all (s "pending") t)).
Proof.
  unfold retry_all.
  destruct (retry_fold_ids f now n (get_all (s "pending") t) t 0) as [Hids Hcount].
  split; [exact Hids | lia].
Qed.

(** X23.  [retry_all] neither deletes nor adds a row: the ids of the
    table are the same, in the same order; and the number it reports as
    recovered lies between 0 and the number of rows that were pending. *)
Theorem retry_all_keeps_every_row (f : str → nat → processed) (now : str) (n : nat)
    (t : Table) :
  map id (fst (retry_all f now n t)) = map id t
  ∧ 0 ≤ snd (retry_all f now n t) ≤ Z.of_nat (length (get_all (s "pending") t)).
Proof. apply retry_all_ids_helper. Qed.

Lemma NoDup_filter_ids (P : Row → bool) (t : Table) :
  NoDup (map id t) → NoDup (map id (List.filter P t)).
Proof.
  induction t as [|r t IH]; simpl; [done|]. intros [Hr Ht]%NoDup_cons.
  destruct (P r); simpl; [|by auto]. apply NoDup_cons. split; [|by auto].
  intros Hin. apply Hr. apply list_elem_of_fmap in Hin as (r' & -> & Hin).
  apply list_elem_of_In, filter_In in Hin as [Hin _].
  apply list_elem_of_fmap. exists r'. split; [done | by apply list_elem_of_In].
Qed.

(** X24.  The primary key holds through every call: if no two rows
    share an id, then after any sequence of pushes, resolutions and
    replays no two rows share an id. *)
Theorem ids_stay_unique (cs : list call) (t : Table) :
  NoDup (map id t) → NoDup (map id (run_calls cs t)).
Proof.
  unfold run_calls. revert t. induction cs as [|c cs IH]; intros t Ht; simpl; [done|].
  apply IH. destruct c as [now i x e p | now i | f now n]; simpl.
  - unfold push. destruct (fits_int64 p); [|done].
    rewrite map_app. simpl. apply NoDup_app. split; [|split].
    + by apply NoDup_filter_ids.
    + intros j Hj Hin. apply list_elem_of_singleton in Hin. subst j.
      apply list_elem_of_fmap in Hj as (r & Hr & Hin).
      apply list_elem_of_In, filter_In in Hin as [_ Hne].
      apply negb_true_iff, bool_decide_eq_false in Hne. done.
    + apply NoDup_singleton.
  - by rewrite map_id_mark_resolved.
  - destruct (retry_all_ids_helper f now n t) as [-> _]. done.
Qed.

Lemma retry_item_succeeds f now item a n t :
  (∃ k, (k < n)%nat ∧ f (item_text item) (a + k)%nat = returned true) →
  retry_item f now item a n t = Some (mark_resolved now (item_id item) t).
Proof.
  revert a. induction n as [|n IH]; intros a (k & Hk & Hf); [lia|]. simpl.
  destruct k as [|k].
  - rewrite Nat.add_0_r in Hf. by rewrite Hf.
  - rewrite (IH (S a)).
    + by destruct (f (item_text item) a) as [|[|]].
    + exists k. split; [lia|]. by rewrite <- Hf, Nat.add_succ_r.
Qed.

Lemma retry_item_fails f now item a n t :
  (∀ k, (k < n)%nat → f (item_text item) (a + k)%nat ≠ returned true) →
  retry_item f now item a n t = None.
Proof.
  revert a. induction n as [|n IH]; intros a Hf; [done|]. simpl.
  pose proof (Hf 0%nat ltac:(lia)) as H0. rewrite Nat.add_0_r in H0.
  rewrite IH.
  - by destruct (f (item_text item) a) as [|[|]].
  - intros k Hk. rewrite Nat.add_succ_l, <- Nat.add_succ_r. apply Hf. lia.
Qed.

Lemma resolving_fold_elem now (items : list Item) :
  ∀ t r,
    r ∈ foldl (λ t item, mark_resolved now (item_id item) t) t items →
    status r = s "resolved" ∨ (r ∈ t ∧ id r ∉ map item_id items).
Proof.
  induction items as [|item items IH]; intros t r; simpl.
  - intros Hr. right. split; [done | by apply not_elem_of_nil].
  - intros [Hres | [Hin Hnot]]%IH; [by left|].
    apply mark_resolved_elem in Hin as (r0 & Hr0 & Hid & [[_ Hres] | [Hne ->]]);
      [by left|].
    right. split; [done|]. by apply not_elem_of_cons.
Qed.

Lemma retry_fold_succeeds f now n (items : list Item) :
  Forall (λ item, ∃ k, (k < n)%nat ∧ f (item_text item) k = returned true) items →
  ∀ t count,
    foldl (λ acc item,
             match retry_item f now item 0 n (fst acc) with
             | Some t' => (t', snd acc + 1)
             | None => acc
             end) (t, count) items
    = (foldl (λ t item, mark_resolved now (item_id item) t) t items,
       count + Z.of_nat (length items)).
Proof.
  induction 1 as [|item items Hitem _ IH]; intros t count; simpl.
  - f_equal. lia.
  - rewrite (retry_item_succeeds f now item 0 n t Hitem). simpl.
    rewrite IH. f_equal. lia.
Qed.

Lemma retry_fold_fails f now n (items : list Item) :
  Forall (λ item, ∀ k, (k < n)%nat → f (item_text item) k ≠ returned true) items →
  ∀ acc,
    foldl (λ acc item,
             match retry_item f now item 0 n (fst acc) with
             | Some t' => (t', snd acc + 1)
             | None => acc
             end) acc items
    = acc.
Proof.
  induction 1 as [|item items Hitem _ IH]; intros acc; simpl; [done|].
  by rewrite (retry_item_fails f now item 0 n (fst acc) Hitem), IH.
Qed.

(** X25.  If for the text of every pending row the processor succeeds
    at one of the [max_retries] attempts, [retry_all] reports every
    pending row as recovered and leaves no row pending. *)
Theorem retry_all_recovers_everything (f : str → nat → processed) (now : str)
    (n : nat) (t : Table) :
  Forall (λ item, ∃ k, (k < n)%nat ∧ f (item_text item) k = returned true)
         (get_all (s "pending") t) →
  get_all (s "pending") (fst (retry_all f now n t)) = []
  ∧ snd (retry_all f now n t) = Z.of_nat (length (get_all (s "pending") t)).
Proof.
  intros Hf. unfold retry_all. rewrite (retry_fold_succeeds f now n _ Hf). simpl.
  split; [|done]. unfold get_all at 1.
  match goal with |- map _ ?l = [] => assert (Hnil : l = []); [|by rewrite Hnil] end.
  apply elem_of_nil_inv. intros r [Hin Hst]%list_elem_of_In%filter_In.
  apply bool_decide_eq_true in Hst.
  apply list_elem_of_In, resolving_fold_elem in Hin as [Hres | [Hin Hnot]].
  - rewrite Hres in Hst. discriminate Hst.
  - apply Hnot. unfold get_all. apply list_elem_of_In. rewrite List.map_map. simpl.
    apply in_map_iff. exists r. split; [done|]. apply filter_In.
    split; [by apply list_elem_of_In | by apply bool_decide_eq_true].
Qed.

(** X26.  If the processor succeeds for no pending row within
    [max_retries] attempts (it raises, or returns nothing usable, or
    [max_retries] is 0), [retry_all] recovers 0 rows and the table is
    as it was. *)
Theorem retry_all_without_success_changes_nothing (f : str → nat → processed)
    (now : str) (n : nat) (t : Table) :
  Forall (λ item, ∀ k, (k < n)%nat → f (item_text item) k ≠ returned true)
         (get_all (s "pending") t) →
  retry_all f now n t = (t, 0).
Proof.
  intros Hf. unfold retry_all. by rewrite (retry_fold_fails f now n _ Hf).
Qed.

End dlq_laws.

(** ** The segmenter in general *)

Section segmenter_laws.
Import py chunker invariants shape.

Lemma lstrip_head (x : str) (c : ascii) (r : str) :
  lstrip x = c :: r → isspace c = false.
Proof.
  induction x as [|a x IH]; [done|]. simpl.
  destruct (isspace a) eqn:Ha; [done|]. by intros [= <- _].
Qed.

Lemma lstrip_suffix (x : str) : lstrip x `suffix_of` x.
Proof.
  induction x as [|a x IH]; [done|]. simpl.
  destruct (isspace a); [by apply suffix_cons_r | done].
Qed.

Lemma rstrip_prefix (x : str) : rstrip x `prefix_of` x.
Proof.
  unfold rstrip. destruct (lstrip_suffix (reverse x)) as [k Hk].
  exists (reverse k). apply (inj reverse).
  by rewrite reverse_app, !reverse_involutive.
Qed.

Lemma rstrip_last (x : str) (d : ascii) :
  last (rstrip x) = Some d → isspace d = false.
Proof.
  unfold rstrip. rewrite last_reverse.
  destruct (lstrip (reverse x)) as [|c r] eqn:Hl; [done|].
  intros [= <-]. by eapply lstrip_head.
Qed.

Lemma strip_trimmed (x : str) : strip x ≠ [] → trimmed (strip x).
Proof.
  unfold strip. intros Hne.
  destruct (rstrip (lstrip x)) as [|c r] eqn:Hr; [done|].
  destruct (last (c :: r)) as [d|] eqn:Hd; [|by apply last_None in Hd].
  exists c, d. split; [done|]. split; [done|]. split.
  - destruct (rstrip_prefix (lstrip x)) as [k Hk]. rewrite Hr in Hk.
    by eapply lstrip_head.
  - apply (rstrip_last (lstrip x)). by rewrite Hr.
Qed.

Lemma stripped_parts_trimmed (ps : list str) : Forall trimmed (stripped_parts ps).
Proof.
  unfold stripped_parts. apply Forall_forall. intros p Hp.
  apply list_elem_of_In, filter_In in Hp as [Hin Hp].
  apply in_map_iff in Hin as (x & <- & _).
  apply strip_trimmed. by destruct (strip x).
Qed.

(** X27.  Strategies A and B return parts that are not empty and have
    no white space at either end, and together hold the characters of
    the text that are not white space, in their order. *)
Theorem heading_parts_are_trimmed (text : str) :
  (Forall trimmed (_split_by_chapter text)
   ∧ ink (concat (_split_by_chapter text)) = ink text)
  ∧ (Forall trimmed (_split_by_numbered_sections text)
     ∧ ink (concat (_split_by_numbered_sections text)) = ink text).
Proof.
  unfold _split_by_chapter, _split_by_numbered_sections.
  rewrite !ink_stripped_parts, !concat_split_before.
  by auto using stripped_parts_trimmed.
Qed.

Lemma is_nl_eq (c : ascii) : is_nl c = true → c = nl.
Proof.
  unfold is_nl, code, nl. intros H%Nat.eqb_eq.
  by rewrite <- H, ascii_nat_embedding.
Qed.

Lemma split_blank_cons (x : str) : ∃ p ps, split_blank x = p :: ps.
Proof.
  induction x as [|c|c d x IH1 IH2] using str_ind2; [by eauto | by eauto |].
  change (split_blank (c :: d :: x))
    with (if is_nl c && is_nl d then [] :: split_blank x
          else cons_head c (split_blank (d :: x))).
  destruct (is_nl c && is_nl d); [by eauto|].
  destruct IH2 as (p & ps & ->). simpl. by eauto.
Qed.

Lemma join_cons_head (sep : str) (c : ascii) (ps : list str) :
  ps ≠ [] → join sep (cons_head c ps) = c :: join sep ps.
Proof. destruct ps as [|p [|q ps]]; done. Qed.

(** Joining the paragraphs gives the text back. *)
Lemma join_split_blank (x : str) : join blank2 (split_blank x) = x.
Proof.
  induction x as [|c|c d x IH1 IH2] using str_ind2; [done | done |].
  change (split_blank (c :: d :: x))
    with (if is_nl c && is_nl d then [] :: split_blank x
          else cons_head c (split_blank (d :: x))).
  destruct (is_nl c && is_nl d) eqn:Hnl.
  - apply andb_true_iff in Hnl as [->%is_nl_eq ->%is_nl_eq].
    destruct (split_blank_cons x) as (p & ps & Hx). rewrite Hx in *.
    change (join blank2 ([] :: p :: ps)) with (blank2 ++ join blank2 (p :: ps)).
    by rewrite IH1.
  - rewrite join_cons_head, IH2; [done|].
    by destruct (split_blank_cons (d :: x)) as (p & ps & ->).
Qed.

Lemma length_join_app (sep : str) (a b : list str) :
  length (join sep a) ≤ length (join sep (a ++ b)).
Proof.
  induction a as [|p a IH]; [simpl; lia|].
  destruct a as [|q a].
  - destruct b; simpl; [lia|]. rewrite length_app. lia.
  - change (join sep (p :: q :: a)) with (p ++ sep ++ join sep (q :: a)).
    change (join sep ((p :: q :: a) ++ b)) with (p ++ sep ++ join sep ((q :: a) ++ b)).
    rewrite !length_app. lia.
Qed.

Lemma paragraph_loop_fitting (max_chars : nat) (paragraphs : list str) :
  ∀ chunks current current_len,
    packed max_chars current current_len →
    length (join blank2 (current ++ paragraphs)) ≤ max_chars →
    paragraph_loop max_chars paragraphs chunks current current_len
    = inr (chunks, current ++ paragraphs).
Proof.
  induction paragraphs as [|para rest IH]; intros chunks current current_len Hp Hlen.
  - simpl. by rewrite app_nil_r.
  - simpl.
    assert (Hsnoc : length (join blank2 (current ++ [para])) ≤ max_chars).
    { etrans; [|exact Hlen].
      rewrite (cons_middle para current rest), app_assoc. apply length_join_app. }
    assert (Hfit : current_len + length para ≤ max_chars).
    { rewrite join_snoc in Hsnoc. destruct current as [|q current].
      - simpl in Hp. lia.
      - destruct Hp as [-> _]. rewrite !length_app in Hsnoc.
        change (length blank2) with 2 in Hsnoc. lia. }
    destruct (Nat.leb_spec (current_len + length para) max_chars); [|lia].
    rewrite IH.
    + by rewrite <- app_assoc.
    + unfold packed. destruct (current ++ [para]) as [|q l] eqn:Hq;
        [by destruct current|]. split; [|exact Hsnoc]. rewrite <- Hq.
      rewrite join_snoc. destruct current as [|q' current].
      * simpl in Hp. lia.
      * destruct Hp as [-> _]. rewrite !length_app.
        change (length blank2) with 2. lia.
    + by rewrite <- app_assoc.
Qed.

(** X28.  A text no longer than [max_chars] is not cut by
    [_split_by_length]: the result is the text itself, as one chunk,
    white space included. *)
Theorem fitting_text_is_one_chunk (text : str) (max_chars : nat) :
  length text ≤ max_chars →
  _split_by_length text max_chars = inr [text].
Proof.
  intros Hlen. unfold _split_by_length.
  rewrite (paragraph_loop_fitting max_chars (split_blank text) [] [] 0);
    [|reflexivity | by rewrite app_nil_l, join_split_blank].
  rewrite app_nil_l. destruct (split_blank_cons text) as (p & ps & Hx).
  rewrite <- (join_split_blank text) at 2. by rewrite Hx.
Qed.

Lemma split_blank_solid (x : str) :
  forallb (λ c, negb (isspace c)) x = true → split_blank x = [x].
Proof.
  induction x as [|c|c d x IH1 IH2] using str_ind2; [done | done |].
  intros Hx.
  change (split_blank (c :: d :: x))
    with (if is_nl c && is_nl d then [] :: split_blank x
          else cons_head c (split_blank (d :: x))).
  simpl in Hx. apply andb_true_iff in Hx as [Hc Hx].
  destruct (is_nl c) eqn:Hnl.
  - apply is_nl_space in Hnl. by rewrite Hnl in Hc.
  - cbn [andb]. by rewrite IH2.
Qed.

Lemma split_sentences_from_solid (x : str) :
  ∀ cur,
    forallb (λ c, negb (isspace c)) x = true →
    split_sentences_from cur None x = [reverse cur ++ x].
Proof.
  induction x as [|c x IH]; intros cur Hx; simpl.
  - by rewrite app_nil_r.
  - simpl in Hx. apply andb_true_iff in Hx as [Hc Hx].
    apply negb_true_iff in Hc. rewrite Hc. simpl.
    rewrite IH by done. by rewrite reverse_cons, <- app_assoc.
Qed.

(** X29.  A text without white space that is longer than [max_chars]
    is cut at every [max_chars]-th character and nowhere else: the
    chunks are the slices of the text, each of at most [max_chars]
    characters, and put end to end they are the text. *)
Theorem solid_text_is_cut_at_offsets (text : str) (max_chars : nat) :
  0 < max_chars → max_chars < length text →
  forallb (λ c, negb (isspace c)) text = true →
  _split_by_length text max_chars = inr (slices max_chars text)
  ∧ concat (slices max_chars text) = text
  ∧ Forall (λ p, length p ≤ max_chars) (slices max_chars text).
Proof.
  intros Hpos Hlong Hsolid. split; [|by apply slices_spec].
  unfold _split_by_length. rewrite (split_blank_solid text Hsolid).
  cbn [paragraph_loop].
  destruct (Nat.leb_spec (0 + length text) max_chars); [lia|].
  destruct (Nat.ltb_spec max_chars (length text)); [|lia].
  unfold split_paragraph, split_sentences.
  rewrite (split_sentences_from_solid text [] Hsolid).
  cbn [sentence_loop reverse app length truthy].
  change (reverse [] ++ text) with text.
  destruct (Nat.leb_spec (0 + length text + 1) max_chars); [lia|].
  destruct (Nat.ltb_spec max_chars (length text)); [|lia].
  rewrite (force_split_spec max_chars Hpos). by cbn.
Qed.

End segmenter_laws.

(** ** The log of a job *)

Section log_laws.
Import py jobs.

Lemma last_n_short {A} (n : nat) (x : list A) : length x ≤ n → last_n n x = x.
Proof. intros H. unfold last_n. by replace (length x - n) with 0 by lia. Qed.

Lemma length_last_n {A} (n : nat) (x : list A) : length (last_n n x) ≤ n.
Proof. unfold last_n. rewrite length_drop. lia. Qed.

Lemma last_n_snoc {A} (n : nat) (x : list A) (e : A) :
  0 < n → last_n n (last_n n x ++ [e]) = last_n n (x ++ [e]).
Proof.
  intros Hn. destruct (Nat.le_gt_cases (length x) n) as [Hle | Hgt].
  - by rewrite (last_n_short n x Hle).
  - unfold last_n. rewrite !length_app, length_drop. simpl.
    rewrite !drop_app_le by (rewrite ?length_drop; lia).
    rewrite drop_drop. do 2 f_equal. lia.
Qed.

Lemma append_log_lines (now : str) (id : string) (msg lvl src : str) (store : Jobs)
    (job : Job) :
  store !! id = Some job →
  append_log now id msg lvl src store
  = <[id := set_log_lines (last_n 500 (log_lines job ++ [mkEntry now lvl src msg])) job]>
      store.
Proof.
  intros Hjob. unfold append_log. rewrite Hjob. cbv zeta.
  destruct (Nat.ltb_spec 500 (length (log_lines job ++ [mkEntry now lvl src msg])));
    [done|]. by rewrite last_n_short.
Qed.

Lemma append_logs_lines (id : string) (entries : list LogEntry) :
  ∀ (store : Jobs) (job : Job),
    store !! id = Some job →
    length (log_lines job) ≤ 500 →
    append_logs id entries store
    = <[id := set_log_lines (last_n 500 (log_lines job ++ entries)) job]> store.
Proof.
  unfold append_logs.
  induction entries as [|e entries IH] using rev_ind; intros store job Hjob Hlen.
  - simpl. rewrite app_nil_r, last_n_short by done.
    destruct job. by rewrite insert_id.
  - rewrite foldl_app. simpl. rewrite (IH store job Hjob Hlen).
    erewrite append_log_lines by apply lookup_insert_eq.
    rewrite insert_insert_eq. f_equal. unfold set_log_lines. simpl. f_equal.
    destruct e as [ts lvl src msg]. simpl.
    rewrite last_n_snoc by lia. by rewrite app_assoc.
Qed.

(** X30.  The log of a job is a window of 500 lines: after any number
    of calls of [append_log] the job holds the last 500 of the lines it
    had and the lines appended, oldest first, and so never more than
    500; its other fields and the other jobs are as before. *)
Theorem log_keeps_the_last_500_lines (id : string) (entries : list LogEntry)
    (store : Jobs) (job : Job) :
  store !! id = Some job →
  length (log_lines job) ≤ 500 →
  ∃ job',
    append_logs id entries store !! id = Some job'
    ∧ log_lines job' = last_n 500 (log_lines job ++ entries)
    ∧ length (log_lines job') ≤ 500
    ∧ set_log_lines (log_lines job) job' = job
    ∧ ∀ other, other ≠ id → append_logs id entries store !! other = store !! other.
Proof.
  intros Hjob Hlen. rewrite (append_logs_lines id entries store job Hjob Hlen).
  eexists. split; [apply lookup_insert_eq|]. simpl.
  split; [done|]. split; [apply length_last_n|]. split; [by destruct job|].
  intros other Hne. by rewrite lookup_insert_ne.
Qed.

End log_laws.

(** ** Examples of the further properties *)

Section further_examples.
Import py samples cases.

Section nodes.
Import agents graph.
Local Open Scope Z_scope.

Lemma drafter_returns_the_unit_witness :
  drafter_node demanding_env short_unit 0 = (inr short_draft, 3%nat)
  ∧ short_draft
    = set_draft (current_chunk short_unit) (revision_count short_unit + 1) short_unit
  ∧ (0 ≤ 3 ≤ 0 + 3)%nat.
Proof.
  assert (H : drafter_node demanding_env short_unit 0 = (inr short_draft, 3%nat))
    by (vm_compute; reflexivity).
  split; [exact H|].
  exact (drafter_returns_the_unit demanding_env short_unit short_draft 0 3 H).
Defined.

Lemma critic_rejects_short_draft_locally_witness :
  len (expanded_chunk short_draft) = 28 ∧ target_chars short_draft = 22000
  ∧ critic_node demanding_env short_draft 0
    = (inr (set_feedback (low_effort_rejection 28 22000) short_draft), 0%nat)
  ∧ _should_revise (set_feedback (low_effort_rejection 28 22000) short_draft)
    = goto drafter.
Proof.
  destruct (critic_rejects_short_draft_locally demanding_env short_draft 0)
    as (Hnode & _ & Hroute); [reflexivity | reflexivity | reflexivity |].
  split; [reflexivity|]. split; [reflexivity|]. split; [exact Hnode | exact Hroute].
Defined.

Lemma critic_approves_blank_by_default_witness :
  blank (expanded_chunk blank_draft) = true
  ∧ critic_node demanding_env blank_draft 0
    = (inr (set_feedback (s "APPROVED") blank_draft), 0%nat)
  ∧ _should_revise (set_feedback (s "APPROVED") blank_draft) = END.
Proof.
  split; [reflexivity|].
  apply (critic_approves_blank_by_default demanding_env blank_draft 0).
  left. reflexivity.
Defined.

Lemma graph_run_is_bounded_witness :
  revision_count short_unit = 0
  ∧ ∃ final,
      result (ainvoke demanding_env short_unit 0) = inr final
      ∧ (3 ≤ length (trace (ainvoke demanding_env short_unit 0)) ≤ 7)%nat
      ∧ (0 ≤ calls_after (ainvoke demanding_env short_unit 0) ≤ 0 + 15)%nat
      ∧ 1 ≤ revision_count final ≤ MAX_REVISIONS
      ∧ expanded_chunk final = current_chunk short_unit.
Proof.
  split; [reflexivity|].
  exact (graph_run_is_bounded demanding_env short_unit 0 eq_refl).
Defined.

End nodes.

Section units.
Import agents scheduler.
Local Open Scope Z_scope.

Lemma process_chunk_returns_the_unit_witness :
  chunk_files fresh_world !! 0%nat = None
  ∧ fst (process_chunk demanding_env 2 0 (s "Heat flows.") fresh_world) = s "Heat flows."
  ∧ chunk_files (snd (process_chunk demanding_env 2 0 (s "Heat flows.") fresh_world))
    = <[0%nat := s "Heat flows."]> (chunk_files fresh_world)
  ∧ dlq_failed_chunks (snd (process_chunk demanding_env 2 0 (s "Heat flows.") fresh_world))
    = [mkLine 1 (s "unchanged_expansion") (s "Heat flows.")].
Proof.
  split; [reflexivity|].
  exact (process_chunk_returns_the_unit demanding_env 2 0 (s "Heat flows.") fresh_world
           ltac:(lia) eq_refl).
Defined.

Lemma short_units_cost_no_remote_call_witness :
  chunk_files restarted_world !! 1%nat = None
  ∧ len (s "Work is done.") < 22000
  ∧ remote_calls (snd (process_chunk demanding_env 2 1 (s "Work is done.") restarted_world))
    = 7%nat.
Proof.
  split; [reflexivity|]. split; [reflexivity|].
  destruct (short_units_cost_no_remote_call demanding_env 2 1 (s "Work is done.")
              restarted_world) as [_ Hshort]; [lia|].
  exact (Hshort eq_refl).
Defined.

Lemma phase_2_returns_the_units_witness :
  (∀ k, (k < length two_units)%nat → chunk_files fresh_world !! k = None)
  ∧ fst (run_phase_2 demanding_env two_units fresh_world)
    = [s "Heat flows."; s "Work is done."].
Proof.
  assert (H : ∀ k, (k < length two_units)%nat → chunk_files fresh_world !! k = None)
    by (intros k _; apply lookup_empty).
  split; [exact H|].
  exact (phase_2_returns_the_units demanding_env two_units fresh_world H).
Defined.

Lemma phase_2_never_rewrites_a_checkpoint_witness :
  chunk_files restarted_world !! 0%nat = Some (s "Stored text of unit one.")
  ∧ chunk_files (snd (run_phase_2 demanding_env two_units restarted_world)) !! 0%nat
    = Some (s "Stored text of unit one.")
  ∧ fst (run_phase_2 demanding_env two_units restarted_world) !! 0%nat
    = Some (s "Stored text of unit one.").
Proof.
  destruct (phase_2_never_rewrites_a_checkpoint demanding_env two_units restarted_world
              0 (s "Stored text of unit one.") eq_refl) as [Hfile Hresult].
  split; [reflexivity|]. split; [exact Hfile|]. apply Hresult. simpl. lia.
Defined.

End units.

Section command_lines.
Import pipeline checkpoints.
Local Open Scope Z_scope.

Lemma purge_exactly_on_a_fresh_start_witness :
  start_phase_of fresh_args Absent = 1
  ∧ (Purge ∈ snd (cli fresh_args Absent full_host))
  ∧ (Purge ∉ snd (cli jump_args Absent full_host)).
Proof.
  split; [reflexivity|]. split.
  - apply (purge_exactly_on_a_fresh_start fresh_args Absent full_host).
    repeat split; reflexivity.
  - intros H. apply (purge_exactly_on_a_fresh_start jump_args Absent full_host) in H.
    destruct H as [H _]. discriminate H.
Defined.

Lemma phase_flag_skips_earlier_phases_witness :
  snd (cli jump_args Absent full_host) = [Work 3; Save 3; Work 4; Save 4]
  ∧ (Work 2 ∉ snd (cli jump_args Absent full_host))
  ∧ (Save 2 ∉ snd (cli jump_args Absent full_host)).
Proof.
  split; [reflexivity|].
  apply (phase_flag_skips_earlier_phases jump_args Absent full_host 3);
    [reflexivity | reflexivity | lia | lia].
Defined.

Lemma resume_after_completion_is_a_no_op_witness :
  Save 4 ∈ snd (cli fresh_args Absent full_host)
  ∧ state_after (snd (cli fresh_args Absent full_host)) Absent = Stored (Some 4)
  ∧ cli resume_demo_args (state_after (snd (cli fresh_args Absent full_host)) Absent)
        resume_demo_host
    = (AlreadyComplete, []).
Proof.
  assert (H : Save 4 ∈ snd (cli fresh_args Absent full_host))
    by (vm_compute; set_solver).
  split; [exact H|]. split; [reflexivity|].
  exact (resume_after_completion_is_a_no_op fresh_args resume_demo_args Absent
           full_host resume_demo_host H eq_refl).
Defined.

End command_lines.

Section files.
Import purge tree.

Lemma purge_keeps_preserved_entries_witness :
  demo_fs !! (OUTPUT_DIR demo_base ++ ["jobs.json"%string]) = Some file
  ∧ purge_fresh_run demo_base (Some nested_input) demo_fs
      !! (OUTPUT_DIR demo_base ++ ["jobs.json"%string])
    = Some file.
Proof.
  split; [vm_compute; reflexivity|].
  apply (purge_keeps_preserved_entries demo_base (Some nested_input) demo_fs
           "jobs.json" file);
    [right; reflexivity | vm_compute; reflexivity].
Defined.

Lemma purge_removes_other_entries_witness :
  demo_fs !! OUTPUT_DIR demo_base = Some dir
  ∧ demo_fs !! (OUTPUT_DIR demo_base ++ ["uploads"%string]) = Some dir
  ∧ denied demo_fs (OUTPUT_DIR demo_base ++ ["uploads"%string]) = None
  ∧ demo_fs !! nested_input = Some file
  ∧ purge_fresh_run demo_base (Some nested_input) demo_fs !! nested_input = None.
Proof.
  split; [vm_compute; reflexivity|]. split; [vm_compute; reflexivity|].
  split; [reflexivity|]. split; [vm_compute; reflexivity|].
  destruct (purge_removes_other_entries demo_base (Some nested_input) demo_fs "uploads")
    as [Hgone _].
  - vm_compute. reflexivity.
  - discriminate.
  - discriminate.
  - apply Hgone.
    + reflexivity.
    + exists ["book.pdf"%string]. reflexivity.
    + right. vm_compute. reflexivity.
Defined.

(** The system refuses to delete the draft: the handler prints its
    warning, the draft stays, and the loop goes on to remove the
    uploads. *)
Example refused_deletion_leaves_the_entry :
  purge_fresh_run demo_base None locked_fs
    !! (OUTPUT_DIR demo_base ++ ["expanded_draft.md"%string])
  = Some file
  ∧ purge_fresh_run demo_base None locked_fs !! nested_input = None
  ∧ fst (fresh_run_branch demo_base None locked_fs) = None.
Proof. vm_compute. done. Qed.

(** The output directory exists as a regular file: listing it raises,
    the exception leaves the branch, and nothing was removed. *)
Example output_path_is_a_file :
  fresh_run_branch demo_base None blocked_fs = (Some NotADirectoryError, blocked_fs).
Proof. reflexivity. Qed.

Lemma purge_leaves_the_rest_witness :
  demo_fs !! OUTPUT_DIR demo_base = Some dir
  ∧ purge_fresh_run demo_base (Some nested_input) demo_fs !! OUTPUT_DIR demo_base
    = Some dir.
Proof.
  split; [vm_compute; reflexivity|].
  apply (purge_leaves_the_rest demo_base (Some nested_input) demo_fs).
  - intros (name & rest & H). apply (f_equal length) in H.
    rewrite length_app in H. simpl in H. lia.
  - intros (name & rest & H). discriminate H.
  - vm_compute. reflexivity.
Defined.

End files.

Section broker.
Import sse_manager.

Lemma publish_drops_when_all_full_witness :
  forallb full (default [] (slow_queues !! "job-1"%string)) = true
  ∧ publish "job-1" progress_event slow_queues = (slow_queues, None).
Proof.
  assert (H : forallb full (default [] (slow_queues !! "job-1"%string)) = true)
    by (vm_compute; reflexivity).
  split; [exact H|].
  exact (publish_drops_when_all_full "job-1" progress_event slow_queues H).
Defined.

Lemma subscribe_round_trip_witness :
  subscribe_enter 2 "job-1" slow_queues !! "job-1"%string
  = Some [slow_client; mkQueue 2 100 []]
  ∧ subscribe_exit 2 "job-1" (subscribe_enter 2 "job-1" slow_queues) !! "job-1"%string
    = Some [slow_client].
Proof.
  destruct (subscribe_round_trip 2 "job-1" slow_queues) as (Henter & Hexit & _).
  - vm_compute. repeat constructor. discriminate.
  - split; [exact Henter | exact Hexit].
Defined.

End broker.

Section dead_letters.
Import dlq.
Local Open Scope Z_scope.

Lemma ids_stay_unique_witness :
  NoDup (map id demo_table) ∧ NoDup (map id (run_calls demo_calls demo_table)).
Proof.
  assert (H : NoDup (map id demo_table)).
  { vm_compute. apply NoDup_cons. split; [|apply NoDup_singleton].
    intros Hin%list_elem_of_singleton. discriminate Hin. }
  split; [exact H|]. exact (ids_stay_unique demo_calls demo_table H).
Defined.

Lemma retry_all_recovers_everything_witness :
  length (get_all (s "pending") demo_table) = 2%nat
  ∧ get_all (s "pending") (fst (retry_all always_ok (s "t9") 3 demo_table)) = []
  ∧ snd (retry_all always_ok (s "t9") 3 demo_table) = 2.
Proof.
  split; [reflexivity|].
  apply (retry_all_recovers_everything always_ok (s "t9") 3 demo_table).
  apply Forall_forall. intros item _. exists 0%nat. split; [lia | reflexivity].
Defined.

Lemma retry_all_without_success_changes_nothing_witness :
  length (get_all (s "pending") demo_table) = 2%nat
  ∧ retry_all always_raises (s "t9") 3 demo_table = (demo_table, 0).
Proof.
  split; [reflexivity|].
  apply (retry_all_without_success_changes_nothing always_raises (s "t9") 3 demo_table).
  apply Forall_forall. intros item _ k _. discriminate.
Defined.

Lemma push_last_write_wins_witness :
  push (s "t0") (s "chunk_42") (s "forty-two") (s "rate limit") 4 []
  = inr [mkRow (s "chunk_42") 4 (s "forty-two") (s "rate limit") 0 (s "pending")
               (s "t0") (s "t0")]
  ∧ fits_int64 2 = true
  ∧ push (s "t3") (s "chunk_42") (s "forty-two") (s "again") 2
         [mkRow (s "chunk_42") 4 (s "forty-two") (s "rate limit") 0 (s "pending")
                (s "t0") (s "t0")]
    = inr [mkRow (s "chunk_42") 2 (s "forty-two") (s "again") 0 (s "pending")
                 (s "t3") (s "t3")].
Proof.
  split; [reflexivity|]. split; [reflexivity|].
  destruct (push_last_write_wins (s "t0") (s "t3") (s "chunk_42") (s "forty-two")
              (s "forty-two") (s "rate limit") (s "again") 4 2 []
              [mkRow (s "chunk_42") 4 (s "forty-two") (s "rate limit") 0 (s "pending")
                     (s "t0") (s "t0")] eq_refl)
    as [Hfits _].
  destruct (Hfits eq_refl) as (t2 & H1 & H2 & _).
  rewrite H1, <- H2. reflexivity.
Defined.

(** A phase of 2^63 cannot be bound: the push raises and the resolved
    row is still resolved. *)
Example push_out_of_range_keeps_the_row :
  push (s "t3") (s "chunk_42") (s "forty-two") (s "again") (2 ^ 63)
       (mark_resolved (s "t2") (s "chunk_42") demo_table)
  = inl OverflowError
  ∧ run_calls [Push (s "t3") (s "chunk_42") (s "forty-two") (s "again") (2 ^ 63)]
              (mark_resolved (s "t2") (s "chunk_42") demo_table)
    = mark_resolved (s "t2") (s "chunk_42") demo_table.
Proof. split; reflexivity. Qed.

End dead_letters.

Section segmenter.
Import chunker.

Lemma fitting_text_is_one_chunk_witness :
  length two_chapters ≤ 800 ∧ _split_by_length two_chapters 800 = inr [two_chapters].
Proof.
  assert (H : length two_chapters ≤ 800) by (vm_compute; lia).
  split; [exact H|]. exact (fitting_text_is_one_chunk two_chapters 800 H).
Defined.

Lemma solid_text_is_cut_at_offsets_witness :
  _split_by_length (s "Supercalifragilistic") 8
  = inr [s "Supercal"; s "ifragili"; s "stic"].
Proof.
  destruct (solid_text_is_cut_at_offsets (s "Supercalifragilistic") 8) as [H _];
    [lia | simpl; lia | reflexivity |].
  exact H.
Defined.

End segmenter.

Section logs.
Import jobs.

Lemma log_keeps_the_last_500_lines_witness :
  demo_store !! "ab12cd34"%string = Some demo_job
  ∧ ∃ job',
      append_logs "ab12cd34" demo_entries demo_store !! "ab12cd34"%string = Some job'
      ∧ log_lines job' = log_lines demo_job ++ demo_entries.
Proof.
  assert (H : demo_store !! "ab12cd34"%string = Some demo_job)
    by (vm_compute; reflexivity).
  split; [exact H|].
  destruct (log_keeps_the_last_500_lines "ab12cd34" demo_entries demo_store demo_job H)
    as (job' & Hjob & Hlines & _); [simpl; lia|].
  exists job'. split; [exact Hjob|]. rewrite Hlines. reflexivity.
Defined.

End logs.

End further_examples.
